(** * Library RDF data management: rule tiers and SELECT projection

    A shallow embedding of the three Flask variants of the service
    ([testapp.py], [testapp1.py], [updatedapp.py]): the fixed rule tiers,
    the textual rule tier, the CWM-style rule tier and the SELECT
    projection of [run_query].

    Texts are Python [str] values: sequences of Unicode code points, with
    the white space of [str.isspace].  Terms are rdflib terms up to the
    equality and hash of rdflib, under which a graph, a dictionary and an
    index of the store hold them: the language tag of a literal counts in
    lower case.

    The graph container is rdflib's [Graph] on its in-memory store: a set of
    triples, indexed by dictionaries that keep insertion order.  It is
    modelled as the list of its triples in insertion order, without
    duplicates: [add] of a triple that is already present changes nothing,
    and a new triple goes to the end.  A view of the graph with the
    predicate given ([triples], [subjects], [objects], [subject_objects]) is
    the sub-list of the matching triples.  The store yields such a view
    grouped by its index keys; the first element of the views the code
    takes with [next] is the same in both orders, and so is the set of
    triples every function returns.  A loop over such a view that adds
    triples of other predicates runs over the view as it was when the loop
    began, since the store copies the keys of the index it walks.

    Two things are not fixed by the graph as a list and are kept open.  The
    order in which [for triple in graph] yields all the triples is the
    store's own: it is a parameter, [graph_iter], of which the properties
    assume no more than that it yields every triple once.  The result of a
    SELECT query is computed while it is read: it is a value of [Result],
    whose rows after the first may depend on the triples added meanwhile. *)

From Stdlib Require Import NArith.
From Stdlib.Strings Require Import Byte.
From stdpp Require Import base decidable list numbers gmap.

(** ** Python strings

    A Python [str] is a sequence of Unicode code points.  A string literal
    of this file is read as UTF-8, so a literal that holds a no-break space
    is the one code point U+00A0. *)

Inductive char : Type := Char (code : N).

Inductive string : Type :=
  | EmptyString
  | String (c : char) (s : string).

#[global] Instance char_eq_dec : EqDecision char.
Proof. solve_decision. Defined.

#[global] Instance str_eq_dec : EqDecision string.
Proof. solve_decision. Defined.

(** Reading and printing of the literals. *)
Module Utf8.

Definition continuation (n : N) : bool := (128 <=? n)%N && (n <? 192)%N.

Fixpoint decode (need : nat) (acc : N) (bytes : list Byte.byte) : option string :=
  match bytes with
  | [] => match need with O => Some EmptyString | S _ => None end
  | b :: rest =>
      let n := Byte.to_N b in
      match need with
      | O =>
          if (n <? 128)%N then String (Char n) <$> decode 0 0%N rest
          else if (192 <=? n)%N && (n <? 224)%N then decode 1 (n - 192)%N rest
          else if (224 <=? n)%N && (n <? 240)%N then decode 2 (n - 224)%N rest
          else if (240 <=? n)%N && (n <? 248)%N then decode 3 (n - 240)%N rest
          else None
      | S k =>
          if continuation n then
            let acc := (acc * 64 + (n - 128))%N in
            match k with
            | O => String (Char acc) <$> decode 0 0%N rest
            | S _ => decode k acc rest
            end
          else None
      end
  end.

Definition byte_of (n : N) : list Byte.byte :=
  match Byte.of_N n with
  | Some b => [b]
  | None => []
  end.

Definition encode_char (c : char) : list Byte.byte :=
  let 'Char n := c in
  if (n <? 128)%N then byte_of n
  else if (n <? 2048)%N then byte_of (192 + n / 64)%N ++ byte_of (128 + n mod 64)%N
  else if (n <? 65536)%N
  then byte_of (224 + n / 4096)%N ++ byte_of (128 + (n / 64) mod 64)%N
       ++ byte_of (128 + n mod 64)%N
  else byte_of (240 + n / 262144)%N ++ byte_of (128 + (n / 4096) mod 64)%N
       ++ byte_of (128 + (n / 64) mod 64)%N ++ byte_of (128 + n mod 64)%N.

Fixpoint encode (s : string) : list Byte.byte :=
  match s with
  | EmptyString => []
  | String c s' => encode_char c ++ encode s'
  end.

Definition parse (bytes : list Byte.byte) : option string := decode 0 0%N bytes.

Definition print (s : string) : list Byte.byte := encode s.

Definition parse_char (bytes : list Byte.byte) : option char :=
  match decode 0 0%N bytes with
  | Some (String c EmptyString) => Some c
  | _ => None
  end.

Definition print_char (c : char) : list Byte.byte := encode_char c.

End Utf8.

Declare Scope str_scope.
Delimit Scope str_scope with str.
Bind Scope str_scope with string.
String Notation string Utf8.parse Utf8.print : str_scope.

Declare Scope pychar_scope.
Delimit Scope pychar_scope with char.
Bind Scope pychar_scope with char.
String Notation char Utf8.parse_char Utf8.print_char : pychar_scope.

(** [s + t] *)
Fixpoint append (s t : string) : string :=
  match s with
  | EmptyString => t
  | String c s' => String c (append s' t)
  end.

Arguments append : simpl never.

Infix "+:+" := append (at level 60, right associativity) : str_scope.

Open Scope str_scope.
Open Scope list_scope.

(** ** Python string operations

    White space is what [str.isspace] accepts, which is what [str.strip()]
    and [str.split()] without arguments remove. *)

Module Py.

(** [c.isspace()]: the control characters U+0009 to U+000D and U+001C to
    U+001F, the space, and the Unicode white space U+0085, U+00A0, U+1680,
    U+2000 to U+200A, U+2028, U+2029, U+202F, U+205F and U+3000. *)
Definition isspace (c : char) : bool :=
  let 'Char n := c in
  ((9 <=? n) && (n <=? 13) || (28 <=? n) && (n <=? 32)
   || (n =? 133) || (n =? 160) || (n =? 5760)
   || (8192 <=? n) && (n <=? 8202)
   || (n =? 8232) || (n =? 8233) || (n =? 8239) || (n =? 8287) || (n =? 12288))%N.

(** [len(s)] *)
Fixpoint len (s : string) : nat :=
  match s with
  | EmptyString => 0
  | String _ s' => S (len s')
  end.

(** [s.startswith(pre)] *)
Fixpoint startswith (s pre : string) : bool :=
  match pre, s with
  | EmptyString, _ => true
  | String a pre', String b s' => bool_decide (a = b) && startswith s' pre'
  | String _ _, EmptyString => false
  end.

(** [sub in s] *)
Fixpoint contains (sub s : string) : bool :=
  startswith s sub
  || match s with
     | EmptyString => false
     | String _ s' => contains sub s'
     end.

(** [s[n:]] *)
Fixpoint drop_chars (n : nat) (s : string) : string :=
  match n, s with
  | O, _ => s
  | S _, EmptyString => EmptyString
  | S k, String _ s' => drop_chars k s'
  end.

Definition snoc (s : string) (c : char) : string := s +:+ String c EmptyString.

(** [s.split(sep)] for a non-empty separator: the pieces between the
    occurrences of [sep], found from the left and not overlapping.  [skip]
    counts the characters of a separator still to be passed over. *)
Fixpoint split_go (sep : string) (skip : nat) (cur s : string) : list string :=
  match s with
  | EmptyString => [cur]
  | String c s' =>
      match skip with
      | S k => split_go sep k cur s'
      | O =>
          if startswith s sep
          then cur :: split_go sep (len sep - 1) EmptyString s'
          else split_go sep O (snoc cur c) s'
      end
  end.

Definition split (s sep : string) : list string := split_go sep 0 EmptyString s.

(** [s.split()]: the maximal runs of non-space characters. *)
Fixpoint split_ws_go (cur s : string) : list string :=
  match s with
  | EmptyString => if bool_decide (cur = EmptyString) then [] else [cur]
  | String c s' =>
      if isspace c
      then (if bool_decide (cur = EmptyString) then split_ws_go EmptyString s'
            else cur :: split_ws_go EmptyString s')
      else split_ws_go (snoc cur c) s'
  end.

Definition split_ws (s : string) : list string := split_ws_go EmptyString s.

Fixpoint lstrip (s : string) : string :=
  match s with
  | EmptyString => EmptyString
  | String c s' => if isspace c then lstrip s' else s
  end.

Fixpoint rstrip (s : string) : string :=
  match s with
  | EmptyString => EmptyString
  | String c s' =>
      match rstrip s' with
      | EmptyString => if isspace c then EmptyString else String c EmptyString
      | r => String c r
      end
  end.

(** [s.strip()] *)
Definition strip (s : string) : string := rstrip (lstrip s).

(** [sep.join(parts)] *)
Fixpoint join (sep : string) (parts : list string) : string :=
  match parts with
  | [] => EmptyString
  | [x] => x
  | x :: (_ :: _) as xs => x +:+ sep +:+ join sep xs
  end.

Definition newline : string := String (Char 10) EmptyString.

(** [[r.strip() for r in text.split('\n') if r.strip()]] *)
Definition nonblank_lines (text : string) : list string :=
  omap (λ r, let r' := strip r in
             if bool_decide (r' = EmptyString) then None else Some r')
       (split text newline).

(** [s.endswith(suffix)] *)
Fixpoint endswith (s suffix : string) : bool :=
  bool_decide (s = suffix)
  || match s with
     | EmptyString => false
     | String _ s' => endswith s' suffix
     end.

End Py.

(** ** Terms, triples, graphs *)

(** A language tag, in lower case: a text of lower-case letters, digits and
    hyphens that is not empty.  rdflib accepts a tag of letters, digits and
    hyphens, turns an empty tag into no tag, and compares and hashes the
    tags of two literals in lower case ([Literal.__eq__],
    [Literal.__hash__]): [Literal("Bob", lang="EN")] and
    [Literal("Bob", lang="en")] are one key of a dictionary and one entry of
    the store.  The program never reads the spelling of a tag, so a tag is
    kept in the form under which it is compared. *)
Definition tag_char (c : char) : bool :=
  let 'Char n := c in
  ((97 <=? n) && (n <=? 122) || (48 <=? n) && (n <=? 57) || (n =? 45))%N.

Fixpoint tag_chars (s : string) : bool :=
  match s with
  | EmptyString => true
  | String c s' => tag_char c && tag_chars s'
  end.

Definition is_tag (s : string) : bool :=
  negb (bool_decide (s = EmptyString)) && tag_chars s.

Record LangTag : Type := {
  tag : string;
  tag_ok : is_tag tag = true
}.

#[global] Instance LangTag_eq_dec : EqDecision LangTag.
Proof.
  intros [t1 H1] [t2 H2]. destruct (decide (t1 = t2)) as [->|Hne].
  - left. f_equal. apply proof_irrel.
  - right. intros [= ?]. done.
Defined.

Definition lower_char (c : char) : char :=
  let 'Char n := c in
  if ((65 <=? n) && (n <=? 90))%N then Char (n + 32)%N else c.

Fixpoint lower (s : string) : string :=
  match s with
  | EmptyString => EmptyString
  | String c s' => String (lower_char c) (lower s')
  end.

(** The tag under which rdflib compares a literal made with [lang=s]: the
    tag in lower case; no tag for the empty text, nor for a text with a
    character that no tag can have (rdflib refuses such a literal). *)
Definition language (s : string) : option LangTag :=
  match decide (is_tag (lower s) = true) with
  | left H => Some {| tag := lower s; tag_ok := H |}
  | right _ => None
  end.

(** rdflib terms, up to the equality of rdflib ([Identifier.__eq__],
    [Literal.__eq__]): by class and text for [URIRef] and [BNode], which
    are [str] subclasses; by lexical form, datatype and language tag in
    lower case for a [Literal]. *)
Inductive Term : Type :=
  | URIRef (iri : string)
  | BNode (id : string)
  | Literal (lexical : string) (datatype : option string) (language : option LangTag).

#[global] Instance Term_eq_dec : EqDecision Term.
Proof. solve_decision. Defined.

Abbreviation Triple := (Term * Term * Term)%type.

Abbreviation Graph := (list Triple).

Definition subject_of (t : Triple) : Term := t.1.1.
Definition predicate_of (t : Triple) : Term := t.1.2.
Definition object_of (t : Triple) : Term := t.2.

(** [graph.add(t)] *)
Definition add (t : Triple) (graph : Graph) : Graph :=
  if decide (t ∈ graph) then graph else graph ++ [t].

(** A run of [graph.add] calls, first to last. *)
Definition add_all (ts : list Triple) (graph : Graph) : Graph :=
  foldl (λ g t, add t g) graph ts.

(** A position of a triple pattern: [None] is the wildcard. *)
Definition pos_matches (pat : option Term) (x : Term) : Prop :=
  match pat with
  | None => True
  | Some y => x = y
  end.

#[global] Instance pos_matches_dec pat x : Decision (pos_matches pat x).
Proof. destruct pat; simpl; apply _. Defined.

Definition triple_matches (s p o : option Term) (t : Triple) : Prop :=
  pos_matches s (subject_of t) ∧ pos_matches p (predicate_of t) ∧ pos_matches o (object_of t).

#[global] Instance triple_matches_dec s p o t : Decision (triple_matches s p o t).
Proof. unfold triple_matches; apply _. Defined.

(** [graph.triples((s, p, o))] *)
Definition triples (s p o : option Term) (graph : Graph) : list Triple :=
  filter (triple_matches s p o) graph.

(** [graph.subject_objects(p)] *)
Definition subject_objects (p : Term) (graph : Graph) : list (Term * Term) :=
  (λ t, (subject_of t, object_of t)) <$> triples None (Some p) None graph.

(** [graph.subjects(p, o)]; [o] may be [None]. *)
Definition subjects (p : Term) (o : option Term) (graph : Graph) : list Term :=
  subject_of <$> triples None (Some p) o graph.

(** [graph.objects(s, p)]; [s] may be [None]. *)
Definition objects (s : option Term) (p : Term) (graph : Graph) : list Term :=
  object_of <$> triples s (Some p) None graph.

(** [next(it, None)] *)
Definition next_or_None {A} (it : list A) : option A := head it.

(** ** Namespaces *)

Definition EX : string := "http://users.jyu.fi/~tanibir/".
Definition RDF : string := "http://www.w3.org/1999/02/22-rdf-syntax-ns#".

(** [EX.name], [RDF.name] *)
Definition ns (base name : string) : Term := URIRef (base +:+ name).

Definition EX_hasAuthor : Term := ns EX "hasAuthor".
Definition EX_wrote : Term := ns EX "wrote".
Definition EX_writtenBy : Term := ns EX "writtenBy".
Definition EX_hasGenre : Term := ns EX "hasGenre".
Definition EX_relatedTo : Term := ns EX "relatedTo".
Definition EX_borrowedBy : Term := ns EX "borrowedBy".
Definition EX_FrequentBorrower : Term := ns EX "FrequentBorrower".
Definition EX_Book : Term := ns EX "Book".
Definition EX_Loan : Term := ns EX "Loan".
Definition EX_User : Term := ns EX "User".
Definition EX_hasExpertise : Term := ns EX "hasExpertise".
Definition EX_recommendedFor : Term := ns EX "recommendedFor".
Definition EX_prefersGenre : Term := ns EX "prefersGenre".
Definition RDF_type : Term := ns RDF "type".

(** ** Python dictionaries of lists and of sets, in insertion order *)

Section Dict.
Context {V : Type} `{EqDecision V}.

(** [if k not in d: d[k] = []] then [d[k].append(v)] *)
Fixpoint dict_append (k : Term) (v : V) (d : list (Term * list V)) : list (Term * list V) :=
  match d with
  | [] => [(k, [v])]
  | (k', vs) :: d' =>
      if decide (k = k') then (k', vs ++ [v]) :: d'
      else (k', vs) :: dict_append k v d'
  end.

(** [if k not in d: d[k] = set()] then [d[k].add(v)] *)
Fixpoint dict_set_add (k : Term) (v : V) (d : list (Term * list V)) : list (Term * list V) :=
  match d with
  | [] => [(k, [v])]
  | (k', vs) :: d' =>
      if decide (k = k') then (k', if decide (v ∈ vs) then vs else vs ++ [v]) :: d'
      else (k', vs) :: dict_set_add k v d'
  end.
End Dict.

(** The shared derivation "the author wrote the book". *)
Definition author_wrote (graph : Graph) : Graph :=
  foldl (λ g '(book, author), add (author, EX_wrote, book) g)
        graph (subject_objects EX_hasAuthor graph).

(** Rule 2 of the basic tier, the same in [testapp.py] and [testapp1.py]. *)
Definition genre_books (graph : Graph) : list (Term * list Term) :=
  foldl (λ d '(book, genre), dict_append genre book d)
        [] (subject_objects EX_hasGenre graph).

Definition related_books (graph : Graph) : Graph :=
  foldl (λ g '(genre, books),
           foldl (λ g book1,
                    foldl (λ g book2,
                             if decide (book1 ≠ book2)
                             then add (book1, EX_relatedTo, book2) g
                             else g)
                          g books)
                 g books)
        graph (genre_books graph).

(** Python truth value of a term.  [URIRef] and [BNode] are strings and are
    false when empty; [Literal.__bool__] goes through the datatype's value
    space and is kept as a parameter. *)
Definition truthy (literal_bool : string → option string → option LangTag → bool)
    (t : Term) : bool :=
  match t with
  | URIRef s | BNode s => negb (bool_decide (s = EmptyString))
  | Literal l d lang => literal_bool l d lang
  end.

(** How a call ends: it returns the graph object it was given, or raises
    [ValueError]. *)
Inductive outcome : Type :=
  | Returned
  | Raised_ValueError.

(** ** Query results *)

(** A solution of a query: the variables it binds. *)
Abbreviation Solution := (list (string * Term)).

Definition solution_get (values : Solution) (v : string) : option Term :=
  snd <$> find (λ kv, bool_decide (kv.1 = v)) values.

(** rdflib's [ResultRow(values, labels)]: the tuple of [values.get(v)] for
    the labels [v], [None] where the solution leaves [v] unbound, with the
    index of every label. *)
Record ResultRow : Type := {
  row_values : list (option Term);
  row_labels : list (string * nat)
}.

#[global] Instance ResultRow_eq_dec : EqDecision ResultRow.
Proof. solve_decision. Defined.

(** [dict((str(x[1]), x[0]) for x in enumerate(labels))]: a later entry
    replaces an earlier one with the same key. *)
Fixpoint label_index (entries : list (string * nat)) (name : string) : option nat :=
  match entries with
  | [] => None
  | (k, i) :: rest =>
      match label_index rest name with
      | Some j => Some j
      | None => if decide (k = name) then Some i else None
      end
  end.

Definition ResultRow_new (values : Solution) (labels : list string) : ResultRow :=
  {| row_values := solution_get values <$> labels;
     row_labels := imap (λ i v, (v, i)) labels |}.

(** [row[name]]: [None] is [KeyError]; [Some None] is the value [None]. *)
Definition row_getitem (row : ResultRow) (name : string) : option (option Term) :=
  match label_index (row_labels row) name with
  | Some i => row_values row !! i
  | None => None
  end.

(** The result of a SELECT query as [run_query] reads it: [result.vars] and
    the solutions that the iteration yields, which are those that bind a
    variable (rdflib passes over a solution that binds none); iterating
    yields [ResultRow(b, result.vars)] for each of these solutions [b].
    [run_query] adds nothing while it reads, so the rows are those of the
    graph as it is at the call. *)
Record SelectResult : Type := {
  vars : list string;
  solutions : list Solution
}.

Definition result_rows (result : SelectResult) : list ResultRow :=
  (λ b, ResultRow_new b (vars result)) <$> solutions result.

(** What [row.get(var, default)] can return, and [str] of it. *)
Inductive PyVal : Type :=
  | PyTerm (t : Term)
  | PyNone
  | PyStr (s : string).

Definition term_str (t : Term) : string :=
  match t with
  | URIRef s => s
  | BNode s => s
  | Literal l _ _ => l
  end.

Definition str (v : PyVal) : string :=
  match v with
  | PyTerm t => term_str t
  | PyNone => "None"
  | PyStr s => s
  end.

Definition of_value (v : option Term) : PyVal :=
  match v with
  | Some t => PyTerm t
  | None => PyNone
  end.

(** [row.get(name, default)]: the default only on [KeyError]. *)
Definition row_get (row : ResultRow) (name : string) (default : PyVal) : PyVal :=
  match row_getitem row name with
  | Some v => of_value v
  | None => default
  end.

(** The result of [graph.query] as the [for] loop of the CWM tier sees it.
    rdflib evaluates a SELECT query while the result is iterated: a row is
    computed when it is asked for, from the graph as it is then, so the rows
    after the first can depend on the triples that the body of the loop has
    added.  Asking for the next row ends the iteration, raises, or yields a
    row and what is left of the iteration, which again reads the graph.
    The iteration ends after finitely many rows whatever is added. *)
Inductive Result : Type :=
  | Result_stop
  | Result_raise
  | Result_yield (row : ResultRow) (rest : Graph → Result).

(** ** testapp.py *)

Module Testapp.

(** Rule 1 *)
Definition rule_author (graph : Graph) : Graph :=
  foldl (λ g '(book, author),
           add (book, EX_writtenBy, author) (add (author, EX_wrote, book) g))
        graph (subject_objects EX_hasAuthor graph).

(** Rule 3 *)
Definition borrower_loans (graph : Graph) : list (Term * list Term) :=
  foldl (λ d '(loan, member), dict_append member loan d)
        [] (subject_objects EX_borrowedBy graph).

Definition frequent_borrowers (graph : Graph) : Graph :=
  foldl (λ g '(member, loans),
           if decide (1 < length loans)
           then add (member, RDF_type, EX_FrequentBorrower) g
           else g)
        graph (borrower_loans graph).

Definition apply_basic_library_rules (graph : Graph) : Graph :=
  let graph := rule_author graph in
  let graph := related_books graph in
  let graph := frequent_borrowers graph in
  graph.

Section Advanced.
Variable literal_bool : string → option string → option LangTag → bool.

(** Rule 1 of the advanced tier *)
Definition author_genres (graph : Graph) : list (Term * list Term) :=
  foldl (λ d book,
           let author := next_or_None (objects (Some book) EX_hasAuthor graph) in
           let genre := next_or_None (objects (Some book) EX_hasGenre graph) in
           match author, genre with
           | Some a, Some ge =>
               if truthy literal_bool a && truthy literal_bool ge
               then dict_set_add a ge d else d
           | _, _ => d
           end)
        [] (subjects RDF_type (Some EX_Book) graph).

Definition author_expertise (graph : Graph) : Graph :=
  foldl (λ g '(author, genres),
           foldl (λ g genre, add (author, EX_hasExpertise, genre) g) g genres)
        graph (author_genres graph).

(** Rule 2 of the advanced tier.  The genre put into a member's set is the
    first object of any [hasGenre] triple, or [None]; [None] is then the
    wildcard of [graph.subjects]. *)
Definition member_genres (graph : Graph) : list (Term * list (option Term)) :=
  foldl (λ d loan,
           match next_or_None (objects (Some loan) EX_borrowedBy graph) with
           | Some member =>
               if truthy literal_bool member
               then dict_set_add member (next_or_None (objects None EX_hasGenre graph)) d
               else d
           | None => d
           end)
        [] (subjects RDF_type (Some EX_Loan) graph).

Definition recommend_by_loans (graph : Graph) : Graph :=
  foldl (λ g '(member, genres),
           foldl (λ g genre,
                    foldl (λ g book, add (book, EX_recommendedFor, member) g)
                          g (subjects EX_hasGenre genre g))
                 g genres)
        graph (member_genres graph).

Definition apply_advanced_library_rules (graph : Graph) : Graph :=
  let graph := apply_basic_library_rules graph in
  let graph := author_expertise graph in
  let graph := recommend_by_loans graph in
  graph.

End Advanced.

(** The loop of [apply_custom_rules] over the rule lines; the first
    component is the graph object when the loop ends or raises. *)
Fixpoint custom_rules_loop (rules : list string) (graph : Graph) : Graph * outcome :=
  match rules with
  | [] => (graph, Returned)
  | rule :: rest =>
      if Py.startswith rule "IF" && Py.contains "THEN" rule then
        match Py.split rule "THEN" with
        | [condition; conclusion] =>
            let condition := Py.strip (Py.drop_chars 2 condition) in
            let conclusion := Py.strip conclusion in
            if Py.contains "hasAuthor" condition && Py.contains "wrote" conclusion
            then custom_rules_loop rest (author_wrote graph)
            else custom_rules_loop rest graph
        | _ => (graph, Raised_ValueError)
        end
      else custom_rules_loop rest graph
  end.

Definition apply_custom_rules (graph : Graph) (rules_text : string) : Graph * outcome :=
  if bool_decide (rules_text = EmptyString) || bool_decide (Py.strip rules_text = EmptyString)
  then (graph, Returned)
  else custom_rules_loop (Py.nonblank_lines rules_text) graph.

(** The SELECT branch of [run_query]: [str(row[var])] for the headers;
    [None] when an index raises. *)
Definition select_rows (result : SelectResult) : option (list (list string)) :=
  let headers := vars result in
  mapM (λ row, mapM (λ var, (λ v, str (of_value v)) <$> row_getitem row var) headers)
       (result_rows result).

End Testapp.

(** ** testapp1.py *)

Module Testapp1.

Abbreviation Clause := (string * string * string)%type.

(** The clauses of one side of a rule: the non-blank pieces between dots,
    each unpacked into exactly three tokens. *)
Fixpoint parse_clauses (pieces : list string) : option (list Clause) :=
  match pieces with
  | [] => Some []
  | triple :: rest =>
      if bool_decide (Py.strip triple = EmptyString) then parse_clauses rest
      else
        match Py.strip <$> Py.split_ws triple with
        | [s; p; o] => cons (s, p, o) <$> parse_clauses rest
        | _ => None
        end
  end.

(** [parse_cwm_rule]; [None] is the [ValueError] it raises. *)
Definition parse_cwm_rule (rule_text : string) : option (list Clause * list Clause) :=
  match Py.split rule_text "=>" with
  | [part0; part1] =>
      antecedent ← parse_clauses (Py.split (Py.strip part0) ".");
      consequent ← parse_clauses (Py.split (Py.strip part1) ".");
      Some (antecedent, consequent)
  | _ => None
  end.

(** rdflib's [Variable(value)]: an empty name raises, one leading question
    mark is dropped. *)
Definition Variable_new (value : string) : option string :=
  match value with
  | EmptyString => None
  | String c rest => if bool_decide (c = "?"%char) then Some rest else Some value
  end.

Definition is_var (tok : string) : bool := Py.startswith tok "?".

(** [if tok not in var_map: var_map[tok] = Variable(tok[1:])] *)
Definition var_map_add (tok : string) (var_map : list (string * string))
    : option (list (string * string)) :=
  match find (λ kv, bool_decide (kv.1 = tok)) var_map with
  | Some _ => Some var_map
  | None => v ← Variable_new (Py.drop_chars 1 tok); Some (var_map ++ [(tok, v)])
  end.

Definition var_map_get (var_map : list (string * string)) (tok : string) : option string :=
  snd <$> find (λ kv, bool_decide (kv.1 = tok)) var_map.

Definition has_scheme (p : string) : bool :=
  Py.startswith p "http://" || Py.startswith p "https://".

(** The first loop of a rule: the variable map and the text of each triple
    pattern of the query. *)
Fixpoint build_query (antecedent : list Clause) (var_map : list (string * string))
    (query_parts : list string) : option (list (string * string) * list string) :=
  match antecedent with
  | [] => Some (var_map, query_parts)
  | (s, p, o) :: rest =>
      var_map ← (if is_var s then var_map_add s var_map else Some var_map);
      var_map ← (if is_var o then var_map_add o var_map else Some var_map);
      if is_var p then
        var_map ← var_map_add p var_map;
        v ← var_map_get var_map p;
        build_query rest var_map
          (query_parts ++ [s +:+ " ?" +:+ ("?" +:+ v) +:+ " " +:+ o])
      else
        let p := if has_scheme p then p else "ex:" +:+ p in
        build_query rest var_map (query_parts ++ [s +:+ " " +:+ p +:+ " " +:+ o])
  end.

Fixpoint spaces (n : nat) : string :=
  match n with
  | O => EmptyString
  | S k => String " " (spaces k)
  end.

Definition query_str (query_parts : list string) : string :=
  Py.newline +:+ spaces 16 +:+ "PREFIX ex: <http://users.jyu.fi/~tanibir/>"
  +:+ Py.newline +:+ spaces 16 +:+ "SELECT * WHERE { "
  +:+ Py.newline +:+ spaces 20
  +:+ Py.join " . " query_parts +:+ " }".

(** [bindings[var_name] = result[var_map[var_name]]] for every entry of the
    variable map; [None] when an index raises. *)
Definition make_bindings (var_map : list (string * string)) (result : ResultRow)
    : option (list (string * option Term)) :=
  mapM (λ '(var_name, var), pair var_name <$> row_getitem result var) var_map.

(** [bindings.get(tok, None)] *)
Definition bindings_get (bindings : list (string * option Term)) (tok : string) : option Term :=
  match find (λ kv, bool_decide (kv.1 = tok)) (reverse bindings) with
  | Some (_, v) => v
  | None => None
  end.

(** One position of a consequent clause: a bound variable, or the token
    appended to the namespace.  [None] is the [continue]. *)
Definition actual (bindings : list (string * option Term)) (tok : string) : option Term :=
  if is_var tok then bindings_get bindings tok
  else Some (URIRef (EX +:+ tok)).

Definition instantiate (bindings : list (string * option Term)) (c : Clause) : option Triple :=
  let '(s, p, o) := c in
  actual_s ← actual bindings s;
  actual_p ← actual bindings p;
  actual_o ← actual bindings o;
  Some (actual_s, actual_p, actual_o).

Definition apply_consequent (bindings : list (string * option Term))
    (consequent : list Clause) (new_graph : Graph) : Graph :=
  foldl (λ g c, match instantiate bindings c with
                | Some t => add t g
                | None => g
                end)
        new_graph consequent.

(** [for result in results:] with the body of the loop.  The next row is
    asked for on the graph that the body has left; nothing more is added
    when the iteration ends or raises, or when a row has no value for a
    variable of the map ([KeyError]). *)
Fixpoint apply_results (var_map : list (string * string)) (consequent : list Clause)
    (results : Result) (new_graph : Graph) : Graph :=
  match results with
  | Result_stop => new_graph
  | Result_raise => new_graph
  | Result_yield result rest =>
      match make_bindings var_map result with
      | Some bindings =>
          let new_graph := apply_consequent bindings consequent new_graph in
          apply_results var_map consequent (rest new_graph) new_graph
      | None => new_graph
      end
  end.

Section Cwm.
(** rdflib's SPARQL engine, [graph.query(text)] on the graph as it is at
    the call: the result, or [None] when the call raises (a syntax error, a
    prefix it cannot resolve).  It reads the graph and does not change it. *)
Variable query : Graph → string → option Result.

(** [for triple in graph]: the triples of the graph in the order in which
    the store yields them.  The order is the store's own (by its indexes or
    by hash, with the version of rdflib) and is left open. *)
Variable graph_iter : Graph → list Triple.

(** The body of the loop over the rules: any exception is caught and the
    loop continues with the graph as it then is. *)
Definition apply_rule (new_graph : Graph) (rule : string) : Graph :=
  match parse_cwm_rule rule with
  | Some (antecedent, consequent) =>
      match build_query antecedent [] [] with
      | Some (var_map, query_parts) =>
          match query new_graph (query_str query_parts) with
          | Some results => apply_results var_map consequent results new_graph
          | None => new_graph
          end
      | None => new_graph
      end
  | None => new_graph
  end.

(** [apply_cwm_rules] on a store of graph objects: [graph] is a reference,
    and so is the result. *)
Definition apply_cwm_rules (h : gmap nat Graph) (graph : nat) (rules_text : string)
    : gmap nat Graph * nat :=
  if bool_decide (rules_text = EmptyString) then (h, graph)
  else
    let new_graph := fresh (dom h) in
    let h1 := <[new_graph := []]> h in
    let h2 := foldl (λ h' triple, alter (add triple) new_graph h')
                    h1 (graph_iter (default [] (h !! graph))) in
    let rules := Py.nonblank_lines rules_text in
    let h3 := foldl (λ h' rule, alter (λ g, apply_rule g rule) new_graph h') h2 rules in
    (h3, new_graph).

End Cwm.

Definition apply_basic_library_rules (graph : Graph) : Graph :=
  let graph := author_wrote graph in
  let graph := related_books graph in
  graph.

Section Advanced.
Variable literal_bool : string → option string → option LangTag → bool.

Definition author_genres (graph : Graph) : list (Term * list Term) :=
  foldl (λ d book,
           let author := next_or_None (objects (Some book) EX_hasAuthor graph) in
           let genre := next_or_None (objects (Some book) EX_hasGenre graph) in
           match author, genre with
           | Some a, Some ge =>
               if truthy literal_bool a && truthy literal_bool ge
               then dict_set_add a ge d else d
           | _, _ => d
           end)
        [] (subjects RDF_type (Some EX_Book) graph).

Definition author_expertise (graph : Graph) : Graph :=
  foldl (λ g '(author, genres),
           foldl (λ g genre, add (author, EX_hasExpertise, genre) g) g genres)
        graph (author_genres graph).

Definition recommend_by_preference (graph : Graph) : Graph :=
  foldl (λ g user,
           match next_or_None (objects (Some user) EX_prefersGenre g) with
           | Some preferred_genre =>
               if truthy literal_bool preferred_genre
               then foldl (λ g book, add (book, EX_recommendedFor, user) g)
                          g (subjects EX_hasGenre (Some preferred_genre) g)
               else g
           | None => g
           end)
        graph (subjects RDF_type (Some EX_User) graph).

Definition apply_advanced_library_rules (graph : Graph) : Graph :=
  let graph := apply_basic_library_rules graph in
  let graph := author_expertise graph in
  let graph := recommend_by_preference graph in
  graph.

End Advanced.

Fixpoint custom_rules_loop (rules : list string) (graph : Graph) : Graph * outcome :=
  match rules with
  | [] => (graph, Returned)
  | rule :: rest =>
      if Py.contains "=>" rule then
        match Py.split rule "=>" with
        | [condition; action] =>
            let condition := Py.strip condition in
            let action := Py.strip action in
            if Py.contains "hasAuthor" condition && Py.contains "wrote" action
            then custom_rules_loop rest (author_wrote graph)
            else custom_rules_loop rest graph
        | _ => (graph, Raised_ValueError)
        end
      else custom_rules_loop rest graph
  end.

Definition apply_custom_rules (graph : Graph) (rules_text : string) : Graph * outcome :=
  if bool_decide (rules_text = EmptyString) then (graph, Returned)
  else custom_rules_loop (Py.nonblank_lines rules_text) graph.

Section RunQuery.
Variable literal_bool : string → option string → option LangTag → bool.
Variable query : Graph → string → option Result.
Variable graph_iter : Graph → list Triple.

(** The rule stage of [run_query], on a store of graph objects: the tier
    that [rule_set] names works on the object [graph] that the parser
    returned, then the CWM rules, when there are any, on what the tier
    returned.  [None] is the [ValueError] of the textual tier, which
    [run_query] catches and reports; the fixed tiers raise nothing and the
    CWM tier catches what its lines raise. *)
Definition run_query_rules (h : gmap nat Graph) (graph : nat)
    (rule_set custom_rules cwm_rules : string) : gmap nat Graph * option nat :=
  let '(h, raised) :=
    if bool_decide (rule_set = "basic")
    then (alter apply_basic_library_rules graph h, Returned)
    else if bool_decide (rule_set = "advanced")
    then (alter (apply_advanced_library_rules literal_bool) graph h, Returned)
    else if bool_decide (rule_set = "custom")
    then let '(G', raised) := apply_custom_rules (default [] (h !! graph)) custom_rules in
         (<[graph := G']> h, raised)
    else (h, Returned) in
  match raised with
  | Raised_ValueError => (h, None)
  | Returned =>
      if bool_decide (cwm_rules = EmptyString) then (h, Some graph)
      else let '(h, graph) := apply_cwm_rules query graph_iter h graph cwm_rules in
           (h, Some graph)
  end.

End RunQuery.

End Testapp1.

(** ** updatedapp.py *)

Module Updatedapp.

(** The SELECT branch of [run_query]: [str(binding.get(var, 'N/A'))] for the
    headers. *)
Definition select_rows (result : SelectResult) : list (list string) :=
  let headers := vars result in
  (λ binding, (λ var, str (row_get binding var (PyStr "N/A"))) <$> headers)
    <$> result_rows result.

(** [Namespace("http://example.org/inference#").indirectKnows] *)
Definition indirectKnows : Term := ns "http://example.org/inference#" "indirectKnows".

(** [str(p).endswith('knows')] *)
Definition is_knows (p : Term) : bool := Py.endswith (term_str p) "knows".

(** The inner loop for one triple [(s, p, o)]: over the triples of subject
    [o] in the graph as it is.  A triple added meanwhile has the predicate
    [indirectKnows], which the test rejects, so it makes no difference
    whether the view shows it. *)
Definition knows_of (s o : Term) (graph : Graph) : Graph :=
  foldl (λ g '(_, p2, z),
           if is_knows p2 then add (s, indirectKnows, z) g else g)
        graph (triples (Some o) None None graph).

(** [apply_custom_rules] of [updatedapp.py]; [rules] is [None] when the form
    has no such field.  The body cannot raise, so the graph is returned. *)
Section Rules.
(** [for s, p, o in list(graph)]: the triples in the order of the store,
    as they are when the loop begins. *)
Variable graph_iter : Graph → list Triple.

Definition apply_custom_rules (graph : Graph) (rules : option string) : Graph :=
  match rules with
  | None => graph
  | Some text =>
      if bool_decide (text = EmptyString) || bool_decide (Py.strip text = EmptyString)
      then graph
      else foldl (λ g '(s, p, o), if is_knows p then knows_of s o g else g)
                 graph (graph_iter graph)
  end.

End Rules.

End Updatedapp.

(** * Vocabulary of the properties *)

(** ** Counting and comparing *)

(** The number of copies of a triple a graph holds. *)
Definition count (t : Triple) (g : Graph) : nat := length (filter (λ x, x = t) g).

(** Two graphs hold the same triples. *)
Definition same_triples (g1 g2 : Graph) : Prop := ∀ t, t ∈ g1 ↔ t ∈ g2.

(** The classification triple of a member. *)
Definition frequent (member : Term) : Triple := (member, RDF_type, EX_FrequentBorrower).

(** ** Source relations and derivations

    The fixed rules read the graph through the relations below and never
    write one of them, so a rule sees the same pairs whatever has been
    derived before it. *)

Definition source_predicates : list Term :=
  [EX_hasAuthor; EX_hasGenre; EX_borrowedBy; EX_prefersGenre].

Definition source_classes : list Term := [EX_Book; EX_Loan; EX_User].

Definition is_source (t : Triple) : Prop :=
  predicate_of t ∈ source_predicates
  ∨ (predicate_of t = RDF_type ∧ object_of t ∈ source_classes).

#[global] Instance is_source_dec t : Decision (is_source t).
Proof. unfold is_source. apply _. Defined.

Definition sources (g : Graph) : Graph := filter is_source g.

(** A pattern that only selects source triples. *)
Definition source_pattern (p : Term) (o : option Term) : Prop :=
  p ∈ source_predicates ∨ (p = RDF_type ∧ ∃ c, o = Some c ∧ c ∈ source_classes).

(** A derivation computes the triples a rule adds.  It depends on the
    source relations only and yields no source triple. *)
Record Derivation (d : Graph → list Triple) : Prop := {
  derive_sources : ∀ g1 g2, sources g1 = sources g2 → d g1 = d g2;
  derive_fresh : ∀ g t, t ∈ d g → ¬ is_source t
}.

(** A rule as one step: add what the derivation gives on the graph as it is;
    a pipeline runs its steps in order, each on the output of the one
    before. *)
Definition step_of (d : Graph → list Triple) (g : Graph) : Graph := add_all (d g) g.

Definition run (ds : list (Graph → list Triple)) (g : Graph) : Graph :=
  foldl (λ g d, step_of d g) g ds.

(** Every triple of the derivation has predicate [p]. *)
Definition predicate_is (p : Term) (d : Graph → list Triple) : Prop :=
  ∀ g t, t ∈ d g → predicate_of t = p.

(** The [wrote] triples of a derivation are inversions of [hasAuthor]
    triples, and a derivation that gives all of them. *)
Definition wrote_sound (d : Graph → list Triple) : Prop :=
  ∀ g t, t ∈ d g → predicate_of t = EX_wrote →
    ∃ book author, (book, EX_hasAuthor, author) ∈ g ∧ t = (author, EX_wrote, book).

Definition wrote_complete (d : Graph → list Triple) : Prop :=
  ∀ g book author, (book, EX_hasAuthor, author) ∈ g → (author, EX_wrote, book) ∈ d g.

(** A derivation that gives no [rdf:type] triple. *)
Definition type_free (d : Graph → list Triple) : Prop :=
  ∀ g t, t ∈ d g → predicate_of t ≠ RDF_type.

(** ** Dictionaries built by [dict_append] *)

Section GroupingDefs.
Context {V : Type} `{EqDecision V}.

(** [d.get(k)] *)
Fixpoint dict_get (k : Term) (d : list (Term * list V)) : option (list V) :=
  match d with
  | [] => None
  | (k', vs) :: d' => if decide (k = k') then Some vs else dict_get k d'
  end.

(** The dictionary a loop of [dict_append] builds from (value, key) pairs. *)
Definition group (pairs : list (V * Term)) : list (Term * list V) :=
  foldl (λ d vk, dict_append vk.2 vk.1 d) [] pairs.

(** The values paired with [k], in order. *)
Definition values_of (k : Term) (pairs : list (V * Term)) : list V :=
  fst <$> filter (λ vk, vk.2 = k) pairs.

End GroupingDefs.

(** ** The triples each fixed rule adds *)

(** The author inversion of [testapp1.py] and of the textual tier. *)
Definition derive_wrote (g : Graph) : list Triple :=
  (λ ba, (ba.2, EX_wrote, ba.1)) <$> subject_objects EX_hasAuthor g.

(** Rule 1 of [testapp.py]. *)
Definition derive_author (g : Graph) : list Triple :=
  subject_objects EX_hasAuthor g ≫= λ ba,
    [(ba.2, EX_wrote, ba.1); (ba.1, EX_writtenBy, ba.2)].

(** Rule 2, genre co-membership. *)
Definition derive_related (g : Graph) : list Triple :=
  genre_books g ≫= λ gb, gb.2 ≫= λ book1, gb.2 ≫= λ book2,
    if decide (book1 ≠ book2) then [(book1, EX_relatedTo, book2)] else [].

(** Rule 3 of [testapp.py]. *)
Definition derive_frequent (g : Graph) : list Triple :=
  Testapp.borrower_loans g ≫= λ ml,
    if decide (1 < length ml.2) then [(ml.1, RDF_type, EX_FrequentBorrower)] else [].

(** The books of a genre, recommended for a target. *)
Definition recommend_for (target : Term) (genre : option Term) (g : Graph) : list Triple :=
  (λ book, (book, EX_recommendedFor, target)) <$> subjects EX_hasGenre genre g.

Section TestappPipelines.
Variable literal_bool : string → option string → option LangTag → bool.

Definition derive_expertise (g : Graph) : list Triple :=
  Testapp.author_genres literal_bool g ≫= λ ag,
    (λ genre, (ag.1, EX_hasExpertise, genre)) <$> ag.2.

Definition derive_recommend (g : Graph) : list Triple :=
  Testapp.member_genres literal_bool g ≫= λ mg,
    mg.2 ≫= λ genre, recommend_for mg.1 genre g.

Definition testapp_basic_pipeline : list (Graph → list Triple) :=
  [derive_author; derive_related; derive_frequent].

Definition testapp_advanced_pipeline : list (Graph → list Triple) :=
  testapp_basic_pipeline ++ [derive_expertise; derive_recommend].

End TestappPipelines.

Section Testapp1Pipelines.
Variable literal_bool : string → option string → option LangTag → bool.

Definition prefer_for (user : Term) (g : Graph) : list Triple :=
  match next_or_None (objects (Some user) EX_prefersGenre g) with
  | Some preferred_genre =>
      if truthy literal_bool preferred_genre
      then recommend_for user (Some preferred_genre) g
      else []
  | None => []
  end.

Definition derive_prefer (g : Graph) : list Triple :=
  subjects RDF_type (Some EX_User) g ≫= λ user, prefer_for user g.

Definition testapp1_basic_pipeline : list (Graph → list Triple) :=
  [derive_wrote; derive_related].

Definition testapp1_advanced_pipeline : list (Graph → list Triple) :=
  testapp1_basic_pipeline ++ [derive_expertise literal_bool; derive_prefer].

End Testapp1Pipelines.

(** The four fixed tiers: the function of the source and its pipeline. *)
Inductive Tier : Type :=
  | Testapp_basic
  | Testapp_advanced
  | Testapp1_basic
  | Testapp1_advanced.

Section TierTable.
Variable literal_bool : string → option string → option LangTag → bool.

Definition tier_apply (tier : Tier) : Graph → Graph :=
  match tier with
  | Testapp_basic => Testapp.apply_basic_library_rules
  | Testapp_advanced => Testapp.apply_advanced_library_rules literal_bool
  | Testapp1_basic => Testapp1.apply_basic_library_rules
  | Testapp1_advanced => Testapp1.apply_advanced_library_rules literal_bool
  end.

Definition tier_pipeline (tier : Tier) : list (Graph → list Triple) :=
  match tier with
  | Testapp_basic => testapp_basic_pipeline
  | Testapp_advanced => testapp_advanced_pipeline literal_bool
  | Testapp1_basic => testapp1_basic_pipeline
  | Testapp1_advanced => testapp1_advanced_pipeline literal_bool
  end.

End TierTable.

(** ** Lines of the textual tier *)

Fixpoint all_space (s : string) : bool :=
  match s with
  | EmptyString => true
  | String c s' => Py.isspace c && all_space s'
  end.

(** [testapp.py]: a line of the shape [IF ... THEN ...]. *)
Definition testapp_recognized (rule : string) : bool :=
  Py.startswith rule "IF" && Py.contains "THEN" rule.

(** A line of that shape whose unpacking into condition and conclusion
    raises. *)
Definition testapp_malformed (rule : string) : bool :=
  testapp_recognized rule && negb (bool_decide (length (Py.split rule "THEN") = 2)).

(** A line that triggers the author inversion. *)
Definition testapp_fires (rule : string) : bool :=
  testapp_recognized rule
  && match Py.split rule "THEN" with
     | [condition; conclusion] =>
         Py.contains "hasAuthor" (Py.strip (Py.drop_chars 2 condition))
         && Py.contains "wrote" (Py.strip conclusion)
     | _ => false
     end.

(** [testapp1.py]: a line with [=>]. *)
Definition testapp1_recognized (rule : string) : bool := Py.contains "=>" rule.

Definition testapp1_malformed (rule : string) : bool :=
  testapp1_recognized rule && negb (bool_decide (length (Py.split rule "=>") = 2)).

Definition testapp1_fires (rule : string) : bool :=
  testapp1_recognized rule
  && match Py.split rule "=>" with
     | [condition; action] =>
         Py.contains "hasAuthor" (Py.strip condition)
         && Py.contains "wrote" (Py.strip action)
     | _ => false
     end.

(** ** Lines of the CWM tier *)

(** An order of iteration of the store: the triples of the graph, each
    once. *)
Definition store_order (graph_iter : Graph → list Triple) : Prop :=
  ∀ g, graph_iter g ≡ₚ g.

(** A result whose rows were all computed at the call. *)
Fixpoint rows_of (rows : list ResultRow) : Result :=
  match rows with
  | [] => Result_stop
  | row :: rest => Result_yield row (λ _, rows_of rest)
  end.

Section CwmVocabulary.
Variable query : Graph → string → option Result.

(** The loop over the rule lines, on the contents of the new graph. *)
Definition cwm_loop (g : Graph) (rules : list string) : Graph :=
  foldl (Testapp1.apply_rule query) g rules.

(** A rule line whose processing raises before the first [add]: the parser
    raises (no or several [=>], a clause that is not three tokens), a
    variable has an empty name, the engine raises on the query (a syntax
    error, a prefix it cannot resolve), or the iteration raises when the
    first row is asked for. *)
Definition raises (g : Graph) (rule : string) : Prop :=
  match Testapp1.parse_cwm_rule rule with
  | None => True
  | Some (antecedent, _) =>
      match Testapp1.build_query antecedent [] [] with
      | None => True
      | Some (_, query_parts) =>
          match query g (Testapp1.query_str query_parts) with
          | None | Some Result_raise => True
          | Some _ => False
          end
      end
  end.

End CwmVocabulary.

(** The rows that the loop of the CWM tier gets from a result, from the
    graph [g] on: each row is asked for on the graph that the rows before it
    have left.  The loop ends with the iteration, or with the first row
    that has no value for a variable of the map. *)
Fixpoint pulled (var_map : list (string * string)) (consequent : list Testapp1.Clause)
    (results : Result) (g : Graph) : list ResultRow :=
  match results with
  | Result_stop => []
  | Result_raise => []
  | Result_yield row rest =>
      row :: match Testapp1.make_bindings var_map row with
             | Some bindings =>
                 pulled var_map consequent
                        (rest (Testapp1.apply_consequent bindings consequent g))
                        (Testapp1.apply_consequent bindings consequent g)
             | None => []
             end
  end.

(** ** SELECT rows *)

(** What the SELECT branch renders for a variable of the header. *)
Definition rendered (values : Solution) (var : string) : string :=
  match solution_get values var with
  | Some t => term_str t
  | None => "None"
  end.

(** ** Vocabulary of the further properties *)

(** A derivation that gives no triple of predicate [p]. *)
Definition never_predicate (p : Term) (d : Graph → list Triple) : Prop :=
  ∀ g t, t ∈ d g → predicate_of t ≠ p.

Definition is_advanced (tier : Tier) : bool :=
  match tier with
  | Testapp_advanced | Testapp1_advanced => true
  | Testapp_basic | Testapp1_basic => false
  end.

(** Two books that share a genre. *)
Definition share_genre (g : Graph) (book1 book2 : Term) : Prop :=
  ∃ genre, (book1, EX_hasGenre, genre) ∈ g ∧ (book2, EX_hasGenre, genre) ∈ g.

(** A dictionary of sets holds [v] under [k]. *)
Definition dict_has {V : Type} (d : list (Term * list V)) (k : Term) (v : V) : Prop :=
  ∃ vs, (k, vs) ∈ d ∧ v ∈ vs.

(** A loop that puts at most one pair per item into a dictionary of sets. *)
Definition collect {X V : Type} `{EqDecision V} (f : X → option (Term * V))
    (d : list (Term * list V)) (l : list X) : list (Term * list V) :=
  foldl (λ d x, match f x with
                | Some (k, v) => dict_set_add k v d
                | None => d
                end) d l.

Section FirstChoices.
Variable literal_bool : string → option string → option LangTag → bool.

(** What rule 1 of the advanced tier takes from a book: its first author
    and its first genre, when both are true values. *)
Definition first_author_genre (g : Graph) (book : Term) : option (Term * Term) :=
  match next_or_None (objects (Some book) EX_hasAuthor g),
        next_or_None (objects (Some book) EX_hasGenre g) with
  | Some a, Some ge =>
      if truthy literal_bool a && truthy literal_bool ge then Some (a, ge) else None
  | _, _ => None
  end.

(** What rule 2 of [testapp.py] takes from a loan: its first borrower, with
    the first genre found in the whole graph. *)
Definition first_borrower_genre (g : Graph) (loan : Term) : option (Term * option Term) :=
  match next_or_None (objects (Some loan) EX_borrowedBy g) with
  | Some member =>
      if truthy literal_bool member
      then Some (member, next_or_None (objects None EX_hasGenre g))
      else None
  | None => None
  end.

End FirstChoices.

(** A triple whose predicate ends in [knows], the links [updatedapp.py]
    composes. *)
Definition knows_triple (t : Triple) : Prop :=
  Updatedapp.is_knows (predicate_of t) = true.

(** What the inner loop of [updatedapp.py] adds for [s] and [o], and what
    the body of the outer loop adds for a triple. *)
Definition knows_links (s o : Term) (g : Graph) : list Triple :=
  (λ t, (s, Updatedapp.indirectKnows, object_of t))
    <$> filter knows_triple (triples (Some o) None None g).

Definition indirect_of (x : Triple) (g : Graph) : list Triple :=
  if Updatedapp.is_knows (predicate_of x)
  then knows_links (subject_of x) (object_of x) g
  else [].

(** A rules text that [updatedapp.py] takes as given: not missing, not
    blank. *)
Definition given (rules : option string) : bool :=
  match rules with
  | None => false
  | Some text =>
      negb (bool_decide (text = EmptyString) || bool_decide (Py.strip text = EmptyString))
  end.

(** The tokens of a list of clauses. *)
Definition clause_tokens (clauses : list Testapp1.Clause) : list string :=
  clauses ≫= λ c, [c.1.1; c.1.2; c.2].

(** The variable tokens among them. *)
Definition variable_tokens (clauses : list Testapp1.Clause) : list string :=
  filter (λ tok, Testapp1.is_var tok = true) (clause_tokens clauses).

(** The name of the [Variable] that the CWM tier makes for a token. *)
Definition variable_name (tok : string) : string :=
  default EmptyString (Testapp1.Variable_new (Py.drop_chars 1 tok)).

(** The triple pattern that the CWM tier writes for a clause. *)
Definition pattern (c : Testapp1.Clause) : string :=
  let '(s, p, o) := c in
  s +:+ " "
    +:+ (if Testapp1.is_var p then "??" +:+ variable_name p
         else if Testapp1.has_scheme p then p else "ex:" +:+ p)
    +:+ " " +:+ o.

(** The keys of a variable map are variable tokens other than a bare
    question mark, each once and with its name. *)
Definition var_map_ok (var_map : list (string * string)) : Prop :=
  NoDup var_map.*1
  ∧ ∀ k v, (k, v) ∈ var_map →
           Testapp1.is_var k = true ∧ k ≠ "?" ∧ v = variable_name k.

(** The term that a row gives for a token of a consequent clause, and the
    instance of the clause. *)
Definition term_of (antecedent : list Testapp1.Clause) (row : ResultRow) (tok : string)
    : option Term :=
  if Testapp1.is_var tok then
    if bool_decide (tok ∈ clause_tokens antecedent)
    then row_getitem row (variable_name tok) ≫= id
    else None
  else Some (URIRef (EX +:+ tok)).

Definition instance_of (antecedent : list Testapp1.Clause) (row : ResultRow)
    (c : Testapp1.Clause) : option Triple :=
  s ← term_of antecedent row c.1.1;
  p ← term_of antecedent row c.1.2;
  o ← term_of antecedent row c.2;
  Some (s, p, o).

(** ** Rule texts *)

Fixpoint all_chars (P : char → bool) (s : string) : bool :=
  match s with
  | EmptyString => true
  | String c s' => P c && all_chars P s'
  end.

Definition nonspace (c : char) : bool := negb (Py.isspace c).

Definition not_char (x c : char) : bool := negb (bool_decide (x = c)).

(** The tokens that a rule text can carry: not empty, without white space
    and without a dot. *)
Definition token_shape (tok : string) : bool :=
  negb (bool_decide (tok = EmptyString))
  && all_chars (λ c, nonspace c && not_char "." c) tok.

(** Tokens of that shape that have no equals sign either. *)
Definition plain_token (tok : string) : bool :=
  token_shape tok && all_chars (not_char "=") tok.

(** A rule written out: the tokens of a clause separated by a space, the
    clauses by a dot between spaces, the two sides by the arrow between
    spaces. *)
Definition render_clause (c : Testapp1.Clause) : string :=
  c.1.1 +:+ " " +:+ c.1.2 +:+ " " +:+ c.2.

Definition render_side (clauses : list Testapp1.Clause) : string :=
  Py.join " . " (render_clause <$> clauses).

Definition render_rule (antecedent consequent : list Testapp1.Clause) : string :=
  render_side antecedent +:+ " => " +:+ render_side consequent.

(** ** Worked inputs *)

Definition ex (name : string) : Term := ns EX name.

(** The graph of scenario 1 of the specification. *)
Definition scenario1 : Graph :=
  [ (ex "Book1", EX_hasAuthor, ex "Alice");
    (ex "Book2", EX_hasAuthor, ex "Alice");
    (ex "Book1", EX_hasGenre, ex "SciFi");
    (ex "Book2", EX_hasGenre, ex "SciFi");
    (ex "Loan1", EX_borrowedBy, ex "Bob");
    (ex "Loan2", EX_borrowedBy, ex "Bob") ].

(** Ann knows Ben, Ben knows Cid. *)
Definition knows_chain : Graph :=
  [ (ex "Ann", ex "knows", ex "Ben"); (ex "Ben", ex "knows", ex "Cid") ].

(** A store with that graph as its one object. *)
Definition heap1 : gmap nat Graph := {[ 0 := scenario1 ]}.

(** A textual batch: a line that triggers the inversion, then a line with
    two [THEN]. *)
Definition rules_hasAuthor_then_bad : string :=
  "IF x hasAuthor y THEN y wrote x" +:+ Py.newline +:+ "IF a THEN b THEN c".

(** A CWM batch: a line without [=>], then a valid rule. *)
Definition rules_bad_then_good : string :=
  "?x hasAuthor ?y ?y wrote ?x" +:+ Py.newline +:+ "?x hasAuthor ?y => ?y wrote ?x".

(** An engine that answers the one query of the worked example,
    [SELECT * WHERE { ?x ex:hasAuthor ?y }], and raises on any other. *)
Definition hasAuthor_engine (g : Graph) (text : string) : option Result :=
  if decide (text = Testapp1.query_str ["?x ex:hasAuthor ?y"])
  then Some (rows_of ((λ ba, ResultRow_new [("x", ba.1); ("y", ba.2)] ["x"; "y"])
                        <$> subject_objects EX_hasAuthor g))
  else None.

(** The no-break space U+00A0 and the line separator U+2028. *)
Definition nbsp : string := String (Char 160) EmptyString.
Definition line_separator : string := String (Char 8232) EmptyString.

(** A textual batch whose first line begins with a no-break space. *)
Definition rules_nbsp_then_bad : string :=
  nbsp +:+ "IF x hasAuthor y THEN y wrote x" +:+ Py.newline +:+ "IF a THEN b THEN c".

(** Two books whose genres differ in the case of the language tag only, and
    two loans whose borrowers do. *)
Definition tagged : Graph :=
  [ (ex "B1", EX_hasGenre, Literal "SciFi" None (language "en"));
    (ex "B2", EX_hasGenre, Literal "SciFi" None (language "EN"));
    (ex "L1", EX_borrowedBy, Literal "Bob" None (language "en"));
    (ex "L2", EX_borrowedBy, Literal "Bob" None (language "EN")) ].

(** Ann knows Ben, Ben knows Cid, Cid knows Dan. *)
Definition knows_chain4 : Graph :=
  [ (ex "Ann", ex "knows", ex "Ben"); (ex "Ben", ex "knows", ex "Cid");
    (ex "Cid", ex "knows", ex "Dan") ].

(** The rows of [SELECT * WHERE { ?x ex:knows ?y . ?y ex:knows ?z }] on a
    graph. *)
Definition knows_rows (g : Graph) : list ResultRow :=
  xy ← subject_objects (ex "knows") g;
  z ← objects (Some xy.2) (ex "knows") g;
  [ResultRow_new [("x", xy.1); ("y", xy.2); ("z", z)] ["x"; "y"; "z"]].

(** A result that is computed while it is read: the next row is the first
    row for the graph as it is then that was not given before. *)
Fixpoint live (fuel : nat) (rows : Graph → list ResultRow) (seen : list ResultRow)
    (g : Graph) : Result :=
  match fuel with
  | O => Result_stop
  | S k =>
      match find (λ r, bool_decide (r ∉ seen)) (rows g) with
      | Some r => Result_yield r (live k rows (seen ++ [r]))
      | None => Result_stop
      end
  end.

(** An engine that answers that query while its result is read, and raises
    on any other. *)
Definition knows_engine (g : Graph) (text : string) : option Result :=
  if decide (text = Testapp1.query_str ["?x ex:knows ?y"; "?y ex:knows ?z"])
  then Some (live 16 knows_rows [] g)
  else None.

(** A SELECT result over [b] and [a] whose two solutions each leave one
    variable unbound. *)
Definition select_example : SelectResult :=
  {| vars := ["b"; "a"];
     solutions := [[("b", ex "Book1")]; [("a", Literal "Ann" None None)]] |}.

(** * Properties *)

(** ** The worked example *)

(** Scenario 1 of the specification on the two basic tiers: [testapp.py]
    adds the inversions with their [writtenBy] twins, the two [relatedTo]
    triples and the classification of Bob; [testapp1.py] adds the inversions
    and the [relatedTo] triples. *)
Example scenario1_testapp :
  Testapp.apply_basic_library_rules scenario1
  = scenario1 ++ [ (ex "Alice", EX_wrote, ex "Book1");
                   (ex "Book1", EX_writtenBy, ex "Alice");
                   (ex "Alice", EX_wrote, ex "Book2");
                   (ex "Book2", EX_writtenBy, ex "Alice");
                   (ex "Book1", EX_relatedTo, ex "Book2");
                   (ex "Book2", EX_relatedTo, ex "Book1");
                   (ex "Bob", RDF_type, EX_FrequentBorrower) ].
Proof. vm_compute. reflexivity. Qed.

Example scenario1_testapp1 :
  Testapp1.apply_basic_library_rules scenario1
  = scenario1 ++ [ (ex "Alice", EX_wrote, ex "Book1");
                   (ex "Alice", EX_wrote, ex "Book2");
                   (ex "Book1", EX_relatedTo, ex "Book2");
                   (ex "Book2", EX_relatedTo, ex "Book1") ].
Proof. vm_compute. reflexivity. Qed.

(** ** Graphs as sets in insertion order *)

Lemma elem_of_add (x t : Triple) (g : Graph) : x ∈ add t g ↔ x = t ∨ x ∈ g.
Proof.
  unfold add. destruct (decide (t ∈ g)) as [Hin|Hin].
  - split; [by right | by intros [->|?]].
  - rewrite elem_of_app, list_elem_of_singleton. tauto.
Qed.

Lemma add_present (t : Triple) (g : Graph) : t ∈ g → add t g = g.
Proof. intros Hin. unfold add. by rewrite decide_True. Qed.

Lemma NoDup_add (t : Triple) (g : Graph) : NoDup g → NoDup (add t g).
Proof.
  intros Hg. unfold add. destruct (decide (t ∈ g)) as [Hin|Hin]; [done|].
  apply NoDup_app. split_and!; [done| |apply NoDup_singleton].
  intros x Hx ->%list_elem_of_singleton. done.
Qed.

Lemma add_all_nil (g : Graph) : add_all [] g = g.
Proof. done. Qed.

Lemma add_all_cons (t : Triple) (ts : list Triple) (g : Graph) :
  add_all (t :: ts) g = add_all ts (add t g).
Proof. done. Qed.

Lemma add_all_app (ts1 ts2 : list Triple) (g : Graph) :
  add_all (ts1 ++ ts2) g = add_all ts2 (add_all ts1 g).
Proof. unfold add_all. apply foldl_app. Qed.

Lemma elem_of_add_all (x : Triple) (ts : list Triple) (g : Graph) :
  x ∈ add_all ts g ↔ x ∈ ts ∨ x ∈ g.
Proof.
  revert g. induction ts as [|t ts IH]; intros g.
  - rewrite add_all_nil, elem_of_nil. tauto.
  - rewrite add_all_cons, IH, elem_of_add, elem_of_cons. tauto.
Qed.

Lemma add_all_present (ts : list Triple) (g : Graph) :
  (∀ t, t ∈ ts → t ∈ g) → add_all ts g = g.
Proof.
  induction ts as [|t ts IH]; intros Hall; [done|].
  rewrite add_all_cons, add_present by (apply Hall; left).
  apply IH. intros x Hx. apply Hall. by right.
Qed.

Lemma NoDup_add_all (ts : list Triple) (g : Graph) : NoDup g → NoDup (add_all ts g).
Proof.
  revert g. induction ts as [|t ts IH]; intros g Hg; [done|].
  rewrite add_all_cons. by apply IH, NoDup_add.
Qed.

Lemma count_NoDup (t : Triple) (g : Graph) : NoDup g → t ∈ g → count t g = 1.
Proof.
  unfold count. induction g as [|x g IH]; intros Hnd Hin.
  - by apply elem_of_nil in Hin.
  - apply NoDup_cons in Hnd as [Hx Hnd]. rewrite filter_cons.
    destruct (decide (x = t)) as [->|Hne].
    + simpl. f_equal. apply length_zero_iff_nil.
      apply elem_of_nil_inv. intros y [-> Hy]%list_elem_of_filter. done.
    + apply elem_of_cons in Hin as [->|Hin]; [done|]. by apply IH.
Qed.

Lemma count_absent (t : Triple) (g : Graph) : t ∉ g → count t g = 0.
Proof.
  intros Hnin. unfold count. apply length_zero_iff_nil.
  apply elem_of_nil_inv. intros y [-> Hy]%list_elem_of_filter. done.
Qed.

Lemma foldl_fun_ext {A B} (f f' : A → B → A) (l : list B) (a : A) :
  (∀ a x, f a x = f' a x) → foldl f a l = foldl f' a l.
Proof.
  intros Hext. revert a. induction l as [|x l IH]; intros a; simpl; [done|].
  by rewrite Hext, IH.
Qed.

Lemma foldl_add_all {A} (f : A → list Triple) (l : list A) (g : Graph) :
  foldl (λ g x, add_all (f x) g) g l = add_all (l ≫= f) g.
Proof.
  revert g. induction l as [|x l IH]; intros g; simpl; [done|].
  by rewrite IH, add_all_app.
Qed.

(** ** Source relations and derived relations *)

Lemma sources_add (t : Triple) (g : Graph) : ¬ is_source t → sources (add t g) = sources g.
Proof.
  intros Ht. unfold sources, add. destruct (decide (t ∈ g)); [done|].
  rewrite filter_app, filter_cons_False, filter_nil by done. apply app_nil_r.
Qed.

Lemma sources_add_all (ts : list Triple) (g : Graph) :
  (∀ t, t ∈ ts → ¬ is_source t) → sources (add_all ts g) = sources g.
Proof.
  revert g. induction ts as [|t ts IH]; intros g Hts; [done|].
  rewrite add_all_cons, IH, sources_add; [done| |].
  - apply Hts. left.
  - intros x Hx. apply Hts. by right.
Qed.

Lemma triples_sources (s : option Term) (p : Term) (o : option Term) (g : Graph) :
  source_pattern p o → triples s (Some p) o (sources g) = triples s (Some p) o g.
Proof.
  intros Hpat. unfold triples, sources. apply list_filter_filter_l.
  intros [[ts tp] t_o] (_ & Hp & Ho).
  unfold is_source, pos_matches, predicate_of, object_of in *. simpl in *. subst tp.
  destruct Hpat as [Hp|[-> (c & -> & Hc)]]; [by left|].
  right. by subst.
Qed.

Lemma triples_same_sources (s : option Term) (p : Term) (o : option Term) (g1 g2 : Graph) :
  source_pattern p o → sources g1 = sources g2 →
  triples s (Some p) o g1 = triples s (Some p) o g2.
Proof.
  intros Hpat Heq.
  by rewrite <- (triples_sources s p o g1), <- (triples_sources s p o g2), Heq.
Qed.

Lemma sources_step d g : Derivation d → sources (step_of d g) = sources g.
Proof. intros Hd. apply sources_add_all. apply (derive_fresh d Hd). Qed.

Lemma sources_run ds g : Forall Derivation ds → sources (run ds g) = sources g.
Proof.
  intros Hds. revert g. induction Hds as [|d ds Hd Hds IH]; intros g; [done|].
  simpl. change (sources (run ds (step_of d g)) = sources g).
  by rewrite IH, sources_step.
Qed.

Lemma elem_of_step d g t : t ∈ step_of d g ↔ t ∈ d g ∨ t ∈ g.
Proof. apply elem_of_add_all. Qed.

Lemma elem_of_run ds g t :
  Forall Derivation ds → t ∈ run ds g ↔ t ∈ g ∨ ∃ d, d ∈ ds ∧ t ∈ d g.
Proof.
  intros Hds. revert g. induction Hds as [|d ds Hd Hds IH]; intros g.
  - simpl. split; [by left|]. intros [?|(d & Hd & _)]; [done|].
    by apply elem_of_nil in Hd.
  - change (run (d :: ds) g) with (run ds (step_of d g)).
    rewrite IH, elem_of_step. split.
    + intros [[Ht|Ht]|(d' & Hd' & Ht)].
      * right. exists d. split; [left|done].
      * by left.
      * right. exists d'. split; [by right|].
        by rewrite <- (derive_sources d' (proj1 (Forall_forall _ _) Hds d' Hd')
                        (step_of d g) g (sources_step d g Hd)).
    + intros [Ht|(d' & Hd' & Ht)]; [by left; right|].
      apply elem_of_cons in Hd' as [->|Hd']; [by left; left|].
      right. exists d'. split; [done|].
      by rewrite (derive_sources d' (proj1 (Forall_forall _ _) Hds d' Hd')
                   (step_of d g) g (sources_step d g Hd)).
Qed.

Lemma NoDup_run ds g : NoDup g → NoDup (run ds g).
Proof.
  revert g. induction ds as [|d ds IH]; intros g Hg; [done|].
  apply IH. by apply NoDup_add_all.
Qed.

Lemma run_stable ds g0 a :
  Forall Derivation ds → sources a = sources g0 →
  (∀ t, t ∈ run ds g0 → t ∈ a) → run ds a = a.
Proof.
  intros Hds. revert g0 a. induction Hds as [|d ds Hd Hds IH]; intros g0 a Hsrc Hincl; [done|].
  change (run (d :: ds) a) with (run ds (step_of d a)).
  change (run (d :: ds) g0) with (run ds (step_of d g0)) in Hincl.
  assert (step_of d a = a) as ->.
  { apply add_all_present. intros t Ht. apply Hincl.
    apply elem_of_run; [done|]. left. apply elem_of_step. left.
    by rewrite <- (derive_sources d Hd a g0 Hsrc). }
  apply (IH (step_of d g0)); [|done].
  by rewrite sources_step.
Qed.

Lemma run_idempotent ds g : Forall Derivation ds → run ds (run ds g) = run ds g.
Proof.
  intros Hds. apply (run_stable ds g); [done| |done]. by apply sources_run.
Qed.

Lemma foldl_add_fmap {A} (h : A → Triple) (l : list A) (g : Graph) :
  foldl (λ g x, add (h x) g) g l = add_all (h <$> l) g.
Proof. revert g. induction l as [|x l IH]; intros g; simpl; [done|]. by rewrite IH. Qed.

Lemma Derivation_bind {A} (l : Graph → list A) (f : A → Graph → list Triple) :
  (∀ g1 g2, sources g1 = sources g2 → l g1 = l g2) →
  (∀ x, Derivation (f x)) →
  Derivation (λ g, l g ≫= λ x, f x g).
Proof.
  intros Hl Hf. split.
  - intros g1 g2 Heq. rewrite (Hl g1 g2 Heq). apply list_bind_ext; [|done].
    intros x. by apply (derive_sources _ (Hf x)).
  - intros g t (x & Ht & _)%list_elem_of_bind. by apply (derive_fresh _ (Hf x)) in Ht.
Qed.

Lemma foldl_add_all_sources {A} (f : A → Graph → list Triple) (l : list A) (g : Graph) :
  (∀ x, Derivation (f x)) →
  foldl (λ g x, add_all (f x g) g) g l = add_all (l ≫= λ x, f x g) g.
Proof.
  intros Hf.
  enough (∀ g0, sources g0 = sources g →
            foldl (λ g x, add_all (f x g) g) g0 l = add_all (l ≫= λ x, f x g) g0) as H
    by (by apply H).
  induction l as [|x l IH]; intros g0 Hsrc; simpl; [done|].
  rewrite add_all_app, (derive_sources _ (Hf x) g0 g Hsrc). apply IH.
  rewrite sources_add_all; [done|]. apply (derive_fresh _ (Hf x)).
Qed.

Lemma elem_of_subject_objects (p s o : Term) (g : Graph) :
  (s, o) ∈ subject_objects p g ↔ (s, p, o) ∈ g.
Proof.
  unfold subject_objects, triples. rewrite list_elem_of_fmap. split.
  - intros ([[s' p'] o'] & [= -> ->] & [(_ & Hp & _) Hin]%list_elem_of_filter).
    simpl in Hp. unfold predicate_of in Hp. simpl in Hp. by subst.
  - intros Hin. exists (s, p, o). split; [done|]. apply list_elem_of_filter.
    split; [|done]. by repeat split.
Qed.

Lemma elem_of_subjects (p : Term) (o : option Term) (s : Term) (g : Graph) :
  s ∈ subjects p o g ↔ ∃ o', pos_matches o o' ∧ (s, p, o') ∈ g.
Proof.
  unfold subjects, triples. rewrite list_elem_of_fmap. split.
  - intros ([[s' p'] o'] & -> & [(_ & Hp & Ho) Hin]%list_elem_of_filter).
    unfold predicate_of, object_of, subject_of in *. simpl in *. subst. by exists o'.
  - intros (o' & Ho & Hin). exists (s, p, o'). split; [done|].
    apply list_elem_of_filter. split; [|done]. by repeat split.
Qed.

Lemma subject_objects_same (p : Term) (g1 g2 : Graph) :
  p ∈ source_predicates → sources g1 = sources g2 →
  subject_objects p g1 = subject_objects p g2.
Proof.
  intros Hp Heq. unfold subject_objects.
  by rewrite (triples_same_sources None p None g1 g2) by (done || by left).
Qed.

Lemma subjects_same (p : Term) (o : option Term) (g1 g2 : Graph) :
  source_pattern p o → sources g1 = sources g2 → subjects p o g1 = subjects p o g2.
Proof.
  intros Hp Heq. unfold subjects. by rewrite (triples_same_sources None p o g1 g2).
Qed.

Lemma objects_same (s : option Term) (p : Term) (g1 g2 : Graph) :
  p ∈ source_predicates → sources g1 = sources g2 → objects s p g1 = objects s p g2.
Proof.
  intros Hp Heq. unfold objects.
  by rewrite (triples_same_sources s p None g1 g2) by (done || by left).
Qed.

Lemma not_source_predicate (s p o : Term) :
  p ∉ source_predicates → p ≠ RDF_type → ¬ is_source (s, p, o).
Proof. intros Hp Hty [?|[? _]]; done. Qed.

Lemma not_source_class (s o : Term) : o ∉ source_classes → ¬ is_source (s, RDF_type, o).
Proof. intros Ho [Hp|[_ ?]]; [|done]. revert Hp. compute_done. Qed.

(** ** The derivations of the fixed tiers *)

Lemma author_wrote_step (g : Graph) : author_wrote g = step_of derive_wrote g.
Proof.
  unfold author_wrote, step_of, derive_wrote. rewrite <- foldl_add_fmap.
  apply foldl_fun_ext. by intros g' [book author].
Qed.

Lemma related_books_step (g : Graph) : related_books g = step_of derive_related g.
Proof.
  unfold related_books, step_of, derive_related.
  rewrite <- foldl_add_all. apply foldl_fun_ext. intros g1 [genre books]. simpl.
  rewrite <- foldl_add_all. apply foldl_fun_ext. intros g2 book1.
  rewrite <- foldl_add_all. apply foldl_fun_ext. intros g3 book2.
  by destruct (decide (book1 ≠ book2)).
Qed.

Lemma elem_of_derive_wrote (t : Triple) (g : Graph) :
  t ∈ derive_wrote g ↔
  ∃ book author, (book, EX_hasAuthor, author) ∈ g ∧ t = (author, EX_wrote, book).
Proof.
  unfold derive_wrote. rewrite list_elem_of_fmap. split.
  - intros ([book author] & -> & Hin%elem_of_subject_objects). by exists book, author.
  - intros (book & author & Hin & ->). exists (book, author).
    split; [done|]. by apply elem_of_subject_objects.
Qed.

Lemma derive_related_shape (t : Triple) (g : Graph) :
  t ∈ derive_related g → ∃ b1 b2, t = (b1, EX_relatedTo, b2).
Proof.
  unfold derive_related.
  intros (gb & (b1 & (b2 & Ht & _)%list_elem_of_bind & _)%list_elem_of_bind & _)%list_elem_of_bind.
  destruct (decide (b1 ≠ b2)); [|by apply elem_of_nil in Ht].
  apply list_elem_of_singleton in Ht. by exists b1, b2.
Qed.

Lemma genre_books_same (g1 g2 : Graph) :
  sources g1 = sources g2 → genre_books g1 = genre_books g2.
Proof.
  intros Heq. unfold genre_books.
  by rewrite (subject_objects_same EX_hasGenre g1 g2) by (done || compute_done).
Qed.

Lemma Derivation_wrote : Derivation derive_wrote.
Proof.
  split.
  - intros g1 g2 Heq. unfold derive_wrote.
    by rewrite (subject_objects_same EX_hasAuthor g1 g2) by (done || compute_done).
  - intros g t (book & author & _ & ->)%elem_of_derive_wrote.
    apply not_source_predicate; compute_done.
Qed.

Lemma Derivation_related : Derivation derive_related.
Proof.
  split.
  - intros g1 g2 Heq. unfold derive_related. by rewrite (genre_books_same g1 g2).
  - intros g t (b1 & b2 & ->)%derive_related_shape.
    apply not_source_predicate; compute_done.
Qed.

(** ** Grouping with [dict_append] *)

Section Grouping.
Context {V : Type} `{EqDecision V}.

Lemma dict_get_append (k k' : Term) (v : V) (d : list (Term * list V)) :
  dict_get k' (dict_append k v d)
  = if decide (k' = k) then Some (default [] (dict_get k d) ++ [v]) else dict_get k' d.
Proof.
  induction d as [|[k0 vs] d IH]; simpl.
  - destruct (decide (k' = k)); [done|]. done.
  - destruct (decide (k = k0)) as [->|Hne]; simpl.
    + destruct (decide (k' = k0)); done.
    + rewrite IH. destruct (decide (k' = k0)) as [->|?]; [|done].
      by rewrite decide_False by done.
Qed.

Lemma dict_append_keys (k : Term) (v : V) (d : list (Term * list V)) :
  (dict_append k v d).*1 = if decide (k ∈ d.*1) then d.*1 else d.*1 ++ [k].
Proof.
  induction d as [|[k0 vs] d IH]; csimpl; [done|].
  destruct (decide (k = k0)) as [->|Hne]; csimpl.
  - rewrite decide_True by left. done.
  - rewrite IH. destruct (decide (k ∈ d.*1)) as [Hin|Hnin].
    + rewrite decide_True by (by right). done.
    + rewrite decide_False; [done|]. by intros [?|?]%elem_of_cons.
Qed.

Lemma dict_get_elem_of (k : Term) (vs : list V) (d : list (Term * list V)) :
  NoDup d.*1 → (k, vs) ∈ d ↔ dict_get k d = Some vs.
Proof.
  induction d as [|[k0 vs0] d IH]; csimpl; intros Hnd.
  - split; [by intros ?%elem_of_nil|done].
  - apply NoDup_cons in Hnd as [Hk0 Hnd]. rewrite elem_of_cons.
    destruct (decide (k = k0)) as [->|Hne].
    + split; [|by intros [= ->]; left].
      intros [[= ->]|Hin]; [done|]. destruct Hk0.
      apply list_elem_of_fmap. by exists (k0, vs).
    + rewrite <- IH by done. split; [|by right]. by intros [[= -> ->]|?].
Qed.

Lemma values_of_snoc (k : Term) (pairs : list (V * Term)) (v : V) (k' : Term) :
  values_of k (pairs ++ [(v, k')])
  = values_of k pairs ++ (if decide (k' = k) then [v] else []).
Proof.
  unfold values_of. rewrite filter_app, fmap_app. f_equal.
  rewrite filter_cons, filter_nil. simpl. by destruct (decide (k' = k)).
Qed.

Lemma group_snoc (pairs : list (V * Term)) (v : V) (k : Term) :
  group (pairs ++ [(v, k)]) = dict_append k v (group pairs).
Proof. unfold group. by rewrite foldl_app. Qed.

Lemma group_keys_NoDup (pairs : list (V * Term)) : NoDup (group pairs).*1.
Proof.
  induction pairs as [|[v k] pairs IH] using rev_ind; [constructor|].
  rewrite group_snoc, dict_append_keys.
  destruct (decide (k ∈ (group pairs).*1)); [done|].
  apply NoDup_app. split_and!; [done| |apply NoDup_singleton].
  by intros x Hx ->%list_elem_of_singleton.
Qed.

Lemma group_get (k : Term) (pairs : list (V * Term)) :
  dict_get k (group pairs)
  = match values_of k pairs with [] => None | vs => Some vs end.
Proof.
  induction pairs as [|[v k'] pairs IH] using rev_ind; [done|].
  rewrite group_snoc, dict_get_append, values_of_snoc.
  destruct (decide (k = k')) as [->|Hne].
  - rewrite decide_True by done. rewrite IH.
    destruct (values_of k' pairs); done.
  - rewrite decide_False by done. by rewrite app_nil_r.
Qed.

Lemma elem_of_group (k : Term) (vs : list V) (pairs : list (V * Term)) :
  (k, vs) ∈ group pairs ↔ vs = values_of k pairs ∧ vs ≠ [].
Proof.
  rewrite dict_get_elem_of by apply group_keys_NoDup. rewrite group_get.
  destruct (values_of k pairs) as [|v l]; split.
  - done.
  - by intros [-> ?].
  - by intros [= <-].
  - by intros [-> _].
Qed.

End Grouping.

Lemma filter_fmap {A B} (f : A → B) (P : B → Prop) `{!∀ x, Decision (P x)} (l : list A) :
  filter P (f <$> l) = f <$> filter (λ x, P (f x)) l.
Proof.
  induction l as [|x l IH]; [done|].
  rewrite fmap_cons, !filter_cons, IH. by destruct (decide (P (f x))).
Qed.

Lemma values_of_subject_objects (p k : Term) (g : Graph) :
  values_of k (subject_objects p g) = subjects p (Some k) g.
Proof.
  unfold values_of, subject_objects, subjects, triples.
  rewrite filter_fmap, <- list_fmap_compose. simpl.
  rewrite list_filter_filter. f_equal. apply list_filter_iff.
  intros [[s p'] o]. unfold triple_matches, pos_matches, subject_of, predicate_of, object_of.
  simpl. tauto.
Qed.

Lemma NoDup_subjects (p o : Term) (g : Graph) : NoDup g → NoDup (subjects p (Some o) g).
Proof.
  intros Hnd. unfold subjects. apply NoDup_fmap_2_strong; [|by apply NoDup_filter].
  intros [[s1 p1] o1] [[s2 p2] o2] [(_ & Hp1 & Ho1) _]%list_elem_of_filter
    [(_ & Hp2 & Ho2) _]%list_elem_of_filter Heq.
  unfold pos_matches, subject_of, predicate_of, object_of in *. simpl in *. by subst.
Qed.

Lemma two_distinct {A} (l : list A) :
  NoDup l → 1 < length l ↔ ∃ x y, x ≠ y ∧ x ∈ l ∧ y ∈ l.
Proof.
  intros Hnd. split.
  - destruct l as [|x [|y l]]; simpl; [lia|lia|]. intros _.
    exists x, y. split_and!; [|left|right; left].
    apply NoDup_cons in Hnd as [Hx _]. intros ->. apply Hx. left.
  - intros (x & y & Hne & Hx & Hy).
    destruct l as [|a [|b l]]; simpl; [by apply elem_of_nil in Hx| |lia].
    apply list_elem_of_singleton in Hx, Hy. congruence.
Qed.

Lemma predicate_is_fresh (p : Term) (d : Graph → list Triple) :
  predicate_is p d → p ∉ source_predicates → p ≠ RDF_type →
  ∀ g t, t ∈ d g → ¬ is_source t.
Proof.
  intros Hd Hp Hty g [[s p'] o] Ht. apply Hd in Ht. unfold predicate_of in Ht.
  simpl in Ht. subst p'. by apply not_source_predicate.
Qed.

Lemma recommend_for_predicate target genre :
  predicate_is EX_recommendedFor (recommend_for target genre).
Proof. by intros g t (book & -> & _)%list_elem_of_fmap. Qed.

Lemma Derivation_recommend_for target genre : Derivation (recommend_for target genre).
Proof.
  split.
  - intros g1 g2 Heq. unfold recommend_for.
    rewrite (subjects_same EX_hasGenre genre g1 g2); [done| |done]. left. compute_done.
  - apply (predicate_is_fresh EX_recommendedFor);
      [apply recommend_for_predicate|compute_done|compute_done].
Qed.

Section TestappAdvanced.
Variable literal_bool : string → option string → option LangTag → bool.

Lemma rule_author_step (g : Graph) : Testapp.rule_author g = step_of derive_author g.
Proof.
  unfold Testapp.rule_author, step_of, derive_author. rewrite <- foldl_add_all.
  apply foldl_fun_ext. by intros g' [book author].
Qed.

Lemma frequent_borrowers_step (g : Graph) :
  Testapp.frequent_borrowers g = step_of derive_frequent g.
Proof.
  unfold Testapp.frequent_borrowers, step_of, derive_frequent. rewrite <- foldl_add_all.
  apply foldl_fun_ext. intros g' [member loans]. simpl.
  by destruct (decide (1 < length loans)).
Qed.

Lemma author_expertise_step (g : Graph) :
  Testapp.author_expertise literal_bool g = step_of (derive_expertise literal_bool) g.
Proof.
  unfold Testapp.author_expertise, step_of, derive_expertise. rewrite <- foldl_add_all.
  apply foldl_fun_ext. intros g' [author genres]. simpl. apply foldl_add_fmap.
Qed.

Lemma recommend_by_loans_step (g : Graph) :
  Testapp.recommend_by_loans literal_bool g = step_of (derive_recommend literal_bool) g.
Proof.
  unfold Testapp.recommend_by_loans, step_of, derive_recommend.
  rewrite <- (foldl_add_all_sources (λ mg g, mg.2 ≫= λ genre, recommend_for mg.1 genre g)).
  - apply foldl_fun_ext. intros g1 [member genres]. simpl.
    rewrite <- (foldl_add_all_sources (λ genre g, recommend_for member genre g))
      by (intros genre; apply Derivation_recommend_for).
    apply foldl_fun_ext. intros g2 genre. apply foldl_add_fmap.
  - intros [member genres]. simpl.
    apply (Derivation_bind (λ _, genres) (λ genre g, recommend_for member genre g)); [done|].
    intros genre. apply Derivation_recommend_for.
Qed.

Lemma testapp_basic_run (g : Graph) :
  Testapp.apply_basic_library_rules g = run testapp_basic_pipeline g.
Proof.
  unfold Testapp.apply_basic_library_rules, testapp_basic_pipeline, run. simpl.
  by rewrite rule_author_step, related_books_step, frequent_borrowers_step.
Qed.

Lemma testapp_advanced_run (g : Graph) :
  Testapp.apply_advanced_library_rules literal_bool g
  = run (testapp_advanced_pipeline literal_bool) g.
Proof.
  unfold Testapp.apply_advanced_library_rules, testapp_advanced_pipeline, run.
  rewrite foldl_app. fold (run testapp_basic_pipeline g). rewrite <- testapp_basic_run. simpl.
  by rewrite author_expertise_step, recommend_by_loans_step.
Qed.

Lemma elem_of_derive_author (t : Triple) (g : Graph) :
  t ∈ derive_author g ↔
  ∃ book author, (book, EX_hasAuthor, author) ∈ g
    ∧ (t = (author, EX_wrote, book) ∨ t = (book, EX_writtenBy, author)).
Proof.
  unfold derive_author. rewrite list_elem_of_bind. split.
  - intros ([book author] & Ht & Hin%elem_of_subject_objects). exists book, author.
    split; [done|]. simpl in Ht. rewrite elem_of_cons, list_elem_of_singleton in Ht. done.
  - intros (book & author & Hin & Ht). exists (book, author).
    split; [|by apply elem_of_subject_objects].
    simpl. rewrite elem_of_cons, list_elem_of_singleton. done.
Qed.

Lemma borrower_loans_group (g : Graph) :
  Testapp.borrower_loans g = group (subject_objects EX_borrowedBy g).
Proof. unfold Testapp.borrower_loans, group. apply foldl_fun_ext. by intros d [loan member]. Qed.

Lemma elem_of_derive_frequent (t : Triple) (g : Graph) :
  t ∈ derive_frequent g ↔
  ∃ member, t = (member, RDF_type, EX_FrequentBorrower)
    ∧ 1 < length (subjects EX_borrowedBy (Some member) g).
Proof.
  unfold derive_frequent. rewrite list_elem_of_bind, borrower_loans_group. split.
  - intros ([member loans] & Ht & [-> _]%elem_of_group). simpl in Ht.
    destruct (decide _) as [Hlen|?]; [|by apply elem_of_nil in Ht].
    apply list_elem_of_singleton in Ht. exists member.
    by rewrite <- values_of_subject_objects.
  - intros (member & -> & Hlen). rewrite <- values_of_subject_objects in Hlen.
    exists (member, values_of member (subject_objects EX_borrowedBy g)). simpl.
    rewrite decide_True by done. split; [by apply list_elem_of_singleton|].
    apply elem_of_group. split; [done|]. intros Hnil. rewrite Hnil in Hlen. simpl in Hlen. lia.
Qed.

Lemma derive_expertise_predicate : predicate_is EX_hasExpertise (derive_expertise literal_bool).
Proof.
  intros g t (ag & Ht & _)%list_elem_of_bind.
  by apply list_elem_of_fmap in Ht as (genre & -> & _).
Qed.

Lemma derive_recommend_predicate : predicate_is EX_recommendedFor (derive_recommend literal_bool).
Proof.
  intros g t (mg & (genre & Ht & _)%list_elem_of_bind & _)%list_elem_of_bind.
  by apply recommend_for_predicate in Ht.
Qed.

Lemma Derivation_author : Derivation derive_author.
Proof.
  split.
  - intros g1 g2 Heq. unfold derive_author.
    by rewrite (subject_objects_same EX_hasAuthor g1 g2) by (done || compute_done).
  - intros g t (book & author & _ & [->| ->])%elem_of_derive_author;
      apply not_source_predicate; compute_done.
Qed.

Lemma Derivation_frequent : Derivation derive_frequent.
Proof.
  split.
  - intros g1 g2 Heq. unfold derive_frequent, Testapp.borrower_loans.
    by rewrite (subject_objects_same EX_borrowedBy g1 g2) by (done || compute_done).
  - intros g t (member & -> & _)%elem_of_derive_frequent.
    apply not_source_class. compute_done.
Qed.

Lemma author_genres_same (g1 g2 : Graph) :
  sources g1 = sources g2 →
  Testapp.author_genres literal_bool g1 = Testapp.author_genres literal_bool g2.
Proof.
  intros Heq. unfold Testapp.author_genres.
  rewrite (subjects_same RDF_type (Some EX_Book) g1 g2); [| |done].
  - apply foldl_fun_ext. intros d book.
    rewrite (objects_same (Some book) EX_hasAuthor g1 g2) by (done || compute_done).
    by rewrite (objects_same (Some book) EX_hasGenre g1 g2) by (done || compute_done).
  - right. split; [done|]. exists EX_Book. split; [done|]. compute_done.
Qed.

Lemma member_genres_same (g1 g2 : Graph) :
  sources g1 = sources g2 →
  Testapp.member_genres literal_bool g1 = Testapp.member_genres literal_bool g2.
Proof.
  intros Heq. unfold Testapp.member_genres.
  rewrite (subjects_same RDF_type (Some EX_Loan) g1 g2); [| |done].
  - apply foldl_fun_ext. intros d loan.
    rewrite (objects_same (Some loan) EX_borrowedBy g1 g2) by (done || compute_done).
    by rewrite (objects_same None EX_hasGenre g1 g2) by (done || compute_done).
  - right. split; [done|]. exists EX_Loan. split; [done|]. compute_done.
Qed.

Lemma Derivation_expertise : Derivation (derive_expertise literal_bool).
Proof.
  split.
  - intros g1 g2 Heq. unfold derive_expertise. by rewrite (author_genres_same g1 g2).
  - apply (predicate_is_fresh EX_hasExpertise);
      [apply derive_expertise_predicate|compute_done|compute_done].
Qed.

Lemma Derivation_recommend : Derivation (derive_recommend literal_bool).
Proof.
  apply (Derivation_bind (Testapp.member_genres literal_bool)
           (λ mg g, mg.2 ≫= λ genre, recommend_for mg.1 genre g)).
  - apply member_genres_same.
  - intros [member genres]. simpl.
    apply (Derivation_bind (λ _, genres) (λ genre g, recommend_for member genre g)); [done|].
    intros genre. apply Derivation_recommend_for.
Qed.

Lemma testapp_basic_pipeline_ok : Forall Derivation testapp_basic_pipeline.
Proof.
  unfold testapp_basic_pipeline. rewrite !Forall_cons.
  split_and!; [apply Derivation_author|apply Derivation_related|apply Derivation_frequent|done].
Qed.

Lemma testapp_advanced_pipeline_ok : Forall Derivation (testapp_advanced_pipeline literal_bool).
Proof.
  apply Forall_app. split; [apply testapp_basic_pipeline_ok|].
  rewrite !Forall_cons.
  split_and!; [apply Derivation_expertise|apply Derivation_recommend|done].
Qed.

End TestappAdvanced.

Section Testapp1Advanced.
Variable literal_bool : string → option string → option LangTag → bool.

Lemma prefer_for_predicate user : predicate_is EX_recommendedFor (prefer_for literal_bool user).
Proof.
  intros g t Ht. unfold prefer_for in Ht.
  destruct (next_or_None _) as [pg|]; [|by apply elem_of_nil in Ht].
  destruct (truthy _ _); [|by apply elem_of_nil in Ht].
  by apply recommend_for_predicate in Ht.
Qed.

Lemma Derivation_prefer_for user : Derivation (prefer_for literal_bool user).
Proof.
  split.
  - intros g1 g2 Heq. unfold prefer_for.
    rewrite (objects_same (Some user) EX_prefersGenre g1 g2) by (done || compute_done).
    destruct (next_or_None _) as [pg|]; [|done]. destruct (truthy _ _); [|done].
    by apply (derive_sources _ (Derivation_recommend_for user (Some pg))).
  - apply (predicate_is_fresh EX_recommendedFor);
      [apply prefer_for_predicate|compute_done|compute_done].
Qed.

Lemma users_same (g1 g2 : Graph) :
  sources g1 = sources g2 →
  subjects RDF_type (Some EX_User) g1 = subjects RDF_type (Some EX_User) g2.
Proof.
  intros Heq. apply subjects_same; [|done].
  right. split; [done|]. exists EX_User. split; [done|]. compute_done.
Qed.

Lemma Derivation_prefer : Derivation (derive_prefer literal_bool).
Proof.
  apply (Derivation_bind (subjects RDF_type (Some EX_User)) (prefer_for literal_bool)).
  - apply users_same.
  - apply Derivation_prefer_for.
Qed.

Lemma derive_prefer_predicate : predicate_is EX_recommendedFor (derive_prefer literal_bool).
Proof.
  intros g t (user & Ht & _)%list_elem_of_bind. by apply prefer_for_predicate in Ht.
Qed.

Lemma recommend_by_preference_step (g : Graph) :
  Testapp1.recommend_by_preference literal_bool g = step_of (derive_prefer literal_bool) g.
Proof.
  unfold Testapp1.recommend_by_preference, step_of, derive_prefer.
  rewrite <- (foldl_add_all_sources (prefer_for literal_bool)) by apply Derivation_prefer_for.
  apply foldl_fun_ext. intros g1 user. unfold prefer_for.
  destruct (next_or_None _) as [pg|]; [|done]. destruct (truthy _ _); [|done].
  apply foldl_add_fmap.
Qed.

Lemma testapp1_basic_run (g : Graph) :
  Testapp1.apply_basic_library_rules g = run testapp1_basic_pipeline g.
Proof.
  unfold Testapp1.apply_basic_library_rules, testapp1_basic_pipeline, run. simpl.
  by rewrite author_wrote_step, related_books_step.
Qed.

Lemma testapp1_advanced_run (g : Graph) :
  Testapp1.apply_advanced_library_rules literal_bool g
  = run (testapp1_advanced_pipeline literal_bool) g.
Proof.
  unfold Testapp1.apply_advanced_library_rules, testapp1_advanced_pipeline, run.
  rewrite foldl_app. fold (run testapp1_basic_pipeline g). rewrite <- testapp1_basic_run. simpl.
  change (Testapp1.author_expertise literal_bool)
    with (Testapp.author_expertise literal_bool).
  by rewrite author_expertise_step, recommend_by_preference_step.
Qed.

Lemma testapp1_basic_pipeline_ok : Forall Derivation testapp1_basic_pipeline.
Proof.
  unfold testapp1_basic_pipeline. rewrite !Forall_cons.
  split_and!; [apply Derivation_wrote|apply Derivation_related|done].
Qed.

Lemma testapp1_advanced_pipeline_ok : Forall Derivation (testapp1_advanced_pipeline literal_bool).
Proof.
  apply Forall_app. split; [apply testapp1_basic_pipeline_ok|].
  rewrite !Forall_cons.
  split_and!; [apply Derivation_expertise|apply Derivation_prefer|done].
Qed.

End Testapp1Advanced.

(** ** What a pipeline does to the [wrote] relation *)

Lemma predicate_is_wrote_sound (p : Term) (d : Graph → list Triple) :
  predicate_is p d → p ≠ EX_wrote → wrote_sound d.
Proof. intros Hd Hp g t Ht Hw. apply Hd in Ht. congruence. Qed.

Lemma derive_related_predicate : predicate_is EX_relatedTo derive_related.
Proof. by intros g t (b1 & b2 & ->)%derive_related_shape. Qed.

Lemma derive_frequent_predicate : predicate_is RDF_type derive_frequent.
Proof. by intros g t (member & -> & _)%elem_of_derive_frequent. Qed.

Lemma wrote_sound_wrote : wrote_sound derive_wrote.
Proof. intros g t Ht _. by apply elem_of_derive_wrote. Qed.

Lemma wrote_sound_author : wrote_sound derive_author.
Proof.
  intros g t (book & author & Hin & [->| ->])%elem_of_derive_author Hp.
  - by exists book, author.
  - assert (EX_writtenBy ≠ EX_wrote) by compute_done. done.
Qed.

Lemma run_wrote_count (ds : list (Graph → list Triple)) (g : Graph) (book author : Term) :
  Forall Derivation ds → Exists wrote_complete ds → NoDup g →
  (book, EX_hasAuthor, author) ∈ g →
  count (author, EX_wrote, book) (run ds g) = 1.
Proof.
  intros Hds Hex Hnd Hin. apply count_NoDup; [by apply NoDup_run|].
  apply elem_of_run; [done|]. right.
  apply Exists_exists in Hex as (d & Hd & Hc). exists d. split; [done|]. by apply Hc.
Qed.

Lemma run_wrote_only (ds : list (Graph → list Triple)) (g : Graph) (t : Triple) :
  Forall Derivation ds → Forall wrote_sound ds →
  t ∈ run ds g → predicate_of t = EX_wrote →
  t ∈ g ∨ ∃ book author, (book, EX_hasAuthor, author) ∈ g ∧ t = (author, EX_wrote, book).
Proof.
  intros Hds Hs [Ht|(d & Hd & Ht)]%elem_of_run Hp; [by left| |done].
  right. by apply (proj1 (Forall_forall _ _) Hs d Hd g t).
Qed.

Lemma testapp_wrote_sound lb : Forall wrote_sound (testapp_advanced_pipeline lb).
Proof.
  unfold testapp_advanced_pipeline, testapp_basic_pipeline. simpl.
  rewrite !Forall_cons. split_and!; [apply wrote_sound_author| | | | |done].
  - apply (predicate_is_wrote_sound _ _ derive_related_predicate). compute_done.
  - apply (predicate_is_wrote_sound _ _ derive_frequent_predicate). compute_done.
  - apply (predicate_is_wrote_sound _ _ (derive_expertise_predicate lb)).
    compute_done.
  - apply (predicate_is_wrote_sound _ _ (derive_recommend_predicate lb)).
    compute_done.
Qed.

Lemma testapp1_wrote_sound lb : Forall wrote_sound (testapp1_advanced_pipeline lb).
Proof.
  unfold testapp1_advanced_pipeline, testapp1_basic_pipeline. simpl.
  rewrite !Forall_cons. split_and!; [apply wrote_sound_wrote| | | |done].
  - apply (predicate_is_wrote_sound _ _ derive_related_predicate). compute_done.
  - apply (predicate_is_wrote_sound _ _ (derive_expertise_predicate lb)).
    compute_done.
  - apply (predicate_is_wrote_sound _ _ (derive_prefer_predicate lb)).
    compute_done.
Qed.

Lemma wrote_complete_author : wrote_complete derive_author.
Proof.
  intros g book author Hin. apply elem_of_derive_author.
  exists book, author. split; [done|by left].
Qed.

Lemma wrote_complete_wrote : wrote_complete derive_wrote.
Proof. intros g book author Hin. apply elem_of_derive_wrote. by exists book, author. Qed.

(** ** The [FrequentBorrower] classification *)

Lemma predicate_is_type_free (p : Term) (d : Graph → list Triple) :
  predicate_is p d → p ≠ RDF_type → type_free d.
Proof. intros Hd Hp g t Ht. apply Hd in Ht. congruence. Qed.

Lemma type_free_author : type_free derive_author.
Proof.
  intros g t (book & author & _ & [->| ->])%elem_of_derive_author;
    unfold predicate_of; simpl; compute_done.
Qed.

Lemma type_free_wrote : type_free derive_wrote.
Proof.
  intros g t (book & author & _ & ->)%elem_of_derive_wrote.
  unfold predicate_of; simpl; compute_done.
Qed.

Lemma run_type_free (ds : list (Graph → list Triple)) (g : Graph) (t : Triple) :
  Forall Derivation ds → Forall type_free ds → predicate_of t = RDF_type →
  t ∈ run ds g ↔ t ∈ g.
Proof.
  intros Hds Hfree Hp. rewrite elem_of_run by done. split; [|by left].
  intros [?|(d & Hd & Ht)]; [done|].
  by destruct (proj1 (Forall_forall _ _) Hfree d Hd g t Ht).
Qed.

Lemma many_loans (g : Graph) (member : Term) :
  NoDup g →
  1 < length (subjects EX_borrowedBy (Some member) g) ↔
  ∃ loan1 loan2, loan1 ≠ loan2
    ∧ (loan1, EX_borrowedBy, member) ∈ g ∧ (loan2, EX_borrowedBy, member) ∈ g.
Proof.
  intros Hnd. rewrite two_distinct by by apply NoDup_subjects.
  split; intros (l1 & l2 & Hne & H1 & H2); exists l1, l2; (split; [done|]).
  - apply elem_of_subjects in H1 as (o1 & -> & H1).
    apply elem_of_subjects in H2 as (o2 & -> & H2). done.
  - split; apply elem_of_subjects; by exists member.
Qed.

Lemma testapp_frequent (ds : list (Graph → list Triple)) (g : Graph) (member : Term) :
  Forall Derivation ds →
  Forall (λ d, d = derive_frequent ∨ type_free d) ds →
  derive_frequent ∈ ds →
  (member, RDF_type, EX_FrequentBorrower) ∈ run ds g ↔
  (member, RDF_type, EX_FrequentBorrower) ∈ g
  ∨ 1 < length (subjects EX_borrowedBy (Some member) g).
Proof.
  intros Hds Hall Hin. rewrite elem_of_run by done. split.
  - intros [?|(d & Hd & Ht)]; [by left|].
    destruct (proj1 (Forall_forall _ _) Hall d Hd) as [->|Hfree].
    + apply elem_of_derive_frequent in Ht as (m & [= ->] & Hlen). by right.
    + by destruct (Hfree g _ Ht).
  - intros [?|Hlen]; [by left|]. right. exists derive_frequent.
    split; [done|]. apply elem_of_derive_frequent. by exists member.
Qed.

Lemma testapp_pipeline_frequent lb :
  Forall (λ d, d = derive_frequent ∨ type_free d)
         (testapp_advanced_pipeline lb).
Proof.
  unfold testapp_advanced_pipeline, testapp_basic_pipeline. simpl.
  rewrite !Forall_cons. split_and!; [| |by left| | |done]; right.
  - apply type_free_author.
  - apply (predicate_is_type_free _ _ derive_related_predicate). compute_done.
  - apply (predicate_is_type_free _ _ (derive_expertise_predicate lb)).
    compute_done.
  - apply (predicate_is_type_free _ _ (derive_recommend_predicate lb)).
    compute_done.
Qed.

Lemma testapp1_pipeline_type_free lb : Forall type_free (testapp1_advanced_pipeline lb).
Proof.
  unfold testapp1_advanced_pipeline, testapp1_basic_pipeline. simpl.
  rewrite !Forall_cons. split_and!; [apply type_free_wrote| | | |done].
  - apply (predicate_is_type_free _ _ derive_related_predicate). compute_done.
  - apply (predicate_is_type_free _ _ (derive_expertise_predicate lb)).
    compute_done.
  - apply (predicate_is_type_free _ _ (derive_prefer_predicate lb)).
    compute_done.
Qed.

Lemma count_same (t : Triple) (g1 g2 : Graph) :
  NoDup g1 → NoDup g2 → (t ∈ g1 ↔ t ∈ g2) → count t g1 = count t g2.
Proof.
  intros H1 H2 Hiff. destruct (decide (t ∈ g2)) as [Hin|Hnin].
  - by rewrite !count_NoDup by tauto.
  - by rewrite !count_absent by tauto.
Qed.

Section Tiers.
Variable literal_bool : string → option string → option LangTag → bool.

Lemma tier_run (tier : Tier) (g : Graph) :
  tier_apply literal_bool tier g = run (tier_pipeline literal_bool tier) g.
Proof.
  destruct tier; simpl.
  - apply testapp_basic_run.
  - apply testapp_advanced_run.
  - apply testapp1_basic_run.
  - apply testapp1_advanced_run.
Qed.

Lemma tier_pipeline_ok (tier : Tier) : Forall Derivation (tier_pipeline literal_bool tier).
Proof.
  destruct tier; simpl.
  - apply testapp_basic_pipeline_ok.
  - apply testapp_advanced_pipeline_ok.
  - apply testapp1_basic_pipeline_ok.
  - apply testapp1_advanced_pipeline_ok.
Qed.

Lemma tier_wrote_sound (tier : Tier) : Forall wrote_sound (tier_pipeline literal_bool tier).
Proof.
  destruct tier; simpl.
  - pose proof (testapp_wrote_sound literal_bool) as H.
    by apply Forall_app in H as [H _].
  - apply testapp_wrote_sound.
  - pose proof (testapp1_wrote_sound literal_bool) as H.
    by apply Forall_app in H as [H _].
  - apply testapp1_wrote_sound.
Qed.

Lemma tier_wrote_complete (tier : Tier) : Exists wrote_complete (tier_pipeline literal_bool tier).
Proof.
  destruct tier; simpl; apply Exists_cons_hd;
    (apply wrote_complete_author || apply wrote_complete_wrote).
Qed.

End Tiers.

(** ** The fixed tiers *)

(** C1. Author inversion: in both variants, after the basic or the advanced
    tier, every [(book, hasAuthor, author)] of the input has exactly one
    [(author, wrote, book)] in the output, and a [wrote] triple of the
    output is one of the input or the inversion of a [hasAuthor] triple of
    the input. *)
Theorem author_inversion (literal_bool : string → option string → option LangTag → bool)
    (tier : Tier) (G : Graph) (book author : Term) :
  NoDup G →
  (book, EX_hasAuthor, author) ∈ G →
  count (author, EX_wrote, book) (tier_apply literal_bool tier G) = 1
  ∧ ∀ t, t ∈ tier_apply literal_bool tier G → predicate_of t = EX_wrote →
      t ∈ G ∨ ∃ book' author',
                (book', EX_hasAuthor, author') ∈ G ∧ t = (author', EX_wrote, book').
Proof.
  intros Hnd Hin. rewrite tier_run. split.
  - apply run_wrote_count; [apply tier_pipeline_ok|apply tier_wrote_complete|done|done].
  - intros t Ht Hp.
    by apply (run_wrote_only (tier_pipeline literal_bool tier));
      [apply tier_pipeline_ok|apply tier_wrote_sound| |].
Qed.

Lemma author_inversion_witness :
  NoDup scenario1
  ∧ (ex "Book1", EX_hasAuthor, ex "Alice") ∈ scenario1
  ∧ count (ex "Alice", EX_wrote, ex "Book1")
          (Testapp.apply_advanced_library_rules (λ _ _ _, true) scenario1) = 1.
Proof.
  assert (NoDup scenario1) as Hnd by compute_done.
  assert ((ex "Book1", EX_hasAuthor, ex "Alice") ∈ scenario1) as Hin by compute_done.
  split; [done|]. split; [done|].
  exact (proj1 (author_inversion (λ _ _ _, true) Testapp_advanced scenario1
                  (ex "Book1") (ex "Alice") Hnd Hin)).
Defined.

(** C2, as the code has it.  In [testapp.py] a member who is the object of
    two distinct [borrowedBy] triples has exactly one [FrequentBorrower]
    type triple after either tier, and for a member with at most one loan
    the tiers add none: the output has the triple exactly when the input
    had it.  The tiers of [testapp1.py] have no such step and never add the
    triple. *)
Theorem frequent_borrower_threshold
    (literal_bool : string → option string → option LangTag → bool)
    (G : Graph) (member : Term) :
  NoDup G →
  (∀ tier, tier = Testapp_basic ∨ tier = Testapp_advanced →
     (∀ loan1 loan2, loan1 ≠ loan2 →
        (loan1, EX_borrowedBy, member) ∈ G → (loan2, EX_borrowedBy, member) ∈ G →
        count (frequent member) (tier_apply literal_bool tier G) = 1)
     ∧ ((∀ loan1 loan2,
           (loan1, EX_borrowedBy, member) ∈ G → (loan2, EX_borrowedBy, member) ∈ G →
           loan1 = loan2) →
        count (frequent member) (tier_apply literal_bool tier G)
        = count (frequent member) G))
  ∧ (∀ tier, tier = Testapp1_basic ∨ tier = Testapp1_advanced →
       count (frequent member) (tier_apply literal_bool tier G)
       = count (frequent member) G).
Proof.
  intros Hnd. split.
  - intros tier Htier.
    assert ((frequent member) ∈ tier_apply literal_bool tier G ↔
            (frequent member) ∈ G
            ∨ 1 < length (subjects EX_borrowedBy (Some member) G)) as Hiff.
    { rewrite tier_run. apply testapp_frequent; [apply tier_pipeline_ok| |].
      - destruct Htier as [-> | ->]; simpl.
        + pose proof (testapp_pipeline_frequent literal_bool) as H.
          by apply Forall_app in H as [H _].
        + apply testapp_pipeline_frequent.
      - destruct Htier as [-> | ->]; simpl;
          unfold testapp_advanced_pipeline, testapp_basic_pipeline;
          simpl; do 2 right; left. }
    assert (NoDup (tier_apply literal_bool tier G)) as Hnd'
      by (rewrite tier_run; by apply NoDup_run).
    split.
    + intros loan1 loan2 Hne H1 H2. apply count_NoDup; [done|].
      apply Hiff. right. apply many_loans; [done|]. by exists loan1, loan2.
    + intros Huniq. apply count_same; [done|done|]. rewrite Hiff.
      split; [|by left]. intros [?|Hlen]; [done|].
      apply many_loans in Hlen as (l1 & l2 & Hne & H1 & H2); [|done].
      destruct Hne. by apply Huniq.
  - intros tier Htier. apply count_same; [|done|].
    + rewrite tier_run. by apply NoDup_run.
    + rewrite tier_run. apply run_type_free; [apply tier_pipeline_ok| |done].
      destruct Htier as [-> | ->]; simpl.
      * pose proof (testapp1_pipeline_type_free literal_bool) as H.
        by apply Forall_app in H as [H _].
      * apply testapp1_pipeline_type_free.
Qed.

Lemma frequent_borrower_threshold_witness :
  NoDup scenario1
  ∧ count (frequent (ex "Bob")) (Testapp.apply_basic_library_rules scenario1) = 1.
Proof.
  assert (NoDup scenario1) as Hnd by compute_done.
  split; [done|].
  refine (proj1 (proj1 (frequent_borrower_threshold (λ _ _ _, true) scenario1 (ex "Bob") Hnd)
                   Testapp_basic (or_introl eq_refl))
                (ex "Loan1") (ex "Loan2") _ _ _); compute_done.
Defined.

(** C2 as stated fails on both variants.  In [testapp.py] a member with no
    loan at all keeps a [FrequentBorrower] triple the input already has; in
    [testapp1.py] a member with two loans gets none. *)
Lemma frequent_borrower_threshold_fails :
  (subjects EX_borrowedBy (Some (ex "Bob")) [frequent (ex "Bob")] = []
   ∧ count (frequent (ex "Bob"))
           (Testapp.apply_basic_library_rules [frequent (ex "Bob")]) = 1)
  ∧ (subjects EX_borrowedBy (Some (ex "Bob")) scenario1 = [ex "Loan1"; ex "Loan2"]
     ∧ count (frequent (ex "Bob")) (Testapp1.apply_basic_library_rules scenario1) = 0).
Proof. repeat split; vm_compute; reflexivity. Qed.

(** C3. Idempotence: applying a fixed tier to its own output adds nothing;
    the graph is the same, as a set and in insertion order. *)
Theorem fixed_tiers_idempotent
    (literal_bool : string → option string → option LangTag → bool)
    (tier : Tier) (G : Graph) :
  same_triples (tier_apply literal_bool tier (tier_apply literal_bool tier G))
               (tier_apply literal_bool tier G)
  ∧ tier_apply literal_bool tier (tier_apply literal_bool tier G)
    = tier_apply literal_bool tier G.
Proof.
  assert (tier_apply literal_bool tier (tier_apply literal_bool tier G)
          = tier_apply literal_bool tier G) as Heq.
  { rewrite !tier_run. apply run_idempotent, tier_pipeline_ok. }
  split; [|done]. intros t. by rewrite Heq.
Qed.

(** C9. In [testapp.py] the basic tier, and with it the advanced tier, adds
    for every [(book, hasAuthor, author)] both [(author, wrote, book)] and
    [(book, writtenBy, author)]. *)
Theorem written_by_added (literal_bool : string → option string → option LangTag → bool)
    (G : Graph) (book author : Term) :
  (book, EX_hasAuthor, author) ∈ G →
  ((author, EX_wrote, book) ∈ Testapp.apply_basic_library_rules G
   ∧ (book, EX_writtenBy, author) ∈ Testapp.apply_basic_library_rules G)
  ∧ ((author, EX_wrote, book) ∈ Testapp.apply_advanced_library_rules literal_bool G
     ∧ (book, EX_writtenBy, author) ∈ Testapp.apply_advanced_library_rules literal_bool G).
Proof.
  intros Hin.
  assert (∀ t, t ∈ derive_author G →
            t ∈ Testapp.apply_basic_library_rules G
            ∧ t ∈ Testapp.apply_advanced_library_rules literal_bool G) as Hboth.
  { intros t Ht. rewrite testapp_basic_run, testapp_advanced_run.
    rewrite !elem_of_run
      by (apply testapp_basic_pipeline_ok || apply testapp_advanced_pipeline_ok).
    split; right; exists derive_author; (split; [left|done]). }
  destruct (Hboth (author, EX_wrote, book)) as [Hb1 Ha1].
  { apply elem_of_derive_author. exists book, author. by split; [|left]. }
  destruct (Hboth (book, EX_writtenBy, author)) as [Hb2 Ha2].
  { apply elem_of_derive_author. exists book, author. by split; [|right]. }
  done.
Qed.

Lemma written_by_added_witness :
  (ex "Book1", EX_hasAuthor, ex "Alice") ∈ scenario1
  ∧ (ex "Book1", EX_writtenBy, ex "Alice") ∈ Testapp.apply_basic_library_rules scenario1.
Proof.
  assert ((ex "Book1", EX_hasAuthor, ex "Alice") ∈ scenario1) as Hin by compute_done.
  split; [done|].
  exact (proj2 (proj1 (written_by_added (λ _ _ _, true) scenario1
                         (ex "Book1") (ex "Alice") Hin))).
Defined.

(** ** Lines of a rules text *)

Lemma rstrip_empty (s : string) : Py.rstrip s = EmptyString → all_space s = true.
Proof.
  induction s as [|c s IH]; simpl; [done|].
  destruct (Py.rstrip s); [|done].
  destruct (Py.isspace c); [|done]. intros _. by rewrite IH.
Qed.

Lemma lstrip_all_space (s : string) : all_space (Py.lstrip s) = true → all_space s = true.
Proof.
  induction s as [|c s IH]; simpl; [done|].
  destruct (Py.isspace c) eqn:Hc; simpl; [done|]. by rewrite Hc.
Qed.

Lemma strip_all_space (s : string) : all_space s = true → Py.strip s = EmptyString.
Proof.
  unfold Py.strip. induction s as [|c s IH]; simpl; [done|].
  intros [Hc Hs]%andb_prop. rewrite Hc. by apply IH.
Qed.

Lemma strip_empty (s : string) : Py.strip s = EmptyString ↔ all_space s = true.
Proof.
  split; [|apply strip_all_space].
  intros H. by apply lstrip_all_space, rstrip_empty.
Qed.

Lemma all_space_snoc (s : string) (c : char) :
  all_space s = true → Py.isspace c = true → all_space (Py.snoc s c) = true.
Proof.
  unfold Py.snoc. induction s as [|a s IH]; simpl; intros Hs Hc.
  - by rewrite Hc.
  - apply andb_prop in Hs as [-> Hs]. by apply IH.
Qed.

Lemma split_go_all_space (sep : string) (skip : nat) (cur s : string) :
  all_space cur = true → all_space s = true →
  Forall (λ piece, all_space piece = true) (Py.split_go sep skip cur s).
Proof.
  revert skip cur. induction s as [|c s IH]; intros skip cur Hcur Hs; cbn [Py.split_go].
  - by apply Forall_singleton.
  - simpl in Hs. apply andb_prop in Hs as [Hc Hs]. destruct skip as [|k].
    + destruct (Py.startswith (String c s) sep).
      * apply Forall_cons. split; [done|]. by apply IH.
      * apply IH; [|done]. by apply all_space_snoc.
    + by apply IH.
Qed.

Lemma nonblank_lines_blank (text : string) :
  Py.strip text = EmptyString → Py.nonblank_lines text = [].
Proof.
  intros Hs%strip_empty. unfold Py.nonblank_lines, Py.split.
  pose proof (split_go_all_space Py.newline 0 EmptyString text eq_refl Hs) as Hall.
  induction Hall as [|piece pieces Hp _ IH]; [done|].
  csimpl. rewrite (strip_all_space piece Hp). simpl. exact IH.
Qed.

Lemma nonblank_lines_text (text : string) :
  Py.nonblank_lines text ≠ [] → text ≠ EmptyString ∧ Py.strip text ≠ EmptyString.
Proof.
  intros Hne. split.
  - intros ->. by apply Hne.
  - intros Hs. by apply Hne, nonblank_lines_blank.
Qed.

Lemma author_wrote_twice (g : Graph) : author_wrote (author_wrote g) = author_wrote g.
Proof.
  rewrite !author_wrote_step. apply (run_idempotent [derive_wrote]).
  apply Forall_singleton, Derivation_wrote.
Qed.

Lemma author_wrote_grows (g : Graph) (t : Triple) : t ∈ g → t ∈ author_wrote g.
Proof. intros Hin. rewrite author_wrote_step. apply elem_of_step. by right. Qed.

(** ** The textual tier *)

Lemma testapp_loop_well_formed (rules : list string) (g : Graph) :
  Forall (λ r, testapp_malformed r = false) rules →
  Testapp.custom_rules_loop rules g
  = (if existsb testapp_fires rules then author_wrote g else g, Returned).
Proof.
  intros Hall. revert g. induction Hall as [|rule rules Hr _ IH]; intros g; [done|].
  simpl. unfold testapp_malformed, testapp_fires, testapp_recognized in *.
  destruct (Py.startswith rule "IF" && Py.contains "THEN" rule); simpl in *.
  - destruct (Py.split rule "THEN") as [|c [|a [|x l]]]; simpl in Hr; try done.
    destruct (_ && _); simpl; rewrite IH; [|done].
    destruct (existsb _ rules); [|done]. by rewrite author_wrote_twice.
  - apply IH.
Qed.

Lemma testapp_loop_malformed (pre post : list string) (bad : string) (g : Graph) :
  Forall (λ r, testapp_malformed r = false) pre → testapp_malformed bad = true →
  Testapp.custom_rules_loop (pre ++ bad :: post) g
  = ((Testapp.custom_rules_loop pre g).1, Raised_ValueError).
Proof.
  intros Hall Hbad. revert g. induction Hall as [|rule rules Hr _ IH]; intros g.
  - simpl. unfold testapp_malformed, testapp_recognized in Hbad.
    apply andb_prop in Hbad as [-> Hlen]. apply negb_true_iff, bool_decide_eq_false in Hlen.
    destruct (Py.split bad "THEN") as [|c [|a [|x l]]]; done.
  - simpl. unfold testapp_malformed, testapp_recognized in Hr.
    destruct (Py.startswith rule "IF" && Py.contains "THEN" rule); simpl in *.
    + destruct (Py.split rule "THEN") as [|c [|a [|x l]]]; simpl in Hr; try done.
      destruct (_ && _); apply IH.
    + apply IH.
Qed.

Lemma testapp1_loop_well_formed (rules : list string) (g : Graph) :
  Forall (λ r, testapp1_malformed r = false) rules →
  Testapp1.custom_rules_loop rules g
  = (if existsb testapp1_fires rules then author_wrote g else g, Returned).
Proof.
  intros Hall. revert g. induction Hall as [|rule rules Hr _ IH]; intros g; [done|].
  simpl. unfold testapp1_malformed, testapp1_fires, testapp1_recognized in *.
  destruct (Py.contains "=>" rule); simpl in *.
  - destruct (Py.split rule "=>") as [|c [|a [|x l]]]; simpl in Hr; try done.
    destruct (_ && _); simpl; rewrite IH; [|done].
    destruct (existsb _ rules); [|done]. by rewrite author_wrote_twice.
  - apply IH.
Qed.

Lemma testapp1_loop_malformed (pre post : list string) (bad : string) (g : Graph) :
  Forall (λ r, testapp1_malformed r = false) pre → testapp1_malformed bad = true →
  Testapp1.custom_rules_loop (pre ++ bad :: post) g
  = ((Testapp1.custom_rules_loop pre g).1, Raised_ValueError).
Proof.
  intros Hall Hbad. revert g. induction Hall as [|rule rules Hr _ IH]; intros g.
  - simpl. unfold testapp1_malformed, testapp1_recognized in Hbad.
    apply andb_prop in Hbad as [-> Hlen]. apply negb_true_iff, bool_decide_eq_false in Hlen.
    destruct (Py.split bad "=>") as [|c [|a [|x l]]]; done.
  - simpl. unfold testapp1_malformed, testapp1_recognized in Hr.
    destruct (Py.contains "=>" rule); simpl in *.
    + destruct (Py.split rule "=>") as [|c [|a [|x l]]]; simpl in Hr; try done.
      destruct (_ && _); apply IH.
    + apply IH.
Qed.

(** C4, as the code has it.  When a recognized line cannot be unpacked into
    condition and conclusion, [apply_custom_rules] raises and returns no
    graph; the lines after it are not run.  The graph object is not
    restored: it is the input, extended with the author inversions when a
    line before the malformed one triggered them.  This holds for
    [testapp.py] (lines [IF ... THEN ...]) and for [testapp1.py] (lines
    with [=>]). *)
Theorem custom_rules_abort :
  (∀ (G : Graph) (text : string) (pre post : list string) (bad : string),
     Py.nonblank_lines text = pre ++ bad :: post →
     Forall (λ r, testapp_malformed r = false) pre →
     testapp_malformed bad = true →
     Testapp.apply_custom_rules G text
     = (if existsb testapp_fires pre then author_wrote G else G, Raised_ValueError)
     ∧ ∀ t, t ∈ G → t ∈ (Testapp.apply_custom_rules G text).1)
  ∧ (∀ (G : Graph) (text : string) (pre post : list string) (bad : string),
       Py.nonblank_lines text = pre ++ bad :: post →
       Forall (λ r, testapp1_malformed r = false) pre →
       testapp1_malformed bad = true →
       Testapp1.apply_custom_rules G text
       = (if existsb testapp1_fires pre then author_wrote G else G, Raised_ValueError)
       ∧ ∀ t, t ∈ G → t ∈ (Testapp1.apply_custom_rules G text).1).
Proof.
  split; intros G text pre post bad Hlines Hpre Hbad.
  - destruct (nonblank_lines_text text) as [Hne Hs].
    { rewrite Hlines. by destruct pre. }
    assert (Testapp.apply_custom_rules G text
            = (if existsb testapp_fires pre then author_wrote G else G,
               Raised_ValueError)) as Heq.
    { unfold Testapp.apply_custom_rules.
      rewrite !bool_decide_eq_false_2 by done. simpl.
      rewrite Hlines, (testapp_loop_malformed pre post bad G Hpre Hbad).
      by rewrite (testapp_loop_well_formed pre G Hpre). }
    split; [done|]. intros t Ht. rewrite Heq. simpl.
    destruct (existsb _ pre); [by apply author_wrote_grows|done].
  - destruct (nonblank_lines_text text) as [Hne Hs].
    { rewrite Hlines. by destruct pre. }
    assert (Testapp1.apply_custom_rules G text
            = (if existsb testapp1_fires pre then author_wrote G else G,
               Raised_ValueError)) as Heq.
    { unfold Testapp1.apply_custom_rules.
      rewrite bool_decide_eq_false_2 by done.
      rewrite Hlines, (testapp1_loop_malformed pre post bad G Hpre Hbad).
      by rewrite (testapp1_loop_well_formed pre G Hpre). }
    split; [done|]. intros t Ht. rewrite Heq. simpl.
    destruct (existsb _ pre); [by apply author_wrote_grows|done].
Qed.

Lemma custom_rules_abort_witness :
  Py.nonblank_lines rules_hasAuthor_then_bad
  = ["IF x hasAuthor y THEN y wrote x"] ++ "IF a THEN b THEN c" :: []
  ∧ Forall (λ r, testapp_malformed r = false) ["IF x hasAuthor y THEN y wrote x"]
  ∧ testapp_malformed "IF a THEN b THEN c" = true
  ∧ Testapp.apply_custom_rules scenario1 rules_hasAuthor_then_bad
    = (author_wrote scenario1, Raised_ValueError).
Proof.
  assert (Py.nonblank_lines rules_hasAuthor_then_bad
          = ["IF x hasAuthor y THEN y wrote x"] ++ "IF a THEN b THEN c" :: []) as H1
    by (vm_compute; reflexivity).
  assert (Forall (λ r, testapp_malformed r = false)
                 ["IF x hasAuthor y THEN y wrote x"]) as H2
    by (apply Forall_singleton; vm_compute; reflexivity).
  assert (testapp_malformed "IF a THEN b THEN c" = true) as H3
    by (vm_compute; reflexivity).
  split_and!; [done|done|done|].
  exact (proj1 (proj1 custom_rules_abort scenario1 rules_hasAuthor_then_bad
                  ["IF x hasAuthor y THEN y wrote x"] [] "IF a THEN b THEN c" H1 H2 H3)).
Defined.

(** C4 as stated fails: the first line has added [(Alice, wrote, Book1)] to
    the graph object when the second line raises, and it stays there. *)
Lemma custom_rules_abort_keeps_triples :
  Testapp.apply_custom_rules [(ex "Book1", EX_hasAuthor, ex "Alice")] rules_hasAuthor_then_bad
  = ([(ex "Book1", EX_hasAuthor, ex "Alice"); (ex "Alice", EX_wrote, ex "Book1")],
     Raised_ValueError)
  ∧ (Testapp.apply_custom_rules [(ex "Book1", EX_hasAuthor, ex "Alice")]
       rules_hasAuthor_then_bad).1
    ≠ [(ex "Book1", EX_hasAuthor, ex "Alice")].
Proof. split; [vm_compute; reflexivity|]. vm_compute. discriminate. Qed.

(** ** The CWM tier *)

Lemma split_go_no_sep (sep cur s : string) :
  Py.contains sep s = false → ∃ piece, Py.split_go sep 0 cur s = [piece].
Proof.
  revert cur. induction s as [|c s IH]; intros cur Hno.
  - by exists cur.
  - cbn [Py.split_go]. cbn [Py.contains] in Hno.
    apply orb_false_elim in Hno as [-> Hno]. by apply IH.
Qed.

Lemma parse_no_arrow (rule : string) :
  Py.contains "=>" rule = false → Testapp1.parse_cwm_rule rule = None.
Proof.
  intros Hno. unfold Testapp1.parse_cwm_rule, Py.split.
  by destruct (split_go_no_sep "=>" EmptyString rule Hno) as [piece ->].
Qed.

Lemma alter_known {A} (f : A → A) (h : gmap nat A) (i : nat) (x : A) :
  h !! i = Some x → alter f i h = <[i := f x]> h.
Proof.
  intros Hi. apply map_eq. intros j. destruct (decide (i = j)) as [<-|Hne].
  - by rewrite lookup_alter_eq, lookup_insert_eq, Hi.
  - by rewrite lookup_alter_ne, lookup_insert_ne.
Qed.

Lemma foldl_alter {A B} (f : A → B → A) (l : list B) (h : gmap nat A) (i : nat) (x : A) :
  h !! i = Some x →
  foldl (λ h' y, alter (λ a, f a y) i h') h l = <[i := foldl f x l]> h.
Proof.
  revert h x. induction l as [|y l IH]; intros h x Hi; simpl.
  - by rewrite insert_id.
  - rewrite (alter_known _ h i x Hi).
    rewrite (IH _ (f x y)) by apply lookup_insert_eq.
    by rewrite insert_insert_eq.
Qed.

Section CwmProps.
Variable query : Graph → string → option Result.
Variable graph_iter : Graph → list Triple.

Lemma apply_consequent_grows bindings consequent (g : Graph) (t : Triple) :
  t ∈ g → t ∈ Testapp1.apply_consequent bindings consequent g.
Proof.
  unfold Testapp1.apply_consequent. revert g.
  induction consequent as [|c cs IH]; intros g Hin; simpl; [done|].
  apply IH. destruct (Testapp1.instantiate bindings c); [|done].
  apply elem_of_add. by right.
Qed.

Lemma apply_results_grows var_map consequent results (g : Graph) (t : Triple) :
  t ∈ g → t ∈ Testapp1.apply_results var_map consequent results g.
Proof.
  revert g. induction results as [| |row rest IH]; intros g Hin; simpl; [done|done|].
  destruct (Testapp1.make_bindings var_map row); [|done].
  by apply IH, apply_consequent_grows.
Qed.

Lemma apply_rule_grows (g : Graph) (rule : string) (t : Triple) :
  t ∈ g → t ∈ Testapp1.apply_rule query g rule.
Proof.
  intros Hin. unfold Testapp1.apply_rule.
  destruct (Testapp1.parse_cwm_rule rule) as [[ant cons]|]; [|done].
  destruct (Testapp1.build_query ant [] []) as [[vm parts]|]; [|done].
  destruct (query g _); [|done]. by apply apply_results_grows.
Qed.

Lemma cwm_loop_grows (g : Graph) (rules : list string) (t : Triple) :
  t ∈ g → t ∈ cwm_loop query g rules.
Proof.
  unfold cwm_loop. revert g. induction rules as [|r rs IH]; intros g Hin; simpl; [done|].
  by apply IH, apply_rule_grows.
Qed.

Lemma cwm_loop_app (g : Graph) (rules1 rules2 : list string) :
  cwm_loop query g (rules1 ++ rules2) = cwm_loop query (cwm_loop query g rules1) rules2.
Proof. unfold cwm_loop. apply foldl_app. Qed.

Lemma apply_cwm_rules_result (h : gmap nat Graph) (graph : nat) (G : Graph) (text : string) :
  text ≠ EmptyString → h !! graph = Some G →
  Testapp1.apply_cwm_rules query graph_iter h graph text
  = (<[fresh (dom h) := cwm_loop query (add_all (graph_iter G) []) (Py.nonblank_lines text)]> h,
     fresh (dom h)).
Proof.
  intros Hne Hg. unfold Testapp1.apply_cwm_rules.
  rewrite bool_decide_eq_false_2 by done. rewrite Hg. simpl. f_equal.
  rewrite (foldl_alter (λ g t, add t g) (graph_iter G) _ _ []) by apply lookup_insert_eq.
  rewrite insert_insert_eq.
  rewrite (foldl_alter (Testapp1.apply_rule query) _ _ _
             (foldl (λ g t, add t g) [] (graph_iter G)))
    by apply lookup_insert_eq.
  by rewrite insert_insert_eq.
Qed.

Lemma fresh_not_allocated (h : gmap nat Graph) : h !! fresh (dom h) = None.
Proof. apply not_elem_of_dom, is_fresh. Qed.

(** What a rule that parses, builds its query and gets its rows adds. *)
Lemma elem_of_apply_consequent bindings consequent (g : Graph) (t : Triple) :
  t ∈ Testapp1.apply_consequent bindings consequent g ↔
  t ∈ g ∨ ∃ c, c ∈ consequent ∧ Testapp1.instantiate bindings c = Some t.
Proof.
  unfold Testapp1.apply_consequent. revert g.
  induction consequent as [|c cs IH]; intros g; simpl.
  - split; [by left|]. intros [?|(c & Hc & _)]; [done|]. by apply elem_of_nil in Hc.
  - rewrite IH. destruct (Testapp1.instantiate bindings c) as [t'|] eqn:Hc.
    + rewrite elem_of_add. split.
      * intros [[->|?]|(c' & Hc' & Ht)]; [|by left|].
        -- right. exists c. split; [left|done].
        -- right. exists c'. split; [by right|done].
      * intros [?|(c' & [->|Hc']%elem_of_cons & Ht)]; [by left; right| |].
        -- left. left. congruence.
        -- right. by exists c'.
    + split.
      * intros [?|(c' & Hc' & Ht)]; [by left|]. right. exists c'. split; [by right|done].
      * intros [?|(c' & [->|Hc']%elem_of_cons & Ht)]; [by left|congruence|].
        right. by exists c'.
Qed.

Lemma elem_of_apply_results var_map consequent results (g : Graph) (t : Triple) :
  t ∈ Testapp1.apply_results var_map consequent results g ↔
  t ∈ g ∨ ∃ r bindings c, r ∈ pulled var_map consequent results g
                          ∧ Testapp1.make_bindings var_map r = Some bindings
                          ∧ c ∈ consequent ∧ Testapp1.instantiate bindings c = Some t.
Proof.
  revert g. induction results as [| |row rest IH]; intros g; simpl.
  - split; [by left|]. intros [?|(r & b & c & Hr & _)]; [done|]. by apply elem_of_nil in Hr.
  - split; [by left|]. intros [?|(r & b & c & Hr & _)]; [done|]. by apply elem_of_nil in Hr.
  - destruct (Testapp1.make_bindings var_map row) as [b|] eqn:Hb.
    + rewrite IH, elem_of_apply_consequent. split.
      * intros [[?|(c & Hc & Ht)]|(r' & b' & c & Hr & Hb' & Hc & Ht)]; [by left| |].
        -- right. exists row, b, c. split_and!; [left|done..].
        -- right. exists r', b', c. split_and!; [by right|done..].
      * intros [?|(r' & b' & c & [->|Hr]%elem_of_cons & Hb' & Hc & Ht)]; [by left; left| |].
        -- left. right. exists c. split; [done|]. congruence.
        -- right. by exists r', b', c.
    + split; [by left|].
      intros [?|(r' & b' & c & [->|Hr]%elem_of_cons & Hb' & _)]; [done|congruence|].
      by apply elem_of_nil in Hr.
Qed.

Lemma raises_no_arrow (g : Graph) (rule : string) :
  Py.contains "=>" rule = false → raises query g rule.
Proof. intros Hno. unfold raises. by rewrite (parse_no_arrow rule Hno). Qed.

Lemma apply_rule_raises (g : Graph) (rule : string) :
  raises query g rule → Testapp1.apply_rule query g rule = g.
Proof.
  unfold raises, Testapp1.apply_rule.
  destruct (Testapp1.parse_cwm_rule rule) as [[ant cons]|]; [|done].
  destruct (Testapp1.build_query ant [] []) as [[vm parts]|]; [|done].
  by destruct (query g _) as [[| |]|].
Qed.

(** What a line adds when it parses and the engine answers its query: the
    instances of the consequent clauses under the bindings of each row that
    the loop gets. *)
Lemma elem_of_apply_rule (g : Graph) (rule : string) antecedent consequent
    var_map query_parts results (t : Triple) :
  Testapp1.parse_cwm_rule rule = Some (antecedent, consequent) →
  Testapp1.build_query antecedent [] [] = Some (var_map, query_parts) →
  query g (Testapp1.query_str query_parts) = Some results →
  t ∈ Testapp1.apply_rule query g rule ↔
  t ∈ g ∨ ∃ r bindings c, r ∈ pulled var_map consequent results g
                          ∧ Testapp1.make_bindings var_map r = Some bindings
                          ∧ c ∈ consequent ∧ Testapp1.instantiate bindings c = Some t.
Proof.
  intros Hparse Hbuild Hquery. unfold Testapp1.apply_rule.
  rewrite Hparse, Hbuild, Hquery. by apply elem_of_apply_results.
Qed.

(** C5. The CWM tier skips a rule line that fails and goes on with the
    next.  A line without [=>], or any line that raises before it adds,
    leaves the new graph as it is, so the batch returns the graph that its
    other lines give without it.  The derivations of a valid line that
    comes after it are in the graph that is returned: for every row that the
    loop over the result of its query gets, every instance of a clause of
    its consequent. *)
Theorem cwm_malformed_line_skipped (h : gmap nat Graph) (graph : nat) (G : Graph)
    (text : string) (pre post : list string) (bad : string) :
  h !! graph = Some G →
  Py.nonblank_lines text = pre ++ bad :: post →
  Py.contains "=>" bad = false
  ∨ raises query (cwm_loop query (add_all (graph_iter G) []) pre) bad →
  Testapp1.apply_rule query (cwm_loop query (add_all (graph_iter G) []) pre) bad
  = cwm_loop query (add_all (graph_iter G) []) pre
  ∧ (Testapp1.apply_cwm_rules query graph_iter h graph text).1
      !! (Testapp1.apply_cwm_rules query graph_iter h graph text).2
    = Some (cwm_loop query (add_all (graph_iter G) []) (pre ++ post))
  ∧ ∀ good post' antecedent consequent var_map query_parts results,
      post = good :: post' →
      Testapp1.parse_cwm_rule good = Some (antecedent, consequent) →
      Testapp1.build_query antecedent [] [] = Some (var_map, query_parts) →
      query (cwm_loop query (add_all (graph_iter G) []) pre)
            (Testapp1.query_str query_parts) = Some results →
      ∀ row bindings c t,
        row ∈ pulled var_map consequent results
                (cwm_loop query (add_all (graph_iter G) []) pre) →
        Testapp1.make_bindings var_map row = Some bindings →
        c ∈ consequent →
        Testapp1.instantiate bindings c = Some t →
        t ∈ cwm_loop query (add_all (graph_iter G) []) (pre ++ post).
Proof.
  intros Hg Hlines Hbad.
  assert (raises query (cwm_loop query (add_all (graph_iter G) []) pre) bad) as Hraises.
  { destruct Hbad as [Hno|?]; [by apply raises_no_arrow|done]. }
  apply apply_rule_raises in Hraises. split_and!; [done| |].
  - rewrite (apply_cwm_rules_result h graph G text); [| |done].
    + simpl. rewrite lookup_insert_eq, Hlines. unfold cwm_loop in *.
      rewrite !foldl_app. simpl. by rewrite Hraises.
    + intros ->. by destruct pre.
  - intros good post' ant cons vm parts results -> Hparse Hbuild Hquery
           row b c t Hrow Hb Hc Ht.
    rewrite cwm_loop_app. change (cwm_loop query ?g (good :: post'))
      with (cwm_loop query (Testapp1.apply_rule query g good) post').
    apply cwm_loop_grows.
    apply (elem_of_apply_rule _ good ant cons vm parts results t Hparse Hbuild Hquery).
    right. by exists row, b, c.
Qed.

(** C7. The CWM tier is monotone: every triple of the input graph is in the
    graph it returns, whatever the rules text, whatever the engine answers
    and in whatever order the store yields the triples. *)
Theorem cwm_monotone (h : gmap nat Graph) (graph : nat) (G : Graph)
    (text : string) (t : Triple) :
  store_order graph_iter →
  h !! graph = Some G →
  t ∈ G →
  ∃ G', (Testapp1.apply_cwm_rules query graph_iter h graph text).1
          !! (Testapp1.apply_cwm_rules query graph_iter h graph text).2 = Some G'
        ∧ t ∈ G'.
Proof.
  intros Horder Hg Hin. destruct (decide (text = EmptyString)) as [->|Hne].
  - exists G. by split.
  - rewrite (apply_cwm_rules_result h graph G text) by done. simpl.
    rewrite lookup_insert_eq. eexists. split; [done|].
    apply cwm_loop_grows, elem_of_add_all. left. by rewrite (Horder G).
Qed.

(** C10. [apply_cwm_rules] leaves its input graph object as it is.  With an
    empty rules text it returns that object and changes nothing.  Otherwise
    it returns a new object, not allocated before, that holds the input
    triples and what the rules derive; no other object changes. *)
Theorem cwm_input_untouched (h : gmap nat Graph) (graph : nat) (G : Graph) (text : string) :
  h !! graph = Some G →
  (Testapp1.apply_cwm_rules query graph_iter h graph text).1 !! graph = Some G
  ∧ (text = EmptyString →
     Testapp1.apply_cwm_rules query graph_iter h graph text = (h, graph))
  ∧ (text ≠ EmptyString →
       h !! (Testapp1.apply_cwm_rules query graph_iter h graph text).2 = None
       ∧ (∀ l, l ≠ (Testapp1.apply_cwm_rules query graph_iter h graph text).2 →
            (Testapp1.apply_cwm_rules query graph_iter h graph text).1 !! l = h !! l)
       ∧ (Testapp1.apply_cwm_rules query graph_iter h graph text).1
           !! (Testapp1.apply_cwm_rules query graph_iter h graph text).2
         = Some (cwm_loop query (add_all (graph_iter G) []) (Py.nonblank_lines text))
       ∧ (store_order graph_iter →
          ∀ t, t ∈ G →
               t ∈ cwm_loop query (add_all (graph_iter G) []) (Py.nonblank_lines text))).
Proof.
  intros Hg. destruct (decide (text = EmptyString)) as [->|Hne].
  - split_and!; [done|done|done].
  - rewrite (apply_cwm_rules_result h graph G text) by done. simpl.
    assert (graph ≠ fresh (dom h)) as Hfresh.
    { intros Heq. pose proof (fresh_not_allocated h) as Hnone. congruence. }
    split_and!.
    + by rewrite lookup_insert_ne.
    + done.
    + intros _. split_and!.
      * apply fresh_not_allocated.
      * intros l Hl. by rewrite lookup_insert_ne.
      * apply lookup_insert_eq.
      * intros Horder t Ht. apply cwm_loop_grows, elem_of_add_all. left.
        by rewrite (Horder G).
Qed.

End CwmProps.

Lemma store_order_id : store_order (λ g, g).
Proof. by intros g. Qed.

Lemma cwm_malformed_line_skipped_witness :
  ∃ G', (Testapp1.apply_cwm_rules hasAuthor_engine (λ g, g) heap1 0 rules_bad_then_good).1
          !! (Testapp1.apply_cwm_rules hasAuthor_engine (λ g, g) heap1 0
                rules_bad_then_good).2
        = Some G'
        ∧ (ex "Alice", EX_wrote, ex "Book1") ∈ G'.
Proof.
  assert (heap1 !! 0 = Some scenario1) as H1 by (vm_compute; reflexivity).
  assert (Py.nonblank_lines rules_bad_then_good
          = [] ++ "?x hasAuthor ?y ?y wrote ?x" :: ["?x hasAuthor ?y => ?y wrote ?x"])
    as H2 by (vm_compute; reflexivity).
  assert (Py.contains "=>" "?x hasAuthor ?y ?y wrote ?x" = false) as H3
    by (vm_compute; reflexivity).
  destruct (cwm_malformed_line_skipped hasAuthor_engine (λ g, g) heap1 0 scenario1
              rules_bad_then_good [] ["?x hasAuthor ?y => ?y wrote ?x"]
              "?x hasAuthor ?y ?y wrote ?x" H1 H2 (or_introl H3)) as (_ & Hout & Hgood).
  eexists. split; [exact Hout|].
  apply (Hgood "?x hasAuthor ?y => ?y wrote ?x" []
           [("?x", "hasAuthor", "?y")] [("?y", "wrote", "?x")]
           [("?x", "x"); ("?y", "y")] ["?x ex:hasAuthor ?y"]
           (rows_of ((λ ba, ResultRow_new [("x", ba.1); ("y", ba.2)] ["x"; "y"])
                       <$> subject_objects EX_hasAuthor scenario1))
           eq_refl eq_refl eq_refl eq_refl
           (ResultRow_new [("x", ex "Book1"); ("y", ex "Alice")] ["x"; "y"])
           [("?x", Some (ex "Book1")); ("?y", Some (ex "Alice"))]
           ("?y", "wrote", "?x")).
  - vm_compute. left.
  - reflexivity.
  - left.
  - reflexivity.
Defined.

(** Scenario 5 on the engine of the example: the malformed first line is
    skipped and the two inversions of the valid line are in the output. *)
Example cwm_bad_then_good :
  (Testapp1.apply_cwm_rules hasAuthor_engine (λ g, g) heap1 0 rules_bad_then_good).1
    !! (Testapp1.apply_cwm_rules hasAuthor_engine (λ g, g) heap1 0 rules_bad_then_good).2
  = Some (scenario1 ++ [(ex "Alice", EX_wrote, ex "Book1");
                        (ex "Alice", EX_wrote, ex "Book2")]).
Proof. vm_compute. reflexivity. Qed.

Lemma cwm_monotone_witness :
  heap1 !! 0 = Some scenario1
  ∧ (ex "Loan1", EX_borrowedBy, ex "Bob") ∈ scenario1
  ∧ ∃ G', (Testapp1.apply_cwm_rules hasAuthor_engine (λ g, g) heap1 0
             rules_bad_then_good).1
            !! (Testapp1.apply_cwm_rules hasAuthor_engine (λ g, g) heap1 0
                  rules_bad_then_good).2
          = Some G'
          ∧ (ex "Loan1", EX_borrowedBy, ex "Bob") ∈ G'.
Proof.
  assert (heap1 !! 0 = Some scenario1) as H1 by (vm_compute; reflexivity).
  assert ((ex "Loan1", EX_borrowedBy, ex "Bob") ∈ scenario1) as H2 by compute_done.
  split_and!; [done|done|].
  exact (cwm_monotone hasAuthor_engine (λ g, g) heap1 0 scenario1 rules_bad_then_good
           (ex "Loan1", EX_borrowedBy, ex "Bob") store_order_id H1 H2).
Defined.

Lemma cwm_input_untouched_witness :
  heap1 !! 0 = Some scenario1
  ∧ (Testapp1.apply_cwm_rules hasAuthor_engine (λ g, g) heap1 0 rules_bad_then_good).1 !! 0
    = Some scenario1.
Proof.
  assert (heap1 !! 0 = Some scenario1) as H1 by (vm_compute; reflexivity).
  split; [done|].
  exact (proj1 (cwm_input_untouched hasAuthor_engine (λ g, g) heap1 0 scenario1
                  rules_bad_then_good H1)).
Defined.

(** ** Tokens of a CWM rule *)

Lemma actual_bare bindings (tok : string) :
  Testapp1.is_var tok = false → Testapp1.actual bindings tok = Some (URIRef (EX +:+ tok)).
Proof. intros Hv. unfold Testapp1.actual. by rewrite Hv. Qed.

(** C6 on the code.  A consequent token that is not a variable is always
    appended to the namespace, also when it begins with [http://]: the rule
    [?x hasAuthor ?y => ?y http://localhost/wrote ?x] derives a triple whose
    predicate is the namespace followed by the whole token.  In the
    antecedent only the predicate is resolved; a bare subject or object
    goes into the query text as it is. *)
Theorem consequent_scheme_not_checked :
  Testapp1.instantiate [("?x", Some (ex "Book1")); ("?y", Some (ex "Alice"))]
    ("?y", "http://localhost/wrote", "?x")
  = Some (ex "Alice", URIRef "http://users.jyu.fi/~tanibir/http://localhost/wrote", ex "Book1")
  ∧ Testapp1.apply_rule hasAuthor_engine [(ex "Book1", EX_hasAuthor, ex "Alice")]
      "?x hasAuthor ?y => ?y http://localhost/wrote ?x"
    = [(ex "Book1", EX_hasAuthor, ex "Alice");
       (ex "Alice", URIRef "http://users.jyu.fi/~tanibir/http://localhost/wrote", ex "Book1")]
  ∧ Testapp1.build_query [("Book1", "hasAuthor", "?y")] [] []
    = Some ([("?y", "y")], ["Book1 ex:hasAuthor ?y"])
  ∧ Testapp1.build_query [("?x", "http://localhost/p", "?y")] [] []
    = Some ([("?x", "x"); ("?y", "y")], ["?x http://localhost/p ?y"]).
Proof. split_and!; vm_compute; reflexivity. Qed.

(** ** SELECT projection *)

Lemma label_index_imap (labels : list string) (k : nat) (name : string) :
  match label_index (imap (λ i v, (v, k + i)) labels) name with
  | Some j => ∃ i, j = k + i ∧ labels !! i = Some name
  | None => name ∉ labels
  end.
Proof.
  revert k. induction labels as [|v labels IH]; intros k.
  - simpl. apply not_elem_of_nil.
  - rewrite imap_cons. cbn [label_index].
    rewrite (imap_ext _ (λ i v, (v, S k + i)) labels) by (intros; simpl; f_equal; lia).
    specialize (IH (S k)). destruct (label_index _ name) as [j|].
    + destruct IH as (i & -> & Hi). exists (S i). split; [lia|done].
    + destruct (decide (v = name)) as [->|Hne].
      * exists 0. split; [lia|done].
      * by intros [?|?]%elem_of_cons.
Qed.

Lemma row_getitem_new (values : Solution) (labels : list string) (name : string) :
  name ∈ labels →
  row_getitem (ResultRow_new values labels) name = Some (solution_get values name).
Proof.
  intros Hin. unfold row_getitem, ResultRow_new. simpl.
  pose proof (label_index_imap labels 0 name) as H. simpl in H.
  destruct (label_index _ name) as [j|]; [|done].
  destruct H as (i & -> & Hi). by rewrite list_lookup_fmap, Hi.
Qed.

Lemma updatedapp_select_rows (result : SelectResult) :
  Updatedapp.select_rows result
  = (λ b, rendered b <$> vars result) <$> solutions result.
Proof.
  unfold Updatedapp.select_rows, result_rows. rewrite <- list_fmap_compose.
  apply list_fmap_ext. intros _ b _. simpl.
  apply list_fmap_ext. intros i var Hvar. unfold row_get, rendered.
  rewrite row_getitem_new by (by apply list_elem_of_lookup_2 in Hvar).
  by destruct (solution_get b var).
Qed.

Lemma testapp_select_rows (result : SelectResult) :
  Testapp.select_rows result
  = Some ((λ b, rendered b <$> vars result) <$> solutions result).
Proof.
  unfold Testapp.select_rows, result_rows. apply mapM_Some.
  apply Forall2_fmap, Forall_Forall2_diag.
  apply Forall_forall. intros b _. simpl. apply mapM_Some.
  apply Forall2_fmap_r, Forall_Forall2_diag, Forall_forall. intros var Hvar.
  simpl. rewrite row_getitem_new by done. unfold rendered.
  by destruct (solution_get b var).
Qed.

(** C8 on the code.  The bound terms are rendered in the order of the
    header, a [URIRef] by its IRI and a [Literal] by its lexical form; a
    variable the row leaves unbound is rendered as the text [None] in both
    variants.  The ['N/A'] default of [updatedapp.py] is the default of
    [row.get], which applies to a name that is not a label of the row, and
    every header is one. *)
Theorem select_unbound_renders_None :
  Updatedapp.select_rows select_example
  = [["http://users.jyu.fi/~tanibir/Book1"; "None"]; ["None"; "Ann"]]
  ∧ Testapp.select_rows select_example
    = Some [["http://users.jyu.fi/~tanibir/Book1"; "None"]; ["None"; "Ann"]].
Proof. split; vm_compute; reflexivity. Qed.

(** * Further properties *)

(** ** Which rule gives which predicate *)

Lemma never_of_predicate_is (p q : Term) (d : Graph → list Triple) :
  predicate_is q d → q ≠ p → never_predicate p d.
Proof. intros Hd Hne g t Ht. apply Hd in Ht. congruence. Qed.

Lemma never_author (p : Term) :
  p ≠ EX_wrote → p ≠ EX_writtenBy → never_predicate p derive_author.
Proof.
  intros H1 H2 g t (book & author & _ & [->| ->])%elem_of_derive_author;
    unfold predicate_of; simpl; congruence.
Qed.

Lemma derive_wrote_predicate : predicate_is EX_wrote derive_wrote.
Proof. by intros g t (book & author & _ & ->)%elem_of_derive_wrote. Qed.

Lemma run_only (p : Term) (D : Graph → list Triple)
    (ds : list (Graph → list Triple)) (g : Graph) (t : Triple) :
  Forall Derivation ds →
  Forall (λ d, d = D ∨ never_predicate p d) ds →
  t ∈ run ds g → predicate_of t = p → t ∈ g ∨ t ∈ D g.
Proof.
  intros Hds Hall [Ht|(d & Hd & Ht)]%elem_of_run Hp; [by left| |done].
  destruct (proj1 (Forall_forall _ _) Hall d Hd) as [->|Hnever]; [by right|].
  by destruct (Hnever g t Ht).
Qed.

Lemma run_never (p : Term) (ds : list (Graph → list Triple)) (g : Graph) (t : Triple) :
  Forall Derivation ds → Forall (never_predicate p) ds →
  t ∈ run ds g → predicate_of t = p → t ∈ g.
Proof.
  intros Hds Hall [Ht|(d & Hd & Ht)]%elem_of_run Hp; [done| |done].
  by destruct (proj1 (Forall_forall _ _) Hall d Hd g t Ht).
Qed.

(** The steps of a tier other than the one that gives predicate [p]. *)
Ltac solve_never :=
  first
    [ apply never_author; compute_done
    | eapply never_of_predicate_is;
      [ first [ apply derive_wrote_predicate
              | apply derive_related_predicate
              | apply derive_frequent_predicate
              | apply derive_expertise_predicate
              | apply derive_recommend_predicate
              | apply derive_prefer_predicate ]
      | compute_done ] ].

Ltac solve_pipeline :=
  simpl;
  unfold testapp_advanced_pipeline, testapp_basic_pipeline,
    testapp1_advanced_pipeline, testapp1_basic_pipeline; simpl;
  repeat first [ apply Forall_nil_2 | apply Forall_cons_2 ];
  first [ by left | right; solve_never | solve_never ].

(** ** Rule 2: related books *)

Lemma genre_books_group (g : Graph) :
  genre_books g = group (subject_objects EX_hasGenre g).
Proof. unfold genre_books, group. apply foldl_fun_ext. by intros d [book genre]. Qed.

Lemma elem_of_derive_related (t : Triple) (g : Graph) :
  t ∈ derive_related g ↔
  ∃ book1 book2, book1 ≠ book2 ∧ share_genre g book1 book2
                 ∧ t = (book1, EX_relatedTo, book2).
Proof.
  unfold derive_related, share_genre. rewrite list_elem_of_bind, genre_books_group. split.
  - intros ([genre books] & Ht & [-> _]%elem_of_group). simpl in Ht.
    apply list_elem_of_bind in Ht as (b1 & Ht & Hb1).
    apply list_elem_of_bind in Ht as (b2 & Ht & Hb2).
    destruct (decide (b1 ≠ b2)) as [Hne|]; [|by apply elem_of_nil in Ht].
    apply list_elem_of_singleton in Ht. exists b1, b2. split; [done|]. split; [|done].
    rewrite values_of_subject_objects in Hb1, Hb2.
    apply elem_of_subjects in Hb1 as (o1 & -> & Hb1).
    apply elem_of_subjects in Hb2 as (o2 & -> & Hb2). by exists genre.
  - intros (b1 & b2 & Hne & (genre & H1 & H2) & ->).
    assert (b1 ∈ values_of genre (subject_objects EX_hasGenre g)) as Hb1.
    { rewrite values_of_subject_objects. apply elem_of_subjects. by exists genre. }
    assert (b2 ∈ values_of genre (subject_objects EX_hasGenre g)) as Hb2.
    { rewrite values_of_subject_objects. apply elem_of_subjects. by exists genre. }
    exists (genre, values_of genre (subject_objects EX_hasGenre g)). split.
    + simpl. apply list_elem_of_bind. exists b1. split; [|done].
      apply list_elem_of_bind. exists b2. split; [|done].
      rewrite decide_True by done. by apply list_elem_of_singleton.
    + apply elem_of_group. split; [done|]. intros Hnil. rewrite Hnil in Hb1.
      by apply elem_of_nil in Hb1.
Qed.

Lemma tier_related_only lb (tier : Tier) :
  Forall (λ d, d = derive_related ∨ never_predicate EX_relatedTo d)
         (tier_pipeline lb tier).
Proof. destruct tier; solve_pipeline. Qed.

Lemma tier_has_related lb (tier : Tier) : derive_related ∈ tier_pipeline lb tier.
Proof.
  destruct tier; unfold tier_pipeline, testapp_advanced_pipeline, testapp_basic_pipeline,
    testapp1_advanced_pipeline, testapp1_basic_pipeline; simpl;
    rewrite !elem_of_cons; tauto.
Qed.

(** X1. Rule 2 in every fixed tier of both variants: a [relatedTo] triple is
    in the output exactly when it is in the input or links two different
    books that share a genre.  So the derived relation is symmetric and no
    book becomes related to itself. *)
Theorem related_books_symmetric
    (literal_bool : string → option string → option LangTag → bool)
    (tier : Tier) (G : Graph) (book1 book2 : Term) :
  ((book1, EX_relatedTo, book2) ∈ tier_apply literal_bool tier G ↔
   (book1, EX_relatedTo, book2) ∈ G ∨ (book1 ≠ book2 ∧ share_genre G book1 book2))
  ∧ (book1 ≠ book2 ∧ share_genre G book1 book2 →
     (book2, EX_relatedTo, book1) ∈ tier_apply literal_bool tier G)
  ∧ ((book1, EX_relatedTo, book1) ∈ tier_apply literal_bool tier G →
     (book1, EX_relatedTo, book1) ∈ G).
Proof.
  assert (∀ b1 b2,
            (b1, EX_relatedTo, b2) ∈ tier_apply literal_bool tier G ↔
            (b1, EX_relatedTo, b2) ∈ G ∨ (b1 ≠ b2 ∧ share_genre G b1 b2)) as Hiff.
  { intros b1 b2. rewrite tier_run. split.
    - intros Ht.
      apply (run_only EX_relatedTo derive_related) in Ht as [?|Ht];
        [by left| |apply tier_pipeline_ok|apply tier_related_only|done].
      apply elem_of_derive_related in Ht as (x & y & Hne & Hsh & [= -> ->]). by right.
    - intros [?|[Hne Hsh]]; apply elem_of_run;
        [apply tier_pipeline_ok|by left|apply tier_pipeline_ok|].
      right. exists derive_related. split; [apply tier_has_related|].
      apply elem_of_derive_related. by exists b1, b2. }
  split_and!; [apply Hiff| |].
  - intros [Hne (genre & H1 & H2)]. apply Hiff. right. split; [done|]. by exists genre.
  - intros [?|[Hne _]]%Hiff; done.
Qed.

Lemma related_books_symmetric_witness :
  (ex "Book1" ≠ ex "Book2" ∧ share_genre scenario1 (ex "Book1") (ex "Book2"))
  ∧ (ex "Book2", EX_relatedTo, ex "Book1") ∈ Testapp1.apply_basic_library_rules scenario1.
Proof.
  assert (ex "Book1" ≠ ex "Book2" ∧ share_genre scenario1 (ex "Book1") (ex "Book2")) as H.
  { split; [compute_done|]. exists (ex "SciFi"). split; compute_done. }
  split; [done|].
  exact (proj1 (proj2 (related_books_symmetric (λ _ _ _, true) Testapp1_basic scenario1
                         (ex "Book1") (ex "Book2"))) H).
Defined.

(** ** What every fixed tier keeps *)

(** X2. Every fixed tier only adds: each input triple is in the output, a
    graph without duplicates stays so, and no triple of a relation the
    rules read ([hasAuthor], [hasGenre], [borrowedBy], [prefersGenre], the
    [rdf:type] of [Book], [Loan] and [User]) is ever added. *)
Theorem fixed_tiers_frame
    (literal_bool : string → option string → option LangTag → bool)
    (tier : Tier) (G : Graph) :
  (∀ t, t ∈ G → t ∈ tier_apply literal_bool tier G)
  ∧ (NoDup G → NoDup (tier_apply literal_bool tier G))
  ∧ (∀ t, t ∈ tier_apply literal_bool tier G → is_source t → t ∈ G)
  ∧ sources (tier_apply literal_bool tier G) = sources G.
Proof.
  rewrite tier_run.
  assert (sources (run (tier_pipeline literal_bool tier) G) = sources G) as Hsrc
    by apply sources_run, tier_pipeline_ok.
  split_and!; [| | |done].
  - intros t Ht. apply elem_of_run; [apply tier_pipeline_ok|by left].
  - apply NoDup_run.
  - intros t Ht Hs.
    assert (t ∈ sources (run (tier_pipeline literal_bool tier) G)) as Hin
      by (by apply list_elem_of_filter).
    rewrite Hsrc in Hin. by apply list_elem_of_filter in Hin as [_ ?].
Qed.

(** ** Dictionaries of sets *)

Lemma elem_of_set_add {V : Type} `{EqDecision V} (v v' : V) (vs : list V) :
  v' ∈ (if decide (v ∈ vs) then vs else vs ++ [v]) ↔ v' = v ∨ v' ∈ vs.
Proof.
  destruct (decide (v ∈ vs)) as [Hin|Hnin].
  - split; [by right|]. by intros [->|?].
  - rewrite elem_of_app, list_elem_of_singleton. tauto.
Qed.

Lemma dict_set_add_has {V : Type} `{EqDecision V} (k k' : Term) (v v' : V)
    (d : list (Term * list V)) :
  dict_has (dict_set_add k v d) k' v' ↔ (k' = k ∧ v' = v) ∨ dict_has d k' v'.
Proof.
  unfold dict_has. induction d as [|[k0 vs0] d IH]; cbn [dict_set_add].
  - split.
    + intros (vs & [= -> ->]%list_elem_of_singleton & ->%list_elem_of_singleton).
      by left.
    + intros [[-> ->]|(vs & []%elem_of_nil & _)].
      exists [v]. split; by apply list_elem_of_singleton.
  - destruct (decide (k = k0)) as [->|Hne].
    + split.
      * intros (vs & Hin & Hv). apply elem_of_cons in Hin as [Heq|Hin].
        -- injection Heq as -> ->. apply elem_of_set_add in Hv as [->|Hv]; [by left|].
           right. exists vs0. split; [left|done].
        -- right. exists vs. split; [by right|done].
      * intros [[-> ->]|(vs & Hin & Hv)].
        -- eexists. split; [left|]. apply elem_of_set_add. by left.
        -- apply elem_of_cons in Hin as [Heq|Hin].
           ++ injection Heq as -> ->. eexists. split; [left|].
              apply elem_of_set_add. by right.
           ++ exists vs. split; [by right|done].
    + split.
      * intros (vs & Hin & Hv). apply elem_of_cons in Hin as [Heq|Hin].
        -- injection Heq as -> ->. right. exists vs0. split; [left|done].
        -- destruct (proj1 IH) as [?|(vs' & ? & ?)]; [by exists vs|by left|].
           right. exists vs'. split; [by right|done].
      * intros [Heq|(vs & Hin & Hv)].
        -- destruct (proj2 IH (or_introl Heq)) as (vs & ? & ?).
           exists vs. split; [by right|done].
        -- apply elem_of_cons in Hin as [Heq|Hin].
           ++ injection Heq as -> ->. exists vs0. split; [left|done].
           ++ destruct (proj2 IH) as (vs' & ? & ?); [right; by exists vs|].
              exists vs'. split; [by right|done].
Qed.

Lemma collect_has {X V : Type} `{EqDecision V} (f : X → option (Term * V))
    (d : list (Term * list V)) (l : list X) (k : Term) (v : V) :
  dict_has (collect f d l) k v ↔ dict_has d k v ∨ ∃ x, x ∈ l ∧ f x = Some (k, v).
Proof.
  unfold collect. revert d. induction l as [|x l IH]; intros d; simpl.
  - split; [by left|]. intros [?|(x & []%elem_of_nil & _)]. done.
  - rewrite IH. destruct (f x) as [[k0 v0]|] eqn:Hx.
    + rewrite dict_set_add_has. split.
      * intros [[[-> ->]|?]|(y & Hy & Hfy)]; [|by left|].
        -- right. exists x. split; [left|done].
        -- right. exists y. split; [by right|done].
      * intros [?|(y & [->|Hy]%elem_of_cons & Hfy)]; [by left; right| |].
        -- left. left. rewrite Hx in Hfy. by injection Hfy as -> ->.
        -- right. by exists y.
    + split.
      * intros [?|(y & Hy & Hfy)]; [by left|]. right. exists y. split; [by right|done].
      * intros [?|(y & [->|Hy]%elem_of_cons & Hfy)]; [by left|congruence|].
        right. by exists y.
Qed.

Lemma dict_has_nil {V : Type} (k : Term) (v : V) : ¬ dict_has [] k v.
Proof. by intros (vs & []%elem_of_nil & _). Qed.

Lemma elem_of_objects (s : option Term) (p o : Term) (g : Graph) :
  o ∈ objects s p g ↔ ∃ s', pos_matches s s' ∧ (s', p, o) ∈ g.
Proof.
  unfold objects, triples. rewrite list_elem_of_fmap. split.
  - intros ([[s' p'] o'] & -> & [(Hs & Hp & _) Hin]%list_elem_of_filter).
    unfold predicate_of, object_of, subject_of in *. simpl in *. subst. by exists s'.
  - intros (s' & Hs & Hin). exists (s', p, o). split; [done|].
    apply list_elem_of_filter. split; [|done]. by repeat split.
Qed.

Lemma no_objects (p : Term) (g : Graph) (s o : Term) :
  next_or_None (objects None p g) = None → (s, p, o) ∉ g.
Proof.
  intros Hnone Hin.
  assert (o ∈ objects None p g) as Ho by (apply elem_of_objects; by exists s).
  unfold next_or_None in Hnone. destruct (objects None p g); [|done].
  by apply elem_of_nil in Ho.
Qed.

(** ** The advanced rules *)

Section AdvancedRules.
Variable literal_bool : string → option string → option LangTag → bool.

Lemma author_genres_collect (g : Graph) :
  Testapp.author_genres literal_bool g
  = collect (first_author_genre literal_bool g) [] (subjects RDF_type (Some EX_Book) g).
Proof.
  unfold Testapp.author_genres, collect. apply foldl_fun_ext. intros d book.
  unfold first_author_genre.
  destruct (next_or_None (objects (Some book) EX_hasAuthor g)) as [a|]; [|done].
  destruct (next_or_None (objects (Some book) EX_hasGenre g)) as [ge|]; [|done].
  by destruct (truthy literal_bool a && truthy literal_bool ge).
Qed.

Lemma member_genres_collect (g : Graph) :
  Testapp.member_genres literal_bool g
  = collect (first_borrower_genre literal_bool g) [] (subjects RDF_type (Some EX_Loan) g).
Proof.
  unfold Testapp.member_genres, collect. apply foldl_fun_ext. intros d loan.
  unfold first_borrower_genre.
  destruct (next_or_None (objects (Some loan) EX_borrowedBy g)) as [m|]; [|done].
  by destruct (truthy literal_bool m).
Qed.

Lemma typed_subject (c s : Term) (g : Graph) :
  s ∈ subjects RDF_type (Some c) g ↔ (s, RDF_type, c) ∈ g.
Proof.
  rewrite elem_of_subjects. split; [by intros (o & -> & ?)|]. intros Hin. by exists c.
Qed.

Lemma elem_of_derive_expertise (t : Triple) (g : Graph) :
  t ∈ derive_expertise literal_bool g ↔
  ∃ book a ge, (book, RDF_type, EX_Book) ∈ g
               ∧ first_author_genre literal_bool g book = Some (a, ge)
               ∧ t = (a, EX_hasExpertise, ge).
Proof.
  unfold derive_expertise. rewrite list_elem_of_bind. split.
  - intros ([a genres] & (ge & -> & Hge)%list_elem_of_fmap & Hin). simpl in *.
    assert (dict_has (Testapp.author_genres literal_bool g) a ge) as Hhas
      by (by exists genres).
    rewrite author_genres_collect in Hhas.
    apply collect_has in Hhas as [[]%dict_has_nil|(book & Hbook%typed_subject & Hf)].
    by exists book, a, ge.
  - intros (book & a & ge & Hbook%typed_subject & Hf & ->).
    assert (dict_has (Testapp.author_genres literal_bool g) a ge) as (genres & Hin & Hge).
    { rewrite author_genres_collect. apply collect_has. right. by exists book. }
    exists (a, genres). split; [|done]. simpl. apply list_elem_of_fmap. by exists ge.
Qed.

Lemma elem_of_derive_recommend (t : Triple) (g : Graph) :
  t ∈ derive_recommend literal_bool g ↔
  ∃ loan member genre book,
    (loan, RDF_type, EX_Loan) ∈ g
    ∧ next_or_None (objects (Some loan) EX_borrowedBy g) = Some member
    ∧ truthy literal_bool member = true
    ∧ next_or_None (objects None EX_hasGenre g) = Some genre
    ∧ (book, EX_hasGenre, genre) ∈ g
    ∧ t = (book, EX_recommendedFor, member).
Proof.
  unfold derive_recommend. rewrite list_elem_of_bind. split.
  - intros ([m genres] & (og & Ht & Hog)%list_elem_of_bind & Hin). simpl in *.
    assert (dict_has (Testapp.member_genres literal_bool g) m og) as Hhas
      by (by exists genres).
    rewrite member_genres_collect in Hhas.
    apply collect_has in Hhas as [[]%dict_has_nil|(loan & Hloan%typed_subject & Hf)].
    unfold first_borrower_genre in Hf.
    destruct (next_or_None (objects (Some loan) EX_borrowedBy g)) as [m'|] eqn:Hm; [|done].
    destruct (truthy literal_bool m') eqn:Htrue; [|done]. injection Hf as -> <-.
    apply list_elem_of_fmap in Ht as (book & -> & Hbook).
    apply elem_of_subjects in Hbook as (ge & Hmatch & Hbook).
    destruct (next_or_None (objects None EX_hasGenre g)) as [first|] eqn:Hfirst.
    + simpl in Hmatch. subst ge. by exists loan, m, first, book.
    + by destruct (no_objects EX_hasGenre g book ge Hfirst).
  - intros (loan & m & ge & book & Hloan%typed_subject & Hm & Htrue & Hfirst & Hbook & ->).
    assert (dict_has (Testapp.member_genres literal_bool g) m (Some ge))
      as (genres & Hin & Hge).
    { rewrite member_genres_collect. apply collect_has. right. exists loan.
      split; [done|]. unfold first_borrower_genre. by rewrite Hm, Htrue, Hfirst. }
    exists (m, genres). split; [|done]. simpl. apply list_elem_of_bind.
    exists (Some ge). split; [|done]. apply list_elem_of_fmap. exists book.
    split; [done|]. apply elem_of_subjects. by exists ge.
Qed.

Lemma elem_of_derive_prefer (t : Triple) (g : Graph) :
  t ∈ derive_prefer literal_bool g ↔
  ∃ user genre book,
    (user, RDF_type, EX_User) ∈ g
    ∧ next_or_None (objects (Some user) EX_prefersGenre g) = Some genre
    ∧ truthy literal_bool genre = true
    ∧ (book, EX_hasGenre, genre) ∈ g
    ∧ t = (book, EX_recommendedFor, user).
Proof.
  unfold derive_prefer, prefer_for. rewrite list_elem_of_bind. split.
  - intros (user & Ht & Huser%typed_subject).
    destruct (next_or_None _) as [pg|] eqn:Hpg; [|by apply elem_of_nil in Ht].
    destruct (truthy literal_bool pg) eqn:Htrue; [|by apply elem_of_nil in Ht].
    apply list_elem_of_fmap in Ht as (book & -> & (o & -> & Hbook)%elem_of_subjects).
    by exists user, pg, book.
  - intros (user & pg & book & Huser%typed_subject & Hpg & Htrue & Hbook & ->).
    exists user. split; [|done]. rewrite Hpg, Htrue.
    apply list_elem_of_fmap. exists book. split; [done|].
    apply elem_of_subjects. by exists pg.
Qed.

Lemma tier_expertise_only (tier : Tier) :
  Forall (λ d, d = derive_expertise literal_bool ∨ never_predicate EX_hasExpertise d)
         (tier_pipeline literal_bool tier).
Proof. destruct tier; solve_pipeline. Qed.

Lemma basic_never_expertise (tier : Tier) :
  is_advanced tier = false →
  Forall (never_predicate EX_hasExpertise) (tier_pipeline literal_bool tier).
Proof. destruct tier; intros [=]; solve_pipeline. Qed.

Lemma basic_never_recommends (tier : Tier) :
  is_advanced tier = false →
  Forall (never_predicate EX_recommendedFor) (tier_pipeline literal_bool tier).
Proof. destruct tier; intros [=]; solve_pipeline. Qed.

Lemma testapp_recommend_only :
  Forall (λ d, d = derive_recommend literal_bool ∨ never_predicate EX_recommendedFor d)
         (testapp_advanced_pipeline literal_bool).
Proof. solve_pipeline. Qed.

Lemma testapp1_prefer_only :
  Forall (λ d, d = derive_prefer literal_bool ∨ never_predicate EX_recommendedFor d)
         (testapp1_advanced_pipeline literal_bool).
Proof. solve_pipeline. Qed.

Lemma advanced_has_expertise (tier : Tier) :
  is_advanced tier = true →
  derive_expertise literal_bool ∈ tier_pipeline literal_bool tier.
Proof.
  destruct tier; intros [=]; simpl;
    unfold testapp_advanced_pipeline, testapp_basic_pipeline,
      testapp1_advanced_pipeline, testapp1_basic_pipeline; simpl;
    rewrite !elem_of_cons; tauto.
Qed.

End AdvancedRules.

Lemma first_author_genre_Some lb (g : Graph) (book a ge : Term) :
  first_author_genre lb g book = Some (a, ge) ↔
  next_or_None (objects (Some book) EX_hasAuthor g) = Some a
  ∧ next_or_None (objects (Some book) EX_hasGenre g) = Some ge
  ∧ truthy lb a = true ∧ truthy lb ge = true.
Proof.
  unfold first_author_genre.
  destruct (next_or_None (objects (Some book) EX_hasAuthor g)) as [a'|];
    [|split; [done|by intros [? _]]].
  destruct (next_or_None (objects (Some book) EX_hasGenre g)) as [ge'|];
    [|split; [done|by intros (_ & ? & _)]].
  destruct (truthy lb a') eqn:Ha, (truthy lb ge') eqn:Hge; simpl; split;
    try done; try (intros [= -> ->]; done);
    intros ([= ->] & [= ->] & ? & ?); congruence.
Qed.

(** X3. Author expertise in the advanced tiers of both variants: an
    [(author, hasExpertise, genre)] triple is in the output exactly when it
    is in the input or some typed [Book] has this author as the first of its
    authors and this genre as the first of its genres, both true values.
    Authors and genres of a book after the first give nothing, and the
    basic tiers add no [hasExpertise] triple. *)
Theorem author_expertise_first
    (literal_bool : string → option string → option LangTag → bool)
    (tier : Tier) (G : Graph) (author genre : Term) :
  (author, EX_hasExpertise, genre) ∈ tier_apply literal_bool tier G ↔
  (author, EX_hasExpertise, genre) ∈ G
  ∨ (is_advanced tier = true
     ∧ ∃ book, (book, RDF_type, EX_Book) ∈ G
               ∧ next_or_None (objects (Some book) EX_hasAuthor G) = Some author
               ∧ next_or_None (objects (Some book) EX_hasGenre G) = Some genre
               ∧ truthy literal_bool author = true
               ∧ truthy literal_bool genre = true).
Proof.
  rewrite tier_run. split.
  - intros Ht. destruct (is_advanced tier) eqn:Hadv.
    + apply (run_only EX_hasExpertise (derive_expertise literal_bool)) in Ht as [?|Ht];
        [by left| |apply tier_pipeline_ok|apply tier_expertise_only|done].
      apply elem_of_derive_expertise in Ht as (book & a & ge & Hbook & Hf & [= -> ->]).
      right. split; [done|]. exists book. split; [done|].
      by apply first_author_genre_Some.
    + left. by apply (run_never EX_hasExpertise (tier_pipeline literal_bool tier));
        [apply tier_pipeline_ok|apply basic_never_expertise| |].
  - intros [?|[Hadv (book & Hbook & Hrest)]]; apply elem_of_run;
      [apply tier_pipeline_ok|by left|apply tier_pipeline_ok|].
    right. exists (derive_expertise literal_bool).
    split; [by apply advanced_has_expertise|].
    apply elem_of_derive_expertise. exists book, author, genre.
    split; [done|]. split; [|done]. by apply first_author_genre_Some.
Qed.

(** X4. Recommendations in [testapp.py]: after the advanced tier a
    [(book, recommendedFor, member)] triple is in the output exactly when
    it is in the input or the member is the first borrower of some typed
    [Loan], a true value, and the book has the first genre found in the
    whole graph.  The genre does not depend on the loan or on the member.
    The basic tier adds no [recommendedFor] triple. *)
Theorem loan_recommendations
    (literal_bool : string → option string → option LangTag → bool)
    (G : Graph) (book member : Term) :
  ((book, EX_recommendedFor, member) ∈ Testapp.apply_advanced_library_rules literal_bool G ↔
   (book, EX_recommendedFor, member) ∈ G
   ∨ ∃ loan genre,
       (loan, RDF_type, EX_Loan) ∈ G
       ∧ next_or_None (objects (Some loan) EX_borrowedBy G) = Some member
       ∧ truthy literal_bool member = true
       ∧ next_or_None (objects None EX_hasGenre G) = Some genre
       ∧ (book, EX_hasGenre, genre) ∈ G)
  ∧ ((book, EX_recommendedFor, member) ∈ Testapp.apply_basic_library_rules G ↔
     (book, EX_recommendedFor, member) ∈ G).
Proof.
  split.
  - rewrite testapp_advanced_run. split.
    + intros Ht.
      apply (run_only EX_recommendedFor (derive_recommend literal_bool)) in Ht as [?|Ht];
        [by left| |apply testapp_advanced_pipeline_ok|apply testapp_recommend_only|done].
      apply elem_of_derive_recommend in Ht
        as (loan & m & ge & b & Hloan & Hm & Htrue & Hfirst & Hb & [= -> ->]).
      right. by exists loan, ge.
    + intros [?|(loan & ge & Hloan & Hm & Htrue & Hfirst & Hb)]; apply elem_of_run;
        [apply testapp_advanced_pipeline_ok|by left|apply testapp_advanced_pipeline_ok|].
      right. exists (derive_recommend literal_bool). split.
      * unfold testapp_advanced_pipeline, testapp_basic_pipeline. simpl.
        rewrite !elem_of_cons. tauto.
      * apply elem_of_derive_recommend. by exists loan, member, ge, book.
  - rewrite testapp_basic_run. split.
    + intros Ht. by apply (run_never EX_recommendedFor testapp_basic_pipeline);
        [apply testapp_basic_pipeline_ok
        |apply (basic_never_recommends literal_bool Testapp_basic)| |].
    + intros Ht. apply elem_of_run; [apply testapp_basic_pipeline_ok|by left].
Qed.

(** X5. Recommendations in [testapp1.py]: after the advanced tier a
    [(book, recommendedFor, user)] triple is in the output exactly when it
    is in the input or the user is typed [User], the first of the user's
    preferred genres is a true value and the book has that genre.  The
    basic tier adds no [recommendedFor] triple. *)
Theorem preference_recommendations
    (literal_bool : string → option string → option LangTag → bool)
    (G : Graph) (book user : Term) :
  ((book, EX_recommendedFor, user) ∈ Testapp1.apply_advanced_library_rules literal_bool G ↔
   (book, EX_recommendedFor, user) ∈ G
   ∨ ∃ genre,
       (user, RDF_type, EX_User) ∈ G
       ∧ next_or_None (objects (Some user) EX_prefersGenre G) = Some genre
       ∧ truthy literal_bool genre = true
       ∧ (book, EX_hasGenre, genre) ∈ G)
  ∧ ((book, EX_recommendedFor, user) ∈ Testapp1.apply_basic_library_rules G ↔
     (book, EX_recommendedFor, user) ∈ G).
Proof.
  split.
  - rewrite testapp1_advanced_run. split.
    + intros Ht.
      apply (run_only EX_recommendedFor (derive_prefer literal_bool)) in Ht as [?|Ht];
        [by left| |apply testapp1_advanced_pipeline_ok|apply testapp1_prefer_only|done].
      apply elem_of_derive_prefer in Ht
        as (u & ge & b & Hu & Hpg & Htrue & Hb & [= -> ->]).
      right. by exists ge.
    + intros [?|(ge & Hu & Hpg & Htrue & Hb)]; apply elem_of_run;
        [apply testapp1_advanced_pipeline_ok|by left|apply testapp1_advanced_pipeline_ok|].
      right. exists (derive_prefer literal_bool). split.
      * unfold testapp1_advanced_pipeline, testapp1_basic_pipeline. simpl.
        rewrite !elem_of_cons. tauto.
      * apply elem_of_derive_prefer. by exists user, ge, book.
  - rewrite testapp1_basic_run. split.
    + intros Ht. by apply (run_never EX_recommendedFor testapp1_basic_pipeline);
        [apply testapp1_basic_pipeline_ok
        |apply (basic_never_recommends literal_bool Testapp1_basic)| |].
    + intros Ht. apply elem_of_run; [apply testapp1_basic_pipeline_ok|by left].
Qed.

(** ** The textual tier on a batch without malformed lines *)

Lemma elem_of_author_wrote (t : Triple) (g : Graph) :
  t ∈ author_wrote g ↔
  t ∈ g ∨ ∃ book author, (book, EX_hasAuthor, author) ∈ g ∧ t = (author, EX_wrote, book).
Proof.
  rewrite author_wrote_step, elem_of_step, elem_of_derive_wrote. tauto.
Qed.

(** X6. The textual tier on a batch in which no recognized line is
    malformed: the call returns, lines that are not recognized are ignored
    without an error, and the graph is the input with the author inversions
    added when some line has [hasAuthor] in its condition and [wrote] in its
    action, and the unchanged input otherwise (also for an empty or blank
    text).  Several such lines add what one adds. *)
Theorem custom_rules_well_formed :
  (∀ (G : Graph) (text : string),
     Forall (λ r, testapp_malformed r = false) (Py.nonblank_lines text) →
     Testapp.apply_custom_rules G text
     = (if existsb testapp_fires (Py.nonblank_lines text) then author_wrote G else G,
        Returned))
  ∧ (∀ (G : Graph) (text : string),
       Forall (λ r, testapp1_malformed r = false) (Py.nonblank_lines text) →
       Testapp1.apply_custom_rules G text
       = (if existsb testapp1_fires (Py.nonblank_lines text) then author_wrote G else G,
          Returned))
  ∧ (∀ (G : Graph) (t : Triple),
       t ∈ author_wrote G ↔
       t ∈ G ∨ ∃ book author,
                 (book, EX_hasAuthor, author) ∈ G ∧ t = (author, EX_wrote, book)).
Proof.
  split_and!.
  - intros G text Hall. unfold Testapp.apply_custom_rules.
    destruct (bool_decide (text = EmptyString)) eqn:He.
    { apply bool_decide_eq_true in He as ->. done. }
    destruct (bool_decide (Py.strip text = EmptyString)) eqn:Hs.
    { apply bool_decide_eq_true in Hs. by rewrite (nonblank_lines_blank text Hs). }
    simpl. by apply testapp_loop_well_formed.
  - intros G text Hall. unfold Testapp1.apply_custom_rules.
    destruct (bool_decide (text = EmptyString)) eqn:He.
    { apply bool_decide_eq_true in He as ->. done. }
    by apply testapp1_loop_well_formed.
  - intros G t. apply elem_of_author_wrote.
Qed.

Lemma custom_rules_well_formed_witness :
  Forall (λ r, testapp_malformed r = false)
         (Py.nonblank_lines ("books are fun" +:+ Py.newline
                             +:+ "IF x hasAuthor y THEN y wrote x"))
  ∧ Testapp.apply_custom_rules scenario1
      ("books are fun" +:+ Py.newline +:+ "IF x hasAuthor y THEN y wrote x")
    = (author_wrote scenario1, Returned).
Proof.
  assert (Forall (λ r, testapp_malformed r = false)
            (Py.nonblank_lines ("books are fun" +:+ Py.newline
                                +:+ "IF x hasAuthor y THEN y wrote x"))) as H.
  { vm_compute. repeat constructor. }
  split; [done|].
  exact (proj1 custom_rules_well_formed scenario1 _ H).
Defined.

(** ** The rules of updatedapp.py *)

Lemma filter_add (P : Triple → Prop) `{!∀ t, Decision (P t)} (t : Triple) (g : Graph) :
  ¬ P t → filter P (add t g) = filter P g.
Proof.
  intros Ht. unfold add. destruct (decide (t ∈ g)); [done|].
  rewrite filter_app, filter_cons_False, filter_nil by done. apply app_nil_r.
Qed.

Lemma filter_add_all (P : Triple → Prop) `{!∀ t, Decision (P t)}
    (ts : list Triple) (g : Graph) :
  (∀ t, t ∈ ts → ¬ P t) → filter P (add_all ts g) = filter P g.
Proof.
  revert g. induction ts as [|t ts IH]; intros g Hts; [done|].
  rewrite add_all_cons, IH, filter_add; [done| |].
  - apply Hts. left.
  - intros x Hx. apply Hts. by right.
Qed.

Lemma foldl_add_all_view {A} (P : Triple → Prop) `{!∀ t, Decision (P t)}
    (f : A → Graph → list Triple) (l : list A) (g : Graph) :
  (∀ x g1 g2, filter P g1 = filter P g2 → f x g1 = f x g2) →
  (∀ x g' t, t ∈ f x g' → ¬ P t) →
  foldl (λ g x, add_all (f x g) g) g l = add_all (l ≫= λ x, f x g) g.
Proof.
  intros Hview Hfresh.
  enough (∀ g0, filter P g0 = filter P g →
            foldl (λ g x, add_all (f x g) g) g0 l = add_all (l ≫= λ x, f x g) g0) as Hgen
    by (by apply Hgen).
  induction l as [|x l IH]; intros g0 Hsrc; simpl; [done|].
  rewrite add_all_app, (Hview x g0 g Hsrc). apply IH.
  rewrite filter_add_all; [done|]. apply Hfresh.
Qed.

Lemma foldl_add_filter {A} (P : A → Prop) `{!∀ x, Decision (P x)}
    (h : A → Triple) (l : list A) (g : Graph) :
  foldl (λ g x, if decide (P x) then add (h x) g else g) g l
  = add_all (h <$> filter P l) g.
Proof.
  revert g. induction l as [|x l IH]; intros g; simpl; [done|].
  rewrite filter_cons. destruct (decide (P x)); by rewrite IH.
Qed.

Lemma indirectKnows_not_knows : Updatedapp.is_knows Updatedapp.indirectKnows = false.
Proof. vm_compute. reflexivity. Qed.

Lemma knows_of_links (s o : Term) (g : Graph) :
  Updatedapp.knows_of s o g = add_all (knows_links s o g) g.
Proof.
  unfold Updatedapp.knows_of, knows_links.
  rewrite <- (foldl_add_filter knows_triple
                (λ t, (s, Updatedapp.indirectKnows, object_of t))).
  apply foldl_fun_ext. intros g' [[x p2] z]. unfold knows_triple, predicate_of. simpl.
  destruct (Updatedapp.is_knows p2) eqn:Hp2.
  - by rewrite decide_True.
  - by rewrite decide_False by (by intros ?).
Qed.

Lemma knows_links_fresh (s o : Term) (g : Graph) (t : Triple) :
  t ∈ knows_links s o g → ¬ knows_triple t.
Proof.
  intros (x & -> & _)%list_elem_of_fmap. unfold knows_triple, predicate_of. simpl.
  by rewrite indirectKnows_not_knows.
Qed.

Lemma knows_links_view (s o : Term) (g1 g2 : Graph) :
  filter knows_triple g1 = filter knows_triple g2 → knows_links s o g1 = knows_links s o g2.
Proof.
  intros Heq. unfold knows_links, triples.
  rewrite !(list_filter_filter knows_triple).
  rewrite <- (list_filter_filter_l
                (λ t, knows_triple t ∧ triple_matches (Some o) None None t) knows_triple g1)
    by (by intros ? [? _]).
  rewrite <- (list_filter_filter_l
                (λ t, knows_triple t ∧ triple_matches (Some o) None None t) knows_triple g2)
    by (by intros ? [? _]).
  by rewrite Heq.
Qed.

Lemma indirect_of_fresh (x : Triple) (g : Graph) (t : Triple) :
  t ∈ indirect_of x g → ¬ knows_triple t.
Proof.
  unfold indirect_of. destruct (Updatedapp.is_knows _); [|by intros ?%elem_of_nil].
  apply knows_links_fresh.
Qed.

Lemma indirect_of_view (x : Triple) (g1 g2 : Graph) :
  filter knows_triple g1 = filter knows_triple g2 → indirect_of x g1 = indirect_of x g2.
Proof.
  intros Heq. unfold indirect_of. destruct (Updatedapp.is_knows _); [|done].
  by apply knows_links_view.
Qed.

Lemma updatedapp_rules_given (graph_iter : Graph → list Triple) (G : Graph)
    (rules : option string) :
  given rules = true →
  Updatedapp.apply_custom_rules graph_iter G rules
  = add_all (graph_iter G ≫= λ x, indirect_of x G) G.
Proof.
  intros Hgiven. unfold Updatedapp.apply_custom_rules, given in *.
  destruct rules as [text|]; [|done]. apply negb_true_iff in Hgiven. rewrite Hgiven.
  rewrite <- (foldl_add_all_view knows_triple indirect_of);
    [|apply indirect_of_view|apply indirect_of_fresh].
  apply foldl_fun_ext. intros g [[s p] o]. unfold indirect_of, predicate_of. simpl.
  destruct (Updatedapp.is_knows p); [|done]. apply knows_of_links.
Qed.

Lemma updatedapp_rules_not_given (graph_iter : Graph → list Triple) (G : Graph)
    (rules : option string) :
  given rules = false → Updatedapp.apply_custom_rules graph_iter G rules = G.
Proof.
  unfold Updatedapp.apply_custom_rules, given. destruct rules as [text|]; [|done].
  intros Hg%negb_false_iff. by rewrite Hg.
Qed.

Lemma elem_of_indirect (t : Triple) (l G : Graph) :
  t ∈ (l ≫= λ x, indirect_of x G) ↔
  ∃ s p o p2 z, (s, p, o) ∈ l ∧ (o, p2, z) ∈ G
                ∧ Updatedapp.is_knows p = true ∧ Updatedapp.is_knows p2 = true
                ∧ t = (s, Updatedapp.indirectKnows, z).
Proof.
  rewrite list_elem_of_bind. unfold indirect_of, knows_links. split.
  - intros ([[s p] o] & Ht & Hin). unfold predicate_of, subject_of, object_of in Ht.
    simpl in Ht. destruct (Updatedapp.is_knows p) eqn:Hp; [|by apply elem_of_nil in Ht].
    apply list_elem_of_fmap in Ht as ([[o' p2] z] & -> & Hx).
    apply list_elem_of_filter in Hx as [Hk Hx].
    apply list_elem_of_filter in Hx as [(Ho & _ & _) Hx].
    unfold knows_triple, predicate_of, subject_of, object_of in *. simpl in *. subst o'.
    by exists s, p, o, p2, z.
  - intros (s & p & o & p2 & z & H1 & H2 & Hp & Hp2 & ->). exists (s, p, o).
    split; [|done]. unfold predicate_of, subject_of, object_of. simpl. rewrite Hp.
    apply list_elem_of_fmap. exists (o, p2, z). split; [done|].
    apply list_elem_of_filter. split; [done|].
    apply list_elem_of_filter. split; [|done]. by repeat split.
Qed.

(** X7. The rules of [updatedapp.py] on a rules text that is not blank, in
    whatever order the store yields the triples: the output holds the input
    and, for every two links [(s, p, o)] and [(o, p2, z)] of the input whose
    predicates end in [knows], the triple [(s, indirectKnows, z)], and
    nothing else.  The links are those of the input: a derived triple is
    never taken as a link. *)
Theorem indirect_knows (graph_iter : Graph → list Triple) (G : Graph)
    (rules : option string) (t : Triple) :
  store_order graph_iter →
  given rules = true →
  t ∈ Updatedapp.apply_custom_rules graph_iter G rules ↔
  t ∈ G ∨ ∃ s p o p2 z,
            (s, p, o) ∈ G ∧ (o, p2, z) ∈ G
            ∧ Updatedapp.is_knows p = true ∧ Updatedapp.is_knows p2 = true
            ∧ t = (s, Updatedapp.indirectKnows, z).
Proof.
  intros Horder Hgiven. rewrite (updatedapp_rules_given graph_iter G rules Hgiven).
  rewrite elem_of_add_all, elem_of_indirect.
  split.
  - intros [(s & p & o & p2 & z & H1 & H2)|?]; [right|by left].
    exists s, p, o, p2, z. split; [|done]. by rewrite <- (Horder G).
  - intros [?|(s & p & o & p2 & z & H1 & H2)]; [by right|left].
    exists s, p, o, p2, z. split; [|done]. by rewrite (Horder G).
Qed.

(** X8. The rules text of [updatedapp.py] only switches the inference on:
    every text that is not blank gives the same graph, and a missing, empty
    or blank text gives the input.  A second application adds nothing, and
    a graph without duplicates stays so. *)
Theorem updatedapp_rules_text_ignored (graph_iter : Graph → list Triple) (G : Graph)
    (rules rules' : option string) :
  store_order graph_iter →
  (given rules = true → given rules' = true →
   Updatedapp.apply_custom_rules graph_iter G rules
   = Updatedapp.apply_custom_rules graph_iter G rules')
  ∧ (given rules = false → Updatedapp.apply_custom_rules graph_iter G rules = G)
  ∧ Updatedapp.apply_custom_rules graph_iter
      (Updatedapp.apply_custom_rules graph_iter G rules) rules
    = Updatedapp.apply_custom_rules graph_iter G rules
  ∧ (NoDup G → NoDup (Updatedapp.apply_custom_rules graph_iter G rules)).
Proof.
  intros Horder. split_and!.
  - intros H1 H2. by rewrite !updatedapp_rules_given.
  - apply updatedapp_rules_not_given.
  - destruct (given rules) eqn:Hg; [|by rewrite !updatedapp_rules_not_given].
    rewrite (updatedapp_rules_given graph_iter G rules Hg).
    set (out := add_all (graph_iter G ≫= λ x, indirect_of x G) G).
    rewrite (updatedapp_rules_given graph_iter out rules Hg).
    assert (filter knows_triple out = filter knows_triple G) as Hview.
    { apply filter_add_all. intros t (x & Ht & _)%list_elem_of_bind.
      by apply indirect_of_fresh in Ht. }
    apply add_all_present. intros t (x & Ht & Hx)%list_elem_of_bind.
    rewrite (indirect_of_view x out G Hview) in Ht.
    apply elem_of_add_all. left. apply list_elem_of_bind. exists x. split; [done|].
    unfold indirect_of in Ht.
    destruct (Updatedapp.is_knows (predicate_of x)) eqn:Hk; [|by apply elem_of_nil in Ht].
    rewrite (Horder out) in Hx. rewrite (Horder G).
    assert (x ∈ filter knows_triple out) as Hin by (by apply list_elem_of_filter).
    rewrite Hview in Hin. by apply list_elem_of_filter in Hin as [_ ?].
  - intros Hnd. destruct (given rules) eqn:Hg.
    + rewrite (updatedapp_rules_given graph_iter G rules Hg). by apply NoDup_add_all.
    + by rewrite updatedapp_rules_not_given.
Qed.

Lemma indirect_knows_witness :
  store_order (reverse : Graph → list Triple)
  ∧ given (Some "any text") = true
  ∧ (ex "Ann", Updatedapp.indirectKnows, ex "Cid")
      ∈ Updatedapp.apply_custom_rules reverse knows_chain (Some "any text").
Proof.
  assert (store_order (reverse : Graph → list Triple)) as Ho
    by (intros g; apply reverse_Permutation).
  assert (given (Some "any text") = true) as Hg by (vm_compute; reflexivity).
  split_and!; [done|done|].
  apply (proj2 (indirect_knows reverse knows_chain (Some "any text")
                  (ex "Ann", Updatedapp.indirectKnows, ex "Cid") Ho Hg)).
  right. exists (ex "Ann"), (ex "knows"), (ex "Ben"), (ex "knows"), (ex "Cid").
  split_and!; [compute_done|compute_done|vm_compute; reflexivity
              |vm_compute; reflexivity|reflexivity].
Defined.

Lemma updatedapp_rules_text_ignored_witness :
  (given (Some "any text") = true ∧ given (Some "other words") = true)
  ∧ Updatedapp.apply_custom_rules (λ g, g) knows_chain (Some "any text")
    = Updatedapp.apply_custom_rules (λ g, g) knows_chain (Some "other words").
Proof.
  assert (given (Some "any text") = true) as H1 by (vm_compute; reflexivity).
  assert (given (Some "other words") = true) as H2 by (vm_compute; reflexivity).
  split; [done|].
  exact (proj1 (updatedapp_rules_text_ignored (λ g, g) knows_chain (Some "any text")
                  (Some "other words") store_order_id) H1 H2).
Defined.

Lemma fixed_tiers_frame_witness :
  NoDup scenario1 ∧ NoDup (Testapp.apply_advanced_library_rules (λ _ _ _, true) scenario1).
Proof.
  assert (NoDup scenario1) as Hnd by compute_done.
  split; [done|].
  exact (proj1 (proj2 (fixed_tiers_frame (λ _ _ _, true) Testapp_advanced scenario1)) Hnd).
Defined.

(** ** The query of a CWM rule *)

Lemma find_key {B} (tok : string) (l : list (string * B)) :
  match find (λ kv, bool_decide (kv.1 = tok)) l with
  | Some kv => kv.1 = tok ∧ kv ∈ l
  | None => tok ∉ l.*1
  end.
Proof.
  induction l as [|[k v] l IH]; simpl; [apply not_elem_of_nil|].
  destruct (bool_decide (k = tok)) eqn:Hk.
  - apply bool_decide_eq_true in Hk. split; [done|left].
  - apply bool_decide_eq_false in Hk. destruct (find _ l) as [kv|].
    + destruct IH as [? ?]. split; [done|by right].
    + csimpl. by intros [?|?]%elem_of_cons.
Qed.

Lemma elem_of_keys {B} (k : string) (l : list (string * B)) :
  k ∈ l.*1 ↔ ∃ v, (k, v) ∈ l.
Proof.
  rewrite list_elem_of_fmap. split.
  - intros ([k' v] & -> & Hin). by exists v.
  - intros [v Hin]. by exists (k, v).
Qed.

Lemma Variable_new_tail (tok : string) :
  Testapp1.is_var tok = true →
  Testapp1.Variable_new (Py.drop_chars 1 tok) = None ↔ tok = "?".
Proof.
  intros Hv. destruct tok as [|c tok]; [done|]. simpl in Hv.
  apply andb_prop in Hv as [Hc _]. apply bool_decide_eq_true in Hc. subst c.
  simpl. destruct tok as [|c' tok]; simpl; [done|].
  by destruct (bool_decide (c' = "?"%char)).
Qed.

Lemma var_map_ok_nil : var_map_ok [].
Proof. split; [constructor|]. by intros k v []%elem_of_nil. Qed.

Lemma var_map_ok_keys (var_map : list (string * string)) (k : string) :
  var_map_ok var_map → k ∈ var_map.*1 → Testapp1.is_var k = true ∧ k ≠ "?".
Proof.
  intros [_ Hok] [v Hin]%elem_of_keys. destruct (Hok k v Hin) as (? & ? & _). done.
Qed.

Lemma var_map_add_spec (tok : string) (var_map : list (string * string)) :
  var_map_ok var_map → Testapp1.is_var tok = true →
  match Testapp1.var_map_add tok var_map with
  | None => tok = "?"
  | Some var_map' =>
      tok ≠ "?" ∧ var_map_ok var_map'
      ∧ (∀ k, k ∈ var_map'.*1 ↔ k = tok ∨ k ∈ var_map.*1)
      ∧ Testapp1.var_map_get var_map' tok = Some (variable_name tok)
  end.
Proof.
  intros Hok Hv. unfold Testapp1.var_map_add, Testapp1.var_map_get.
  pose proof (find_key tok var_map) as Hfind.
  destruct (find _ var_map) as [[k v]|] eqn:Hf.
  - destruct Hfind as [Hk Hin]. simpl in Hk. subst k.
    assert (tok ∈ var_map.*1) as Htok by (apply elem_of_keys; by exists v).
    split_and!; [by apply (var_map_ok_keys var_map)|done| |].
    + intros k. split; [by right|]. by intros [->|?].
    + rewrite Hf. simpl. f_equal. by apply Hok.
  - destruct (Testapp1.Variable_new (Py.drop_chars 1 tok)) as [v|] eqn:Hnew; csimpl.
    + assert (tok ≠ "?") as Hne.
      { intros Heq. apply (Variable_new_tail tok Hv) in Heq. congruence. }
      assert (var_map_ok (var_map ++ [(tok, v)])) as Hok'.
      { destruct Hok as [Hnd Hkv]. split.
        - rewrite fmap_app. apply NoDup_app. split_and!; [done| |apply NoDup_singleton].
          intros x Hx ->%list_elem_of_singleton. done.
        - intros k v'. rewrite elem_of_app, list_elem_of_singleton.
          intros [?|[= -> ->]]; [by apply Hkv|].
          split_and!; [done|done|]. unfold variable_name. by rewrite Hnew. }
      split_and!; [done|done| |].
      * intros k. rewrite fmap_app, elem_of_app. simpl.
        rewrite list_elem_of_singleton. tauto.
      * pose proof (find_key tok (var_map ++ [(tok, v)])) as Hfind'.
        destruct (find _ (var_map ++ [(tok, v)])) as [[k v']|].
        -- destruct Hfind' as [Hk Hin]. simpl in Hk. subst k. simpl. f_equal.
           by apply Hok'.
        -- destruct Hfind'. rewrite fmap_app, elem_of_app. right. by left.
    + by apply (Variable_new_tail tok Hv).
Qed.

Lemma maybe_add_spec (tok : string) (var_map : list (string * string)) :
  var_map_ok var_map →
  match (if Testapp1.is_var tok then Testapp1.var_map_add tok var_map else Some var_map) with
  | None => tok = "?"
  | Some var_map' =>
      tok ≠ "?" ∧ var_map_ok var_map'
      ∧ (∀ k, k ∈ var_map'.*1 ↔ (Testapp1.is_var tok = true ∧ k = tok) ∨ k ∈ var_map.*1)
  end.
Proof.
  intros Hok. destruct (Testapp1.is_var tok) eqn:Hv.
  - pose proof (var_map_add_spec tok var_map Hok Hv) as Hadd.
    destruct (Testapp1.var_map_add tok var_map) as [vm'|]; [|done].
    destruct Hadd as (? & ? & Hk & _). split_and!; [done|done|].
    intros k. rewrite Hk. tauto.
  - split_and!; [by intros ->|done|]. intros k. split; [by right|]. by intros [[? _]|?].
Qed.

Lemma elem_of_clause_tokens (c : Testapp1.Clause) (rest : list Testapp1.Clause) (x : string) :
  x ∈ clause_tokens (c :: rest) ↔ x = c.1.1 ∨ x = c.1.2 ∨ x = c.2 ∨ x ∈ clause_tokens rest.
Proof.
  unfold clause_tokens. rewrite bind_cons.
  rewrite elem_of_app, !elem_of_cons, elem_of_nil. tauto.
Qed.

Lemma elem_of_variable_tokens (c : Testapp1.Clause) (rest : list Testapp1.Clause) (k : string) :
  k ∈ variable_tokens (c :: rest) ↔
  (Testapp1.is_var c.1.1 = true ∧ k = c.1.1) ∨ (Testapp1.is_var c.1.2 = true ∧ k = c.1.2)
  ∨ (Testapp1.is_var c.2 = true ∧ k = c.2) ∨ k ∈ variable_tokens rest.
Proof.
  unfold variable_tokens. rewrite !list_elem_of_filter, elem_of_clause_tokens.
  split; [intros [Hv [->|[->|[->|?]]]]; tauto|].
  intros [[? ->]|[[? ->]|[[? ->]|[? ?]]]]; tauto.
Qed.

Lemma append_assoc (a b c : string) : (a +:+ b) +:+ c = a +:+ b +:+ c.
Proof.
  induction a as [|x a IH]; [done|].
  change (String x ((a +:+ b) +:+ c) = String x (a +:+ b +:+ c)). by rewrite IH.
Qed.

Lemma build_query_spec (antecedent : list Testapp1.Clause)
    (var_map : list (string * string)) (query_parts : list string) :
  var_map_ok var_map →
  match Testapp1.build_query antecedent var_map query_parts with
  | None => "?" ∈ clause_tokens antecedent
  | Some (var_map', query_parts') =>
      ("?" ∉ clause_tokens antecedent)
      ∧ var_map_ok var_map'
      ∧ query_parts' = query_parts ++ (pattern <$> antecedent)
      ∧ ∀ k, k ∈ var_map'.*1 ↔ k ∈ variable_tokens antecedent ∨ k ∈ var_map.*1
  end.
Proof.
  revert var_map query_parts.
  induction antecedent as [|[[s p] o] rest IH]; intros vm parts Hok.
  - simpl. split_and!; [apply not_elem_of_nil|done|by rewrite app_nil_r|].
    intros k. split; [by right|]. by intros [[]%elem_of_nil|?].
  - cbn [Testapp1.build_query].
    pose proof (elem_of_clause_tokens (s, p, o) rest) as Hct.
    pose proof (elem_of_variable_tokens (s, p, o) rest) as Hvt.
    cbn [fst snd] in Hct, Hvt.
    pose proof (maybe_add_spec s vm Hok) as Hs.
    destruct (if Testapp1.is_var s then _ else _) as [vm1|]; csimpl;
      [|apply Hct; by left].
    destruct Hs as (Hs & Hok1 & Hk1).
    pose proof (maybe_add_spec o vm1 Hok1) as Ho.
    destruct (if Testapp1.is_var o then _ else _) as [vm2|]; csimpl;
      [|apply Hct; by (right; right; left)].
    destruct Ho as (Ho & Hok2 & Hk2).
    destruct (Testapp1.is_var p) eqn:Hp.
    + pose proof (var_map_add_spec p vm2 Hok2 Hp) as Hadd.
      destruct (Testapp1.var_map_add p vm2) as [vm3|]; csimpl;
        [|apply Hct; by (right; left)].
      destruct Hadd as (Hpne & Hok3 & Hk3 & Hget). rewrite Hget. csimpl.
      match goal with
      | |- context [Testapp1.build_query rest vm3 ?ps] => specialize (IH vm3 ps Hok3)
      end.
      destruct (Testapp1.build_query rest vm3 _) as [[vm' parts']|].
      * destruct IH as (Hq & Hok' & Hparts & Hk'). split_and!; [|done| |].
        -- rewrite Hct. intros [?|[?|[?|?]]]; done.
        -- rewrite Hparts, <- app_assoc. csimpl. reflexivity.
        -- intros k. rewrite Hk', Hvt, Hk3, Hk2, Hk1. tauto.
      * apply Hct. by (right; right; right).
    + assert (p ≠ "?") as Hpne by (intros ->; done).
      match goal with
      | |- context [Testapp1.build_query rest vm2 ?ps] => specialize (IH vm2 ps Hok2)
      end.
      destruct (Testapp1.build_query rest vm2 _) as [[vm' parts']|].
      * destruct IH as (Hq & Hok' & Hparts & Hk'). split_and!; [|done| |].
        -- rewrite Hct. intros [?|[?|[?|?]]]; done.
        -- rewrite Hparts, <- app_assoc. csimpl. reflexivity.
        -- intros k. rewrite Hk', Hvt, Hk2, Hk1. split; [|intros; intuition congruence].
           tauto.
      * apply Hct. by (right; right; right).
Qed.

(** X9. The query of a CWM rule.  Building it raises exactly when some
    token of the antecedent is a bare question mark (the variable would
    have an empty name).  Otherwise there is one triple pattern for each
    clause, in the order of the clauses: subject and object tokens are
    written as they are, a predicate gets the [ex:] prefix unless it starts
    with a scheme, and a variable predicate is written with two question
    marks.  The variable map has each variable token of the antecedent
    exactly once, with its name, and nothing else. *)
Theorem build_query_total (antecedent : list Testapp1.Clause) :
  (Testapp1.build_query antecedent [] [] = None ↔ "?" ∈ clause_tokens antecedent)
  ∧ ∀ var_map query_parts,
      Testapp1.build_query antecedent [] [] = Some (var_map, query_parts) →
      query_parts = pattern <$> antecedent
      ∧ NoDup var_map.*1
      ∧ ∀ tok v, (tok, v) ∈ var_map ↔
                 tok ∈ variable_tokens antecedent ∧ v = variable_name tok.
Proof.
  pose proof (build_query_spec antecedent [] [] var_map_ok_nil) as Hspec.
  destruct (Testapp1.build_query antecedent [] []) as [[vm parts]|].
  - destruct Hspec as (Hq & [Hnd Hkv] & Hparts & Hk). split.
    + split; [done|]. intros ?. done.
    + intros vm' parts' [= <- <-]. split_and!; [done|done|].
      intros tok v. split.
      * intros Hin. split; [|by apply Hkv].
        assert (tok ∈ vm.*1) as Hkey by (apply elem_of_keys; by exists v).
        apply Hk in Hkey as [?|[]%elem_of_nil]. done.
      * intros [Htok ->].
        assert (tok ∈ vm.*1) as [v Hin]%elem_of_keys by (apply Hk; by left).
        by rewrite <- (proj2 (proj2 (Hkv tok v Hin))).
  - split; [by split|]. by intros vm parts.
Qed.

(** ** The consequent of a CWM rule *)

Lemma make_bindings_keys var_map (row : ResultRow) bindings :
  Testapp1.make_bindings var_map row = Some bindings → bindings.*1 = var_map.*1.
Proof.
  unfold Testapp1.make_bindings. intros Hm%mapM_Some.
  induction Hm as [|[k v] b vm bs Hkv _ IH]; [done|].
  csimpl. destruct (row_getitem row v) as [x|]; [|done].
  simpl in Hkv. injection Hkv as <-. simpl. by rewrite IH.
Qed.

Lemma bindings_get_unknown bindings (tok : string) :
  tok ∉ bindings.*1 → Testapp1.bindings_get bindings tok = None.
Proof.
  intros Hno. unfold Testapp1.bindings_get.
  pose proof (find_key tok (reverse bindings)) as Hfind.
  destruct (find _ (reverse bindings)) as [[k v]|]; [|done].
  destruct Hfind as [Hk Hin]. simpl in Hk. subst k.
  destruct Hno. apply list_elem_of_fmap. exists (tok, v).
  split; [done|]. by rewrite elem_of_reverse in Hin.
Qed.

Lemma instantiate_unknown bindings (c : Testapp1.Clause) (tok : string) :
  tok ∈ [c.1.1; c.1.2; c.2] → Testapp1.is_var tok = true → tok ∉ bindings.*1 →
  Testapp1.instantiate bindings c = None.
Proof.
  destruct c as [[s p] o]. simpl. intros Hin Hv Hno.
  assert (Testapp1.actual bindings tok = None) as Hact.
  { unfold Testapp1.actual. rewrite Hv. by apply bindings_get_unknown. }
  apply elem_of_cons in Hin as [->|Hin]; [by rewrite Hact|].
  destruct (Testapp1.actual bindings s); [|done]. csimpl.
  apply elem_of_cons in Hin as [->|Hin]; [by rewrite Hact|].
  destruct (Testapp1.actual bindings p); [|done]. csimpl.
  apply list_elem_of_singleton in Hin as ->. by rewrite Hact.
Qed.

(** X10. A variable of the consequent that the antecedent does not mention
    is never bound: the clause that carries it is passed over for every row
    of every result, so the rule adds what it would add without that clause;
    no error is raised and the other clauses are still instantiated. *)
Theorem consequent_unbound_variable (antecedent : list Testapp1.Clause)
    var_map query_parts (row : ResultRow) bindings
    (c : Testapp1.Clause) (tok : string) :
  Testapp1.build_query antecedent [] [] = Some (var_map, query_parts) →
  Testapp1.make_bindings var_map row = Some bindings →
  tok ∈ [c.1.1; c.1.2; c.2] → Testapp1.is_var tok = true →
  tok ∉ clause_tokens antecedent →
  Testapp1.instantiate bindings c = None
  ∧ ∀ before after (g : Graph),
      Testapp1.apply_consequent bindings (before ++ c :: after) g
      = Testapp1.apply_consequent bindings (before ++ after) g.
Proof.
  intros Hbuild Hbind Hin Hv Hno.
  assert (Testapp1.instantiate bindings c = None) as Hinst.
  { apply (instantiate_unknown bindings c tok Hin Hv).
    rewrite (make_bindings_keys _ _ _ Hbind).
    pose proof (build_query_spec antecedent [] [] var_map_ok_nil) as Hspec.
    rewrite Hbuild in Hspec. destruct Hspec as (_ & _ & _ & Hk).
    rewrite Hk. unfold variable_tokens. rewrite list_elem_of_filter.
    by intros [[_ ?]|[]%elem_of_nil]. }
  split; [done|]. intros before after g. unfold Testapp1.apply_consequent.
  rewrite !foldl_app. simpl. by rewrite Hinst.
Qed.

Lemma consequent_unbound_variable_witness :
  Testapp1.instantiate [("?x", Some (ex "Book1")); ("?y", Some (ex "Alice"))]
                       ("?z", "wrote", "?x") = None
  ∧ ∀ before after (g : Graph),
      Testapp1.apply_consequent [("?x", Some (ex "Book1")); ("?y", Some (ex "Alice"))]
                                (before ++ ("?z", "wrote", "?x") :: after) g
      = Testapp1.apply_consequent [("?x", Some (ex "Book1")); ("?y", Some (ex "Alice"))]
                                  (before ++ after) g.
Proof.
  apply (consequent_unbound_variable
           [("?x", "hasAuthor", "?y")] [("?x", "x"); ("?y", "y")] ["?x ex:hasAuthor ?y"]
           (ResultRow_new [("x", ex "Book1"); ("y", ex "Alice")] ["x"; "y"])
           _ ("?z", "wrote", "?x") "?z").
  - reflexivity.
  - reflexivity.
  - compute_done.
  - reflexivity.
  - compute_done.
Defined.

Lemma keys_unique {B} (l : list (string * B)) (k : string) (x y : B) :
  NoDup l.*1 → (k, x) ∈ l → (k, y) ∈ l → x = y.
Proof.
  induction l as [|[k' v] l IH]; csimpl; intros Hnd Hx Hy; [by apply elem_of_nil in Hx|].
  apply NoDup_cons in Hnd as [Hk Hnd].
  apply elem_of_cons in Hx as [Hx|Hx]; apply elem_of_cons in Hy as [Hy|Hy].
  - congruence.
  - injection Hx as -> ->. destruct Hk. apply elem_of_keys. by exists y.
  - injection Hy as -> ->. destruct Hk. apply elem_of_keys. by exists x.
  - by apply IH.
Qed.

Lemma elem_of_make_bindings var_map (row : ResultRow) bindings (k : string) (x : option Term) :
  Testapp1.make_bindings var_map row = Some bindings →
  (k, x) ∈ bindings ↔ ∃ v, (k, v) ∈ var_map ∧ row_getitem row v = Some x.
Proof.
  unfold Testapp1.make_bindings. intros Hm%mapM_Some.
  induction Hm as [|[k' v'] b vm bs Hkv _ IH].
  - split; [by intros []%elem_of_nil|]. by intros (v & []%elem_of_nil & _).
  - destruct (row_getitem row v') as [x'|] eqn:Hrow; [|done].
    simpl in Hkv. injection Hkv as <-. rewrite elem_of_cons, IH. split.
    + intros [[= -> ->]|(v & Hin & Hv)].
      * exists v'. split; [left|done].
      * exists v. split; [by right|done].
    + intros (v & [[= -> ->]|Hin]%elem_of_cons & Hv).
      * left. congruence.
      * right. by exists v.
Qed.

Lemma bindings_get_known bindings (tok : string) (x : option Term) :
  NoDup bindings.*1 → (tok, x) ∈ bindings → Testapp1.bindings_get bindings tok = x.
Proof.
  intros Hnd Hin. unfold Testapp1.bindings_get.
  pose proof (find_key tok (reverse bindings)) as Hfind.
  destruct (find _ (reverse bindings)) as [[k v]|].
  - destruct Hfind as [Hk Hkv]. simpl in Hk. subst k. rewrite elem_of_reverse in Hkv.
    by apply (keys_unique bindings tok).
  - destruct Hfind. apply elem_of_keys. exists x. by rewrite elem_of_reverse.
Qed.

Lemma actual_term_of (antecedent : list Testapp1.Clause) var_map query_parts
    (row : ResultRow) bindings (tok : string) :
  Testapp1.build_query antecedent [] [] = Some (var_map, query_parts) →
  Testapp1.make_bindings var_map row = Some bindings →
  Testapp1.actual bindings tok = term_of antecedent row tok.
Proof.
  intros Hbuild Hbind. unfold Testapp1.actual, term_of.
  destruct (Testapp1.is_var tok) eqn:Hv; [|done].
  pose proof (build_query_spec antecedent [] [] var_map_ok_nil) as Hspec.
  rewrite Hbuild in Hspec. destruct Hspec as (_ & [Hnd Hkv] & _ & Hk).
  pose proof (make_bindings_keys _ _ _ Hbind) as Hkeys.
  destruct (bool_decide (tok ∈ clause_tokens antecedent)) eqn:Hin.
  - apply bool_decide_eq_true in Hin.
    assert (tok ∈ var_map.*1) as [v Hv']%elem_of_keys.
    { apply Hk. left. unfold variable_tokens. by apply list_elem_of_filter. }
    assert (v = variable_name tok) as -> by (by apply Hkv).
    assert (tok ∈ bindings.*1) as [x Hx]%elem_of_keys.
    { rewrite Hkeys. apply elem_of_keys. by eexists. }
    rewrite (bindings_get_known bindings tok x) by (by rewrite ?Hkeys).
    apply (elem_of_make_bindings _ _ _ _ _ Hbind) in Hx as (v & Hv'' & Hrow).
    assert (v = variable_name tok) as -> by (by apply Hkv).
    by rewrite Hrow.
  - apply bool_decide_eq_false in Hin. apply bindings_get_unknown.
    rewrite Hkeys, Hk. unfold variable_tokens. rewrite list_elem_of_filter.
    by intros [[_ ?]|[]%elem_of_nil].
Qed.

Lemma instantiate_instance_of (antecedent : list Testapp1.Clause) var_map query_parts
    (row : ResultRow) bindings (c : Testapp1.Clause) :
  Testapp1.build_query antecedent [] [] = Some (var_map, query_parts) →
  Testapp1.make_bindings var_map row = Some bindings →
  Testapp1.instantiate bindings c = instance_of antecedent row c.
Proof.
  intros Hbuild Hbind. destruct c as [[s p] o]. unfold Testapp1.instantiate, instance_of.
  by rewrite !(actual_term_of antecedent var_map query_parts row bindings).
Qed.

Lemma make_bindings_columns (antecedent : list Testapp1.Clause) var_map query_parts
    (row : ResultRow) :
  Testapp1.build_query antecedent [] [] = Some (var_map, query_parts) →
  Forall (λ tok, is_Some (row_getitem row (variable_name tok))) (variable_tokens antecedent) →
  is_Some (Testapp1.make_bindings var_map row).
Proof.
  intros Hbuild Hall.
  pose proof (build_query_spec antecedent [] [] var_map_ok_nil) as Hspec.
  rewrite Hbuild in Hspec. destruct Hspec as (_ & [Hnd Hkv] & _ & Hk).
  unfold Testapp1.make_bindings. apply mapM_is_Some, Forall_forall.
  intros [k v] Hin. simpl.
  assert (v = variable_name k) as -> by (by apply Hkv).
  assert (k ∈ variable_tokens antecedent) as Hvar.
  { assert (k ∈ var_map.*1) as Hkey by (apply elem_of_keys; by eexists).
    by apply Hk in Hkey as [?|[]%elem_of_nil]. }
  destruct (proj1 (Forall_forall _ _) Hall k Hvar) as [x ->]. by eexists.
Qed.

Lemma pulled_rows_of var_map consequent (rows : list ResultRow) (g : Graph) :
  Forall (λ r, is_Some (Testapp1.make_bindings var_map r)) rows →
  pulled var_map consequent (rows_of rows) g = rows.
Proof.
  intros Hall. revert g. induction Hall as [|r rs [b Hb] _ IH]; intros g; simpl; [done|].
  by rewrite Hb, IH.
Qed.

(** X11. What a CWM rule line adds.  When the line parses, its query is
    built and the engine answers it, and every row that the loop gets has a
    column for every variable of the antecedent, the graph after the line
    holds exactly the triples it held before and the instances of the
    consequent clauses under each of these rows: a variable token stands
    for the value of its column, any other token for the namespace followed
    by the token, and a clause with an unbound variable has no instance.
    The rows are those that the loop gets while it adds: a row can come
    from triples that the rows before it have added.  For a result that was
    computed at the call they are its rows. *)
Theorem cwm_rule_instances (query : Graph → string → option Result)
    (g : Graph) (rule : string) (antecedent consequent : list Testapp1.Clause)
    var_map query_parts (results : Result) (t : Triple) :
  Testapp1.parse_cwm_rule rule = Some (antecedent, consequent) →
  Testapp1.build_query antecedent [] [] = Some (var_map, query_parts) →
  query g (Testapp1.query_str query_parts) = Some results →
  Forall (λ row, Forall (λ tok, is_Some (row_getitem row (variable_name tok)))
                        (variable_tokens antecedent))
         (pulled var_map consequent results g) →
  (t ∈ Testapp1.apply_rule query g rule ↔
   t ∈ g ∨ ∃ row c, row ∈ pulled var_map consequent results g ∧ c ∈ consequent
                    ∧ instance_of antecedent row c = Some t)
  ∧ ∀ rows, results = rows_of rows →
            Forall (λ row, Forall (λ tok, is_Some (row_getitem row (variable_name tok)))
                                  (variable_tokens antecedent)) rows →
            pulled var_map consequent results g = rows.
Proof.
  intros Hparse Hbuild Hquery Hcols. split.
  - assert (Forall (λ r, is_Some (Testapp1.make_bindings var_map r))
                   (pulled var_map consequent results g)) as Hall.
    { eapply Forall_impl; [exact Hcols|]. intros row Hrow.
      by apply (make_bindings_columns antecedent var_map query_parts). }
    rewrite (elem_of_apply_rule query g rule antecedent consequent var_map _ results t
               Hparse Hbuild Hquery).
    split.
    + intros [?|(r & b & c & Hr & Hb & Hc & Ht)]; [by left|].
      right. exists r, c. split_and!; [done..|].
      by rewrite <- (instantiate_instance_of antecedent var_map _ r b c Hbuild Hb).
    + intros [?|(r & c & Hr & Hc & Ht)]; [by left|].
      destruct (proj1 (Forall_forall _ _) Hall r Hr) as [b Hb].
      right. exists r, b, c. split_and!; [done..|].
      by rewrite (instantiate_instance_of antecedent var_map _ r b c Hbuild Hb).
  - intros rows -> Hrows. apply pulled_rows_of.
    eapply Forall_impl; [exact Hrows|]. intros row Hrow.
    by apply (make_bindings_columns antecedent var_map query_parts).
Qed.

Lemma cwm_rule_instances_witness :
  (ex "Ann", ex "knows", ex "Dan")
  ∈ Testapp1.apply_rule knows_engine knows_chain4 "?x knows ?y . ?y knows ?z => ?x knows ?z".
Proof.
  apply (proj1 (cwm_rule_instances knows_engine knows_chain4
                  "?x knows ?y . ?y knows ?z => ?x knows ?z"
                  [("?x", "knows", "?y"); ("?y", "knows", "?z")] [("?x", "knows", "?z")]
                  [("?x", "x"); ("?y", "y"); ("?z", "z")]
                  ["?x ex:knows ?y"; "?y ex:knows ?z"]
                  (live 16 knows_rows [] knows_chain4)
                  (ex "Ann", ex "knows", ex "Dan")
                  eq_refl eq_refl eq_refl
                  ltac:(vm_compute; repeat constructor; by eexists))).
  right. exists (ResultRow_new [("x", ex "Ann"); ("y", ex "Cid"); ("z", ex "Dan")]
                               ["x"; "y"; "z"]),
                ("?x", "knows", "?z").
  split_and!; [compute_done|compute_done|reflexivity].
Defined.

(** The same rule on the same graph, with the result computed while it is
    read and with the result computed at the call: only the first reaches
    from Ann to Dan. *)
Example knows_live_and_snapshot :
  Testapp1.apply_rule knows_engine knows_chain4 "?x knows ?y . ?y knows ?z => ?x knows ?z"
  = knows_chain4 ++ [ (ex "Ann", ex "knows", ex "Cid"); (ex "Ben", ex "knows", ex "Dan");
                      (ex "Ann", ex "knows", ex "Dan") ]
  ∧ Testapp1.apply_rule (λ g _, Some (rows_of (knows_rows g))) knows_chain4
      "?x knows ?y . ?y knows ?z => ?x knows ?z"
    = knows_chain4 ++ [ (ex "Ann", ex "knows", ex "Cid"); (ex "Ben", ex "knows", ex "Dan") ].
Proof. split; vm_compute; reflexivity. Qed.

(** ** The graph of the CWM tier *)

Lemma add_all_fresh (ts : list Triple) (g : Graph) :
  NoDup (g ++ ts) → add_all ts g = g ++ ts.
Proof.
  revert g. induction ts as [|t ts IH]; intros g Hnd.
  - by rewrite add_all_nil, app_nil_r.
  - rewrite add_all_cons. apply NoDup_app in Hnd as Hparts.
    destruct Hparts as (_ & Hdisj & _).
    assert (add t g = g ++ [t]) as ->.
    { unfold add. rewrite decide_False; [done|]. intros Hin. apply (Hdisj t Hin). left. }
    rewrite IH; rewrite <- app_assoc; done.
Qed.

Lemma add_prefix (t : Triple) (g : Graph) : g `prefix_of` add t g.
Proof. unfold add. destruct (decide (t ∈ g)); [done|]. by apply prefix_app_r. Qed.

Lemma apply_consequent_keeps bindings consequent (g : Graph) :
  NoDup g →
  NoDup (Testapp1.apply_consequent bindings consequent g)
  ∧ g `prefix_of` Testapp1.apply_consequent bindings consequent g.
Proof.
  unfold Testapp1.apply_consequent. revert g.
  induction consequent as [|c cs IH]; intros g Hnd; simpl; [done|].
  destruct (Testapp1.instantiate bindings c) as [t|]; [|by apply IH].
  destruct (IH (add t g) (NoDup_add t g Hnd)) as [? Hpre]. split; [done|].
  etrans; [apply add_prefix|done].
Qed.

Lemma apply_results_keeps var_map consequent results (g : Graph) :
  NoDup g →
  NoDup (Testapp1.apply_results var_map consequent results g)
  ∧ g `prefix_of` Testapp1.apply_results var_map consequent results g.
Proof.
  revert g. induction results as [| |r rest IH]; intros g Hnd; simpl; [done|done|].
  destruct (Testapp1.make_bindings var_map r) as [b|]; [|done].
  destruct (apply_consequent_keeps b consequent g Hnd) as [Hnd' Hpre].
  destruct (IH (Testapp1.apply_consequent b consequent g) _ Hnd') as [? Hpre'].
  split; [done|]. by etrans.
Qed.

Lemma apply_rule_keeps (query : Graph → string → option Result)
    (g : Graph) (rule : string) :
  NoDup g →
  NoDup (Testapp1.apply_rule query g rule) ∧ g `prefix_of` Testapp1.apply_rule query g rule.
Proof.
  intros Hnd. unfold Testapp1.apply_rule.
  destruct (Testapp1.parse_cwm_rule rule) as [[ant cons]|]; [|done].
  destruct (Testapp1.build_query ant [] []) as [[vm parts]|]; [|done].
  destruct (query g _); [|done]. by apply apply_results_keeps.
Qed.

Lemma cwm_loop_keeps (query : Graph → string → option Result)
    (g : Graph) (rules : list string) :
  NoDup g → NoDup (cwm_loop query g rules) ∧ g `prefix_of` cwm_loop query g rules.
Proof.
  unfold cwm_loop. revert g. induction rules as [|r rs IH]; intros g Hnd; simpl; [done|].
  destruct (apply_rule_keeps query g r Hnd) as [Hnd' Hpre].
  destruct (IH _ Hnd') as [? Hpre']. split; [done|]. by etrans.
Qed.

Lemma cwm_loop_all_raise (query : Graph → string → option Result)
    (g : Graph) (rules : list string) :
  Forall (raises query g) rules → cwm_loop query g rules = g.
Proof.
  unfold cwm_loop. induction 1 as [|r rs Hr _ IH]; simpl; [done|].
  by rewrite (apply_rule_raises query g r Hr).
Qed.

(** X12. The graph that the CWM tier returns for a non-empty text and the
    triples of a graph [G]: it is a new object that starts with the triples
    of [G] in the order in which the store yields them, which need not be
    the order in which [G] got them; the derived triples follow, and no
    triple is held twice.  When every line of the batch fails (also when
    the text has only blank lines) the new object holds the triples of [G]
    and no other: the tier still returns a copy, not the object it was
    given. *)
Theorem cwm_copy (query : Graph → string → option Result)
    (graph_iter : Graph → list Triple)
    (h : gmap nat Graph) (graph : nat) (G : Graph) (text : string) :
  store_order graph_iter →
  h !! graph = Some G → NoDup G → text ≠ EmptyString →
  ∃ G', (Testapp1.apply_cwm_rules query graph_iter h graph text).1
          !! (Testapp1.apply_cwm_rules query graph_iter h graph text).2 = Some G'
        ∧ (Testapp1.apply_cwm_rules query graph_iter h graph text).2 ≠ graph
        ∧ NoDup G' ∧ graph_iter G `prefix_of` G'
        ∧ (Forall (raises query (graph_iter G)) (Py.nonblank_lines text) →
           G' = graph_iter G ∧ G' ≡ₚ G).
Proof.
  intros Horder Hg Hnd Hne.
  rewrite (apply_cwm_rules_result query graph_iter h graph G text Hne Hg). simpl.
  assert (NoDup (graph_iter G)) as Hnd' by (by rewrite (Horder G)).
  assert (add_all (graph_iter G) [] = graph_iter G) as -> by (by apply add_all_fresh).
  exists (cwm_loop query (graph_iter G) (Py.nonblank_lines text)).
  destruct (cwm_loop_keeps query (graph_iter G) (Py.nonblank_lines text) Hnd') as [? ?].
  split_and!; [apply lookup_insert_eq| |done|done|].
  - intros Heq. pose proof (fresh_not_allocated h) as Hfresh.
    rewrite Heq in Hfresh. congruence.
  - intros Hall. rewrite (cwm_loop_all_raise query _ _ Hall). split; [done|apply Horder].
Qed.

Lemma cwm_copy_witness :
  ∃ G', (Testapp1.apply_cwm_rules hasAuthor_engine reverse heap1 0 "books are fun").1
          !! (Testapp1.apply_cwm_rules hasAuthor_engine reverse heap1 0 "books are fun").2
        = Some G'
        ∧ (Testapp1.apply_cwm_rules hasAuthor_engine reverse heap1 0 "books are fun").2 ≠ 0
        ∧ NoDup G' ∧ reverse scenario1 `prefix_of` G'
        ∧ (Forall (raises hasAuthor_engine (reverse scenario1))
                  (Py.nonblank_lines "books are fun")
           → G' = reverse scenario1 ∧ G' ≡ₚ scenario1).
Proof.
  apply (cwm_copy hasAuthor_engine reverse heap1 0 scenario1 "books are fun").
  - intros g. apply reverse_Permutation.
  - vm_compute; reflexivity.
  - compute_done.
  - done.
Defined.

(** ** The rows of a SELECT result, both variants *)

(** X13. The SELECT branch of [run_query] in [testapp.py] and in
    [updatedapp.py] give the same table: indexing a row with a variable of
    the header never raises, so the default of [updatedapp.py] is never
    used.  There is one row for each solution, every row has one cell for
    each header variable, and the cell of a solution and a variable is the
    text of the bound term, or of [None]. *)
Theorem select_rows_table (result : SelectResult) :
  Testapp.select_rows result = Some (Updatedapp.select_rows result)
  ∧ length (Updatedapp.select_rows result) = length (solutions result)
  ∧ Forall (λ row, length row = length (vars result)) (Updatedapp.select_rows result)
  ∧ ∀ i j b var, solutions result !! i = Some b → vars result !! j = Some var →
                 Updatedapp.select_rows result !! i ≫= (.!! j) = Some (rendered b var).
Proof.
  rewrite testapp_select_rows, updatedapp_select_rows. split_and!.
  - done.
  - by rewrite length_fmap.
  - apply Forall_fmap, Forall_forall. intros b _. simpl. by rewrite length_fmap.
  - intros i j b var Hb Hvar. rewrite list_lookup_fmap, Hb. simpl.
    by rewrite list_lookup_fmap, Hvar.
Qed.

(** ** The parser of the CWM tier *)

Lemma append_cons (a : char) (s t : string) : String a s +:+ t = String a (s +:+ t).
Proof. reflexivity. Qed.

Lemma append_nil_l (s : string) : EmptyString +:+ s = s.
Proof. reflexivity. Qed.

Lemma space_append (s : string) : " " +:+ s = String " " s.
Proof. reflexivity. Qed.

Lemma append_nil_r (s : string) : s +:+ EmptyString = s.
Proof. induction s as [|a s IH]; [done|]. by rewrite append_cons, IH. Qed.

Lemma snoc_append (cur : string) (a : char) (s : string) :
  Py.snoc cur a +:+ s = cur +:+ String a s.
Proof. unfold Py.snoc. by rewrite append_assoc. Qed.

Lemma all_chars_app (P : char → bool) (s t : string) :
  all_chars P (s +:+ t) = all_chars P s && all_chars P t.
Proof.
  induction s as [|a s IH]; [done|].
  rewrite append_cons. simpl. by rewrite IH, andb_assoc.
Qed.

Lemma all_chars_impl (P Q : char → bool) (s : string) :
  (∀ c, P c = true → Q c = true) → all_chars P s = true → all_chars Q s = true.
Proof.
  intros HPQ. induction s as [|a s IH]; simpl; [done|].
  intros [Ha Hs]%andb_prop. by rewrite (HPQ a Ha), IH.
Qed.

Lemma all_space_app (s t : string) : all_space (s +:+ t) = all_space s && all_space t.
Proof.
  induction s as [|a s IH]; [done|].
  rewrite append_cons. simpl. by rewrite IH, andb_assoc.
Qed.

Lemma split_go_free (sep0 : char) (sep' cur s rest : string) :
  all_chars (not_char sep0) s = true →
  Py.split_go (String sep0 sep') 0 cur (s +:+ rest)
  = Py.split_go (String sep0 sep') 0 (cur +:+ s) rest.
Proof.
  revert cur. induction s as [|a s IH]; intros cur Hs.
  - by rewrite append_nil_r.
  - simpl in Hs. apply andb_prop in Hs as [Ha Hs].
    rewrite append_cons. cbn [Py.split_go Py.startswith].
    unfold not_char in Ha. apply negb_true_iff in Ha. rewrite Ha. simpl.
    by rewrite IH, snoc_append.
Qed.

Lemma rstrip_all_space (s : string) : all_space s = true → Py.rstrip s = EmptyString.
Proof.
  induction s as [|a s IH]; simpl; [done|].
  intros [Ha Hs]%andb_prop. by rewrite IH, Ha.
Qed.

Lemma rstrip_space_r (s sp : string) :
  all_space sp = true → Py.rstrip (s +:+ sp) = Py.rstrip s.
Proof.
  intros Hsp. induction s as [|a s IH].
  - by apply rstrip_all_space.
  - rewrite append_cons. simpl. by rewrite IH.
Qed.

Lemma append_nonempty_r (s t : string) : t ≠ EmptyString → s +:+ t ≠ EmptyString.
Proof. destruct s; [done|]. by rewrite append_cons. Qed.

Lemma rstrip_tight_r (s t : string) :
  Py.rstrip t = t → t ≠ EmptyString → Py.rstrip (s +:+ t) = s +:+ t.
Proof.
  intros Ht Hne. induction s as [|a s IH]; [done|].
  rewrite append_cons. simpl. rewrite IH.
  pose proof (append_nonempty_r s t Hne). by destruct (s +:+ t).
Qed.

Lemma rstrip_token (tok : string) : all_chars nonspace tok = true → Py.rstrip tok = tok.
Proof.
  induction tok as [|a tok IH]; simpl; [done|].
  intros [Ha Htok]%andb_prop. rewrite IH by done.
  unfold nonspace in Ha. apply negb_true_iff in Ha. rewrite Ha. by destruct tok.
Qed.

Lemma lstrip_token (tok rest : string) :
  tok ≠ EmptyString → all_chars nonspace tok = true →
  Py.lstrip (tok +:+ rest) = tok +:+ rest.
Proof.
  destruct tok as [|a tok]; [done|]. intros _. simpl.
  intros [Ha _]%andb_prop. rewrite ?append_cons. simpl.
  unfold nonspace in Ha. apply negb_true_iff in Ha. by rewrite Ha.
Qed.

Lemma split_ws_go_token (cur tok rest : string) :
  all_chars nonspace tok = true →
  Py.split_ws_go cur (tok +:+ rest) = Py.split_ws_go (cur +:+ tok) rest.
Proof.
  revert cur. induction tok as [|a tok IH]; intros cur Htok.
  - by rewrite append_nil_r.
  - simpl in Htok. apply andb_prop in Htok as [Ha Htok].
    rewrite append_cons. simpl. unfold nonspace in Ha. apply negb_true_iff in Ha.
    by rewrite Ha, IH, snoc_append.
Qed.

Lemma split_ws_go_space (sp rest : string) :
  all_space sp = true →
  Py.split_ws_go EmptyString (sp +:+ rest) = Py.split_ws_go EmptyString rest.
Proof.
  induction sp as [|a sp IH]; [done|]. simpl.
  intros [Ha Hsp]%andb_prop. rewrite ?append_cons. simpl. by rewrite Ha, IH.
Qed.

Lemma split_ws_go_sep (cur rest : string) :
  cur ≠ EmptyString →
  Py.split_ws_go cur (String " " rest) = cur :: Py.split_ws_go EmptyString rest.
Proof. intros Hne. simpl. by rewrite bool_decide_eq_false_2. Qed.

Lemma split_ws_go_tail (cur sp : string) :
  cur ≠ EmptyString → all_space sp = true → Py.split_ws_go cur sp = [cur].
Proof.
  intros Hne Hsp. destruct sp as [|a sp]; simpl.
  - by rewrite bool_decide_eq_false_2.
  - simpl in Hsp. apply andb_prop in Hsp as [Ha Hsp].
    rewrite Ha, bool_decide_eq_false_2 by done. f_equal.
    rewrite <- (append_nil_r sp). by rewrite split_ws_go_space.
Qed.

Lemma token_shape_spec (tok : string) :
  token_shape tok = true →
  tok ≠ EmptyString ∧ all_chars nonspace tok = true ∧ all_chars (not_char ".") tok = true.
Proof.
  unfold token_shape. intros [Hne Hall]%andb_prop.
  apply negb_true_iff, bool_decide_eq_false in Hne. split_and!; [done|..].
  - eapply all_chars_impl; [|exact Hall]. by intros c [? _]%andb_prop.
  - eapply all_chars_impl; [|exact Hall]. by intros c [_ ?]%andb_prop.
Qed.

Lemma strip_token (tok : string) :
  all_chars nonspace tok = true → Py.strip tok = tok.
Proof.
  intros Htok. unfold Py.strip.
  destruct (decide (tok = EmptyString)) as [->|Hne]; [done|].
  rewrite <- (append_nil_r tok) at 1. rewrite lstrip_token, append_nil_r by done.
  by apply rstrip_token.
Qed.

Lemma all_space_token (tok : string) :
  tok ≠ EmptyString → all_chars nonspace tok = true → all_space tok = false.
Proof.
  destruct tok as [|a tok]; [done|]. intros _. simpl. intros [Ha _]%andb_prop.
  unfold nonspace in Ha. apply negb_true_iff in Ha. by rewrite Ha.
Qed.

Lemma split_ws_clause (sp1 sp2 s p o : string) :
  all_space sp1 = true → all_space sp2 = true →
  token_shape s = true → token_shape p = true → token_shape o = true →
  Py.split_ws (sp1 +:+ render_clause (s, p, o) +:+ sp2) = [s; p; o].
Proof.
  intros Hsp1 Hsp2 (Hs & Hs' & _)%token_shape_spec (Hp & Hp' & _)%token_shape_spec
         (Ho & Ho' & _)%token_shape_spec.
  unfold Py.split_ws, render_clause. cbn [fst snd].
  rewrite split_ws_go_space by done.
  rewrite !append_assoc, split_ws_go_token, append_nil_l by done.
  rewrite space_append, split_ws_go_sep by done.
  rewrite split_ws_go_token, append_nil_l by done.
  rewrite space_append, split_ws_go_sep by done.
  rewrite split_ws_go_token, append_nil_l by done.
  by rewrite split_ws_go_tail.
Qed.

Lemma parse_piece (sp1 sp2 : string) (c : Testapp1.Clause) (rest : list string) :
  all_space sp1 = true → all_space sp2 = true →
  Forall (λ tok, token_shape tok = true) [c.1.1; c.1.2; c.2] →
  Testapp1.parse_clauses ((sp1 +:+ render_clause c +:+ sp2) :: rest)
  = cons c <$> Testapp1.parse_clauses rest.
Proof.
  destruct c as [[s p] o]. cbn [fst snd].
  intros Hsp1 Hsp2 Htok. rewrite !Forall_cons in Htok. destruct Htok as (Hs & Hp & Ho & _).
  cbn [Testapp1.parse_clauses].
  rewrite bool_decide_eq_false_2.
  - rewrite (split_ws_clause sp1 sp2 s p o) by done. csimpl.
    apply token_shape_spec in Hs as (_ & Hs & _).
    apply token_shape_spec in Hp as (_ & Hp & _).
    apply token_shape_spec in Ho as (_ & Ho & _).
    by rewrite !strip_token.
  - rewrite strip_empty. unfold render_clause. cbn [fst snd].
    apply token_shape_spec in Hs as (Hne & Hs & _).
    rewrite !all_space_app, (all_space_token s Hne Hs), Hsp1. simpl. done.
Qed.

Lemma render_clause_chars (P : char → bool) (c : Testapp1.Clause) :
  P " "%char = true →
  Forall (λ tok, all_chars P tok = true) [c.1.1; c.1.2; c.2] →
  all_chars P (render_clause c) = true.
Proof.
  intros Hsp Htok. rewrite !Forall_cons in Htok. destruct Htok as (Hs & Hp & Ho & _).
  unfold render_clause. rewrite !all_chars_app, Hs, Hp, Ho. simpl. by rewrite Hsp.
Qed.

Lemma render_side_cons (c c' : Testapp1.Clause) (cs : list Testapp1.Clause) :
  render_side (c :: c' :: cs) = render_clause c +:+ " . " +:+ render_side (c' :: cs).
Proof. reflexivity. Qed.

Lemma render_side_chars (P : char → bool) (cs : list Testapp1.Clause) :
  P " "%char = true → P "."%char = true →
  Forall (λ tok, all_chars P tok = true) (clause_tokens cs) →
  all_chars P (render_side cs) = true.
Proof.
  intros Hsp Hdot. induction cs as [|c cs IH]; [done|]. intros Htok.
  unfold clause_tokens in Htok. rewrite bind_cons in Htok.
  apply Forall_app in Htok as [Hc Hcs].
  destruct cs as [|c' cs].
  - by apply render_clause_chars.
  - rewrite render_side_cons, !all_chars_app, render_clause_chars, IH by done.
    simpl. by rewrite Hsp, Hdot.
Qed.

Lemma tokens_shape_cons (c : Testapp1.Clause) (cs : list Testapp1.Clause) :
  Forall (λ tok, token_shape tok = true) (clause_tokens (c :: cs)) →
  Forall (λ tok, token_shape tok = true) [c.1.1; c.1.2; c.2]
  ∧ Forall (λ tok, token_shape tok = true) (clause_tokens cs).
Proof. unfold clause_tokens. rewrite bind_cons. apply Forall_app. Qed.

Lemma all_space_not_dot (sp : string) :
  all_space sp = true → all_chars (not_char ".") sp = true.
Proof.
  induction sp as [|a sp IH]; simpl; [done|].
  intros [Ha Hsp]%andb_prop. rewrite IH, andb_true_r by done.
  unfold not_char. apply negb_true_iff, bool_decide_eq_false. by intros <-.
Qed.

Lemma startswith_nil (s : string) : Py.startswith s EmptyString = true.
Proof. by destruct s. Qed.

Lemma split_go_dot (cur rest : string) :
  Py.split_go "." 0 cur (String "." rest) = cur :: Py.split_go "." 0 EmptyString rest.
Proof. simpl. by rewrite startswith_nil. Qed.

Lemma split_go_arrow (cur rest : string) :
  Py.split_go "=>" 0 cur (String "=" (String ">" rest))
  = cur :: Py.split_go "=>" 0 EmptyString rest.
Proof. simpl. by rewrite startswith_nil. Qed.

Lemma parse_split_side (cur : string) (c : Testapp1.Clause) (cs : list Testapp1.Clause) :
  all_space cur = true →
  Forall (λ tok, token_shape tok = true) (clause_tokens (c :: cs)) →
  Testapp1.parse_clauses (Py.split_go "." 0 cur (render_side (c :: cs))) = Some (c :: cs).
Proof.
  revert cur c. induction cs as [|c' cs IH]; intros cur c Hcur [Hc Hcs]%tokens_shape_cons.
  - assert (all_chars (not_char ".") (render_clause c) = true) as Hdot.
    { apply render_clause_chars; [done|]. eapply Forall_impl; [exact Hc|].
      by intros tok (_ & _ & ?)%token_shape_spec. }
    change (render_side [c]) with (render_clause c).
    rewrite <- (append_nil_r (render_clause c)) at 1.
    rewrite split_go_free by done. cbn [Py.split_go].
    rewrite <- (append_nil_r (render_clause c)).
    by rewrite parse_piece.
  - assert (all_chars (not_char ".") (render_clause c +:+ " ") = true) as Hdot.
    { rewrite all_chars_app, render_clause_chars; [done|done|].
      eapply Forall_impl; [exact Hc|]. by intros tok (_ & _ & ?)%token_shape_spec. }
    rewrite render_side_cons.
    change (render_clause c +:+ " . " +:+ render_side (c' :: cs))
      with (render_clause c +:+ " " +:+ String "." (String " " (render_side (c' :: cs)))).
    rewrite <- append_assoc, split_go_free, split_go_dot by done.
    change (Py.split_go "." 0 EmptyString (String " " ?s))
      with (Py.split_go "." 0 " " s).
    rewrite parse_piece, IH by done. done.
Qed.

Lemma lstrip_space_l (sp s : string) :
  all_space sp = true → Py.lstrip (sp +:+ s) = Py.lstrip s.
Proof.
  induction sp as [|a sp IH]; [done|]. simpl. intros [Ha Hsp]%andb_prop.
  rewrite ?append_cons. simpl. by rewrite Ha, IH.
Qed.

Lemma render_side_tight (c : Testapp1.Clause) (cs : list Testapp1.Clause) :
  Forall (λ tok, token_shape tok = true) (clause_tokens (c :: cs)) →
  render_side (c :: cs) ≠ EmptyString
  ∧ Py.rstrip (render_side (c :: cs)) = render_side (c :: cs)
  ∧ ∀ t, Py.lstrip (render_side (c :: cs) +:+ t) = render_side (c :: cs) +:+ t.
Proof.
  revert c. induction cs as [|c' cs IH]; intros c [Hc Hcs]%tokens_shape_cons;
    rewrite !Forall_cons in Hc; destruct Hc as (Hs & Hp & Ho & _);
    apply token_shape_spec in Hs as (Hsne & Hs & _);
    apply token_shape_spec in Ho as (Hone & Ho & _).
  - change (render_side [c]) with (c.1.1 +:+ " " +:+ c.1.2 +:+ " " +:+ c.2). split_and!.
    + rewrite <- !append_assoc. by apply append_nonempty_r.
    + rewrite <- !append_assoc. apply rstrip_tight_r; [by apply rstrip_token|done].
    + intros t. rewrite !append_assoc. by apply lstrip_token.
  - destruct (IH c' Hcs) as (Hne & Hr & _). rewrite render_side_cons. split_and!.
    + rewrite <- !append_assoc. by apply append_nonempty_r.
    + rewrite <- !append_assoc. by apply rstrip_tight_r.
    + intros t. unfold render_clause. rewrite !append_assoc. by apply lstrip_token.
Qed.

Lemma parse_side (sp1 sp2 : string) (cs : list Testapp1.Clause) :
  all_space sp1 = true → all_space sp2 = true →
  Forall (λ tok, token_shape tok = true) (clause_tokens cs) →
  Testapp1.parse_clauses (Py.split (Py.strip (sp1 +:+ render_side cs +:+ sp2)) ".")
  = Some cs.
Proof.
  intros Hsp1 Hsp2 Htok. destruct cs as [|c cs].
  - rewrite strip_all_space; [done|].
    change (render_side []) with EmptyString. by rewrite !all_space_app, Hsp1, Hsp2.
  - destruct (render_side_tight c cs Htok) as (Hne & Hr & Hl).
    unfold Py.strip. rewrite lstrip_space_l, Hl, rstrip_space_r, Hr by done.
    by apply parse_split_side.
Qed.

Lemma plain_token_spec (tok : string) :
  plain_token tok = true → token_shape tok = true ∧ all_chars (not_char "=") tok = true.
Proof. unfold plain_token. apply andb_prop. Qed.

(** X14. The parser reads back a rule that is written out in the usual
    way.  For clauses whose tokens are not empty and have no white space,
    dot or equals sign, the text with the tokens of a clause separated by a
    space, the clauses by [ . ] and the two sides by [ => ] parses, and gives
    these clauses in their order; a side may have no clause at all. *)
Theorem parse_rendered_rule (antecedent consequent : list Testapp1.Clause) :
  Forall (λ tok, plain_token tok = true)
         (clause_tokens antecedent ++ clause_tokens consequent) →
  Testapp1.parse_cwm_rule (render_rule antecedent consequent)
  = Some (antecedent, consequent).
Proof.
  intros [Hant Hcons]%Forall_app.
  assert (∀ cs, Forall (λ tok, plain_token tok = true) (clause_tokens cs) →
                Forall (λ tok, token_shape tok = true) (clause_tokens cs)
                ∧ all_chars (not_char "=") (render_side cs) = true) as Hside.
  { intros cs Hcs. split.
    - eapply Forall_impl; [exact Hcs|]. by intros tok [? _]%plain_token_spec.
    - apply render_side_chars; [done|done|].
      eapply Forall_impl; [exact Hcs|]. by intros tok [_ ?]%plain_token_spec. }
  destruct (Hside antecedent Hant) as [Ha Ha'].
  destruct (Hside consequent Hcons) as [Hc Hc'].
  unfold Testapp1.parse_cwm_rule, Py.split, render_rule.
  change (render_side antecedent +:+ " => " +:+ render_side consequent)
    with (render_side antecedent +:+ " "
          +:+ String "=" (String ">" (" " +:+ render_side consequent))).
  rewrite <- append_assoc, split_go_free, split_go_arrow
    by (by rewrite all_chars_app, Ha').
  rewrite <- (append_nil_r (" " +:+ render_side consequent)).
  rewrite split_go_free by (by rewrite all_chars_app, Hc').
  cbn [Py.split_go].
  pose proof (parse_side EmptyString " " antecedent eq_refl eq_refl Ha) as H1.
  pose proof (parse_side " " EmptyString consequent eq_refl eq_refl Hc) as H2.
  rewrite append_nil_r in H2. unfold Py.split in H1, H2.
  rewrite (append_nil_l (" " +:+ render_side consequent)), H1. csimpl. by rewrite H2.
Qed.

Lemma parse_rendered_rule_witness :
  Testapp1.parse_cwm_rule
    (render_rule [("?x", "hasAuthor", "?y"); ("?x", "hasGenre", "?g")]
                 [("?y", "hasExpertise", "?g")])
  = Some ([("?x", "hasAuthor", "?y"); ("?x", "hasGenre", "?g")],
          [("?y", "hasExpertise", "?g")]).
Proof.
  apply parse_rendered_rule. vm_compute. repeat constructor.
Defined.

Lemma all_chars_and (P Q : char → bool) (s : string) :
  all_chars P s = true → all_chars Q s = true → all_chars (λ c, P c && Q c) s = true.
Proof.
  induction s as [|a s IH]; simpl; [done|].
  intros [-> HP]%andb_prop [-> HQ]%andb_prop. by rewrite IH.
Qed.

Lemma all_chars_snoc (P : char → bool) (s : string) (c : char) :
  all_chars P s = true → P c = true → all_chars P (Py.snoc s c) = true.
Proof.
  intros Hs Hc. unfold Py.snoc. rewrite all_chars_app, Hs. simpl. by rewrite Hc.
Qed.

Lemma split_ws_go_shape (P : char → bool) (cur s : string) :
  all_chars nonspace cur = true → all_chars P cur = true → all_chars P s = true →
  Forall (λ tok, tok ≠ EmptyString ∧ all_chars nonspace tok = true ∧ all_chars P tok = true)
         (Py.split_ws_go cur s).
Proof.
  revert cur. induction s as [|c s IH]; intros cur Hcur HP Hs; simpl.
  - destruct (bool_decide (cur = EmptyString)) eqn:Hne; [constructor|].
    apply bool_decide_eq_false in Hne. by apply Forall_singleton.
  - simpl in Hs. apply andb_prop in Hs as [Hc Hs].
    destruct (Py.isspace c) eqn:Hsp.
    + destruct (bool_decide (cur = EmptyString)) eqn:Hne; [by apply IH|].
      apply bool_decide_eq_false in Hne. apply Forall_cons. split; [done|by apply IH].
    + apply IH; [|by apply all_chars_snoc|done].
      apply all_chars_snoc; [done|]. unfold nonspace. by rewrite Hsp.
Qed.

Lemma split_go_dot_pieces (cur s : string) :
  all_chars (not_char ".") cur = true →
  Forall (λ piece, all_chars (not_char ".") piece = true) (Py.split_go "." 0 cur s).
Proof.
  revert cur. induction s as [|c s IH]; intros cur Hcur.
  - by apply Forall_singleton.
  - simpl. rewrite startswith_nil, andb_true_r.
    destruct (bool_decide ("."%char = c)) eqn:Hc.
    + apply Forall_cons. split; [done|]. by apply IH.
    + apply IH, all_chars_snoc; [done|]. unfold not_char. by rewrite Hc.
Qed.

Lemma parse_clauses_shape (pieces : list string) (clauses : list Testapp1.Clause) :
  Forall (λ piece, all_chars (not_char ".") piece = true) pieces →
  Testapp1.parse_clauses pieces = Some clauses →
  Forall (λ tok, token_shape tok = true) (clause_tokens clauses).
Proof.
  intros Hall. revert clauses.
  induction Hall as [|piece pieces Hpiece _ IH]; intros clauses; simpl.
  - intros [= <-]. constructor.
  - destruct (bool_decide (Py.strip piece = EmptyString)); [by apply IH|].
    pose proof (split_ws_go_shape (not_char ".") EmptyString piece eq_refl eq_refl Hpiece)
      as Htoks.
    fold (Py.split_ws piece) in Htoks.
    destruct (Py.split_ws piece) as [|s [|p [|o [|]]]]; try done. csimpl.
    destruct (Testapp1.parse_clauses pieces) as [cs|]; [|done].
    intros [= <-]. rewrite !Forall_cons in Htoks.
    destruct Htoks as ((Hs & Hs1 & Hs2) & (Hp & Hp1 & Hp2) & (Ho & Ho1 & Ho2) & _).
    unfold clause_tokens. rewrite bind_cons. cbn [fst snd].
    rewrite !strip_token by done.
    apply Forall_app. split; [|by apply IH].
    rewrite !Forall_cons. unfold token_shape.
    rewrite !all_chars_and by done.
    split_and!; [..|constructor]; by rewrite bool_decide_eq_false_2.
Qed.

(** X15. The tokens that the parser hands back.  Whatever the text of the
    rule, when it parses every token of every clause is not empty and has
    no white space and no dot in it: a name with a dot, such as an IRI with
    a host name, can never reach a clause. *)
Theorem parsed_tokens_shape (rule_text : string) (antecedent consequent : list Testapp1.Clause) :
  Testapp1.parse_cwm_rule rule_text = Some (antecedent, consequent) →
  Forall (λ tok, token_shape tok = true)
         (clause_tokens antecedent ++ clause_tokens consequent).
Proof.
  unfold Testapp1.parse_cwm_rule.
  destruct (Py.split rule_text "=>") as [|part0 [|part1 [|]]]; try done.
  destruct (Testapp1.parse_clauses (Py.split (Py.strip part0) ".")) as [ant|] eqn:Ha;
    [|done].
  destruct (Testapp1.parse_clauses (Py.split (Py.strip part1) ".")) as [cons|] eqn:Hc;
    [|done].
  csimpl. intros [= <- <-]. apply Forall_app. split.
  - by apply (parse_clauses_shape _ _
                (split_go_dot_pieces EmptyString (Py.strip part0) eq_refl)).
  - by apply (parse_clauses_shape _ _
                (split_go_dot_pieces EmptyString (Py.strip part1) eq_refl)).
Qed.

Lemma parsed_tokens_shape_witness :
  Forall (λ tok, token_shape tok = true)
         (clause_tokens [("?x", "hasAuthor", "?y")] ++ clause_tokens [("?y", "wrote", "?x")]).
Proof.
  apply (parsed_tokens_shape "  ?x   hasAuthor ?y . =>?y wrote ?x .").
  reflexivity.
Defined.

(** ** The rule stage of run_query *)

Lemma tier_grows (literal_bool : string → option string → option LangTag → bool)
    (tier : Tier) (G : Graph) (t : Triple) :
  t ∈ G → t ∈ tier_apply literal_bool tier G.
Proof.
  intros Hin. rewrite tier_run. apply elem_of_run; [apply tier_pipeline_ok|by left].
Qed.

Lemma testapp1_loop_grows (rules : list string) (g : Graph) (t : Triple) :
  t ∈ g → t ∈ (Testapp1.custom_rules_loop rules g).1.
Proof.
  revert g. induction rules as [|rule rules IH]; intros g Hin; simpl; [done|].
  destruct (Py.contains "=>" rule); [|by apply IH].
  destruct (Py.split rule "=>") as [|c [|a [|x l]]]; try done.
  destruct (_ && _); [|by apply IH]. by apply IH, author_wrote_grows.
Qed.

Lemma testapp1_loop_raised (rules : list string) (g : Graph) :
  (Testapp1.custom_rules_loop rules g).2 = Raised_ValueError →
  Exists (λ r, testapp1_malformed r = true) rules.
Proof.
  intros Hraised.
  destruct (decide (Forall (λ r, testapp1_malformed r = false) rules)) as [Hall|Hex].
  - by rewrite (testapp1_loop_well_formed rules g Hall) in Hraised.
  - apply not_Forall_Exists in Hex; [|apply _].
    eapply Exists_impl; [exact Hex|]. intros r Hr. simpl in Hr. by destruct (testapp1_malformed r).
Qed.

(** X16. The rule stage of [run_query] in [testapp1.py].  Whatever the
    form fields, when the stage hands a graph on to the query it holds every
    triple of the graph that was parsed.  The stage fails only in the
    custom mode, on a batch with a malformed line, and then the CWM rules
    are not run and no graph object is made.  A rule set that is none of
    [basic], [advanced] and [custom], with no CWM rules, leaves the store as
    it is.  With a fixed tier and CWM rules, the tier changes the parsed
    object in place and the CWM rules then work on a copy of the result of
    the tier: they see the triples that the tier derived.  The copy takes
    the triples in the order in which the store yields them. *)
Theorem run_query_rule_stage (literal_bool : string → option string → option LangTag → bool)
    (query : Graph → string → option Result)
    (graph_iter : Graph → list Triple)
    (h : gmap nat Graph) (graph : nat) (G : Graph)
    (rule_set custom_rules cwm_rules : string) :
  h !! graph = Some G →
  (store_order graph_iter →
   ∀ h' g, Testapp1.run_query_rules literal_bool query graph_iter h graph rule_set custom_rules cwm_rules
           = (h', Some g) →
           ∃ G', h' !! g = Some G' ∧ ∀ t, t ∈ G → t ∈ G')
  ∧ (∀ h', Testapp1.run_query_rules literal_bool query graph_iter h graph rule_set custom_rules cwm_rules
           = (h', None) →
           rule_set = "custom"
           ∧ Exists (λ r, testapp1_malformed r = true) (Py.nonblank_lines custom_rules)
           ∧ dom h' = dom h)
  ∧ (rule_set ∉ ["basic"; "advanced"; "custom"] → cwm_rules = EmptyString →
     Testapp1.run_query_rules literal_bool query graph_iter h graph rule_set custom_rules cwm_rules
     = (h, Some graph))
  ∧ (∀ tier, (rule_set = "basic" ∧ tier = Testapp1_basic)
             ∨ (rule_set = "advanced" ∧ tier = Testapp1_advanced) →
             cwm_rules ≠ EmptyString →
     Testapp1.run_query_rules literal_bool query graph_iter h graph rule_set custom_rules cwm_rules
     = (<[fresh (dom h) := cwm_loop query (add_all (graph_iter (tier_apply literal_bool tier G)) [])
                                    (Py.nonblank_lines cwm_rules)]>
          (<[graph := tier_apply literal_bool tier G]> h),
        Some (fresh (dom h)))).
Proof.
  intros Hg.
  assert (store_order graph_iter →
          ∀ (h1 : gmap nat Graph) G1,
            h1 !! graph = Some G1 → (∀ t, t ∈ G → t ∈ G1) →
            ∀ h' g,
              (if bool_decide (cwm_rules = EmptyString) then (h1, Some graph)
               else let '(h2, g2) := Testapp1.apply_cwm_rules query graph_iter h1 graph cwm_rules in
                    (h2, Some g2)) = (h', Some g) →
              ∃ G', h' !! g = Some G' ∧ ∀ t, t ∈ G → t ∈ G') as Hcwm.
  { intros Horder h1 G1 Hg1 Hsub h' g.
    destruct (bool_decide (cwm_rules = EmptyString)) eqn:Hc.
    - intros [= <- <-]. by exists G1.
    - apply bool_decide_eq_false in Hc.
      rewrite (apply_cwm_rules_result query graph_iter h1 graph G1 cwm_rules Hc Hg1).
      intros [= <- <-]. eexists. split; [apply lookup_insert_eq|].
      intros t Ht. apply cwm_loop_grows, elem_of_add_all. left.
      rewrite (Horder G1). by apply Hsub. }
  split_and!.
  - intros Horder h' g. specialize (Hcwm Horder). unfold Testapp1.run_query_rules.
    destruct (bool_decide (rule_set = "basic")).
    { apply (Hcwm _ (tier_apply literal_bool Testapp1_basic G)).
      - by rewrite (alter_known _ h graph G Hg), lookup_insert_eq.
      - intros t. apply tier_grows. }
    destruct (bool_decide (rule_set = "advanced")).
    { apply (Hcwm _ (tier_apply literal_bool Testapp1_advanced G)).
      - by rewrite (alter_known _ h graph G Hg), lookup_insert_eq.
      - intros t. apply tier_grows. }
    destruct (bool_decide (rule_set = "custom")); [|by apply (Hcwm h G)].
    rewrite Hg. simpl.
    destruct (Testapp1.apply_custom_rules G custom_rules) as [G1 out] eqn:Hcustom.
    destruct out; [|done].
    apply (Hcwm _ G1); [apply lookup_insert_eq|].
    intros t Ht. unfold Testapp1.apply_custom_rules in Hcustom.
    destruct (bool_decide (custom_rules = EmptyString)); [by injection Hcustom as <-|].
    pose proof (testapp1_loop_grows (Py.nonblank_lines custom_rules) G t Ht) as Hin.
    by rewrite Hcustom in Hin.
  - intros h'. unfold Testapp1.run_query_rules.
    assert (∀ (h1 : gmap nat Graph),
              (if bool_decide (cwm_rules = EmptyString) then (h1, Some graph)
               else let '(h2, g2) := Testapp1.apply_cwm_rules query graph_iter h1 graph cwm_rules in
                    (h2, Some g2)) ≠ (h', None)) as Hsome.
    { intros h1. destruct (bool_decide (cwm_rules = EmptyString)); [done|].
      by destruct (Testapp1.apply_cwm_rules query graph_iter h1 graph cwm_rules). }
    destruct (bool_decide (rule_set = "basic")); [by intros ?%Hsome|].
    destruct (bool_decide (rule_set = "advanced")); [by intros ?%Hsome|].
    destruct (bool_decide (rule_set = "custom")) eqn:Hrs; [|by intros ?%Hsome].
    apply bool_decide_eq_true in Hrs. rewrite Hg. simpl.
    destruct (Testapp1.apply_custom_rules G custom_rules) as [G1 out] eqn:Hcustom.
    destruct out; [by intros ?%Hsome|]. intros [= <-]. split_and!; [done| |].
    + unfold Testapp1.apply_custom_rules in Hcustom.
      destruct (bool_decide (custom_rules = EmptyString)); [done|].
      apply (testapp1_loop_raised _ G). by rewrite Hcustom.
    + by apply dom_insert_lookup_L.
  - intros Hrs ->. unfold Testapp1.run_query_rules.
    rewrite (bool_decide_eq_false_2 (rule_set = "basic")),
      (bool_decide_eq_false_2 (rule_set = "advanced")),
      (bool_decide_eq_false_2 (rule_set = "custom")); [done|..];
      intros ->; apply Hrs; compute_done.
  - intros tier Htier Hc. unfold Testapp1.run_query_rules.
    destruct Htier as [[-> ->]|[-> ->]]; simpl;
      rewrite (bool_decide_eq_false_2 _ Hc), (alter_known _ h graph G Hg);
      rewrite (apply_cwm_rules_result query graph_iter _ graph _ cwm_rules Hc
                 (lookup_insert_eq _ _ _));
      by rewrite dom_insert_lookup_L.
Qed.

Lemma run_query_rule_stage_witness :
  Testapp1.run_query_rules (λ _ _ _, true) hasAuthor_engine (λ g, g) heap1 0
                           "basic" EmptyString "?x hasAuthor ?y => ?y wrote ?x"
  = (<[fresh (dom heap1) :=
         cwm_loop hasAuthor_engine
                  (add_all (tier_apply (λ _ _ _, true) Testapp1_basic scenario1) [])
                  (Py.nonblank_lines "?x hasAuthor ?y => ?y wrote ?x")]>
       (<[0 := tier_apply (λ _ _ _, true) Testapp1_basic scenario1]> heap1),
     Some (fresh (dom heap1))).
Proof.
  assert (heap1 !! 0 = Some scenario1) as H1 by (vm_compute; reflexivity).
  apply (proj2 (proj2 (proj2 (run_query_rule_stage (λ _ _ _, true) hasAuthor_engine (λ g, g)
                                heap1 0 scenario1 "basic" EmptyString
                                "?x hasAuthor ?y => ?y wrote ?x" H1)))
           Testapp1_basic).
  - by left.
  - done.
Defined.

(** ** Texts and terms outside ASCII *)

(** White space is that of [str.isspace]: a no-break space or a line
    separator is stripped and separates tokens. *)
Example unicode_white_space :
  Py.strip (nbsp +:+ "IF x" +:+ line_separator) = "IF x"
  ∧ Py.split_ws ("a" +:+ nbsp +:+ "b" +:+ line_separator +:+ "c") = ["a"; "b"; "c"]
  ∧ Py.nonblank_lines (nbsp +:+ Py.newline +:+ " x ") = ["x"]
  ∧ given (Some nbsp) = false.
Proof. split_and!; vm_compute; reflexivity. Qed.

(** The textual tier of [testapp.py] on a batch whose first line begins
    with a no-break space: the line is recognized after [strip], so the
    inversions are in the graph object when the second line raises. *)
Example nbsp_line_recognized :
  Testapp.apply_custom_rules scenario1 rules_nbsp_then_bad
  = (author_wrote scenario1, Raised_ValueError).
Proof. vm_compute. reflexivity. Qed.

(** A rules text of one no-break space is blank for [updatedapp.py]. *)
Example nbsp_rules_blank :
  Updatedapp.apply_custom_rules (λ g, g) knows_chain (Some nbsp) = knows_chain.
Proof. vm_compute. reflexivity. Qed.

(** A no-break space inside a clause separates two tokens: the clause has
    four tokens and the parser raises. *)
Example nbsp_splits_token :
  Testapp1.parse_cwm_rule ("a" +:+ nbsp +:+ "b p o => s p o") = None.
Proof. vm_compute. reflexivity. Qed.

(** Language tags that differ in case give one term: the two books share
    their genre and the two loans have one borrower. *)
Example tags_compare_in_lower_case :
  language "EN" = language "en"
  ∧ (ex "B1", EX_relatedTo, ex "B2") ∈ Testapp.apply_basic_library_rules tagged
  ∧ (Literal "Bob" None (language "en"), RDF_type, EX_FrequentBorrower)
    ∈ Testapp.apply_basic_library_rules tagged.
Proof. split_and!; [reflexivity|compute_done|compute_done]. Qed.
